(** * Verification of the version-pinned Go launcher (package [internal/version])

    The development embeds [src/internal/version/version.go]: the
    environment de-duplication, the exit-status translation of [runGo],
    the checksum verifier, the archive unpackers, the downloader, the
    [install] pipeline, the entry point [Run] with the choice of the
    installation root ([goroot], [homedir]), and the progress writer.  Go
    strings and byte slices are both sequences of bytes and are modelled by
    [String.string]; [int] and [int64] values by [Z]; Go maps by [gmap]; the
    file system, the network and the log by an explicit world state threaded
    through a small state-and-error monad.  The signal mask, the
    [User-Agent] header of the transport and [fmtSize], which no call
    reaches, are not embedded. *)

From Stdlib Require Import ZArith NArith Ascii String List Bool Lia Sorted.
From stdpp Require Import gmap strings list.

Local Open Scope string_scope.
Local Open Scope list_scope.

(** ** Package [strings] *)

Module strings.

(** [strings.Index]: position of the first occurrence, [-1] when absent. *)
Definition Index (s substr : string) : Z :=
  match String.index 0 substr s with
  | Some i => Z.of_nat i
  | None => (-1)%Z
  end.

Definition Contains (s substr : string) : bool := (0 <=? Index s substr)%Z.

Definition HasPrefix (s pre : string) : bool := String.prefix pre s.

Definition HasSuffix (s suffix : string) : bool :=
  (String.length suffix <=? String.length s)%nat &&
  String.eqb
    (substring (String.length s - String.length suffix) (String.length suffix) s)
    suffix.

Definition TrimPrefix (s pre : string) : string :=
  if HasPrefix s pre
  then substring (String.length pre) (String.length s - String.length pre) s
  else s.

(** The white space of [unicode.IsSpace] that fits in one byte of ASCII. *)
Definition isSpace (c : ascii) : bool :=
  let n := nat_of_ascii c in
  ((9 <=? n) && (n <=? 13) || (n =? 32))%nat.

Fixpoint TrimLeft (s : string) : string :=
  match s with
  | String c s' => if isSpace c then TrimLeft s' else s
  | EmptyString => EmptyString
  end.

Fixpoint TrimRight (s : string) : string :=
  match s with
  | String c s' =>
      match TrimRight s' with
      | EmptyString => if isSpace c then EmptyString else String c EmptyString
      | t => String c t
      end
  | EmptyString => EmptyString
  end.

Definition TrimSpace (s : string) : string := TrimRight (TrimLeft s).

(** [strings.Join] *)
Fixpoint Join (elems : list string) (sep : string) : string :=
  match elems with
  | [] => ""
  | [e] => e
  | e :: rest => e +:+ sep +:+ Join rest sep
  end.

(** ASCII part of [strings.ToLower], used for concrete environments. *)
Definition lower_ascii (c : ascii) : ascii :=
  let n := nat_of_ascii c in
  if ((65 <=? n) && (n <=? 90))%nat then ascii_of_nat (n + 32) else c.

Fixpoint ToLowerASCII (s : string) : string :=
  match s with
  | String c s' => String (lower_ascii c) (ToLowerASCII s')
  | EmptyString => EmptyString
  end.

(** [strings.EqualFold] on ASCII: equality under case folding. *)
Definition EqualFoldASCII (s t : string) : bool :=
  String.eqb (ToLowerASCII s) (ToLowerASCII t).

End strings.

(** ** Packages [path] and [path/filepath] on a POSIX host

    Paths are cut at "/" and have no volume name.  On windows the library
    cuts at a backslash too: what is proved of the elements of a path, or of
    a path lying in a directory, is stated for hosts other than windows or
    for names the program itself refuses when they hold a backslash. *)

Module filepath.

Definition Separator : ascii := "/"%char.

Fixpoint split (s : string) : list string :=
  match s with
  | EmptyString => [EmptyString]
  | String c s' =>
      if Ascii.eqb c Separator then EmptyString :: split s'
      else match split s' with
           | x :: r => String c x :: r
           | [] => [String c EmptyString]
           end
  end.

(** One step of the element loop of [Clean]: [stack] holds the elements
    kept so far, innermost first. *)
Definition clean_step (rooted : bool) (stack : list string) (seg : string)
  : list string :=
  if String.eqb seg "" || String.eqb seg "." then stack
  else if String.eqb seg ".." then
    match stack with
    | top :: below => if String.eqb top ".." then seg :: stack else below
    | [] => if rooted then [] else [seg]
    end
  else seg :: stack.

(** [filepath.Clean]: the shortest path name equivalent to [p] by purely
    lexical processing. *)
Definition Clean (p : string) : string :=
  let rooted := strings.HasPrefix p "/" in
  let kept := rev (fold_left (clean_step rooted) (split p) []) in
  let body := strings.Join kept "/" in
  let out := if rooted then "/" +:+ body else body in
  if String.eqb out "" then "." else out.

(** [filepath.Join]: empty leading elements are dropped, the rest is joined
    by the separator and cleaned; the result is empty when every element is. *)
Fixpoint Join (elem : list string) : string :=
  match elem with
  | [] => ""
  | e :: rest =>
      if String.eqb e "" then Join rest
      else Clean (strings.Join elem "/")
  end.

(** [filepath.Dir]: everything up to the last separator, cleaned. *)
Definition Dir (p : string) : string :=
  Clean (strings.Join (removelast (split p) ++ [""]) "/").

(** [filepath.FromSlash] is the identity where the separator is a slash. *)
Definition FromSlash (p : string) : string := p.

Fixpoint drop_trailing_empty (l : list string) : list string :=
  match l with
  | [] => []
  | x :: r =>
      match drop_trailing_empty r with
      | [] => if String.eqb x "" then [] else [x]
      | r' => x :: r'
      end
  end.

(** [path.Base]: the last element of the path. *)
Definition Base (p : string) : string :=
  if String.eqb p "" then "."
  else match last (drop_trailing_empty (split p)) with
       | Some e => e
       | None => "/"
       end.

End filepath.

(** ** Errors, archives and the host *)

Inductive errno := ENOENT | EEXIST | ENOTDIR | EISDIR | EACCES | EFBIG | ENOTEMPTY.

(** An argument of a format string. *)
Inductive arg :=
| Str (s : string)
| Int (z : Z).

(** Go error values.  [fmt.Errorf] is kept as the format with its arguments,
    not rendered, so that a theorem can say what an error names.  Every call
    of [fmt.Errorf] in the package that formats another error has it as the
    last argument: that is [ErrorfWrap]. *)
Inductive error :=
| PathError (op path : string) (e : errno)
| ErrorString (msg : string)
| Errorf (format : string) (args : list arg)
| ErrorfWrap (format : string) (args : list arg) (err : error).

(** What [mode.IsRegular] and [mode.IsDir] tell of a tar header. *)
Inductive FileType :=
| Regular
| Directory
| Irregular (mode : string).

(** One record of a tar stream: the header the reader returns from [Next]
    and what [io.Copy] then reads of the body. *)
Record tar_entry := {
  tar_Name : string;
  tar_Size : Z;
  tar_Type : FileType;
  tar_Perm : Z;
  tar_ModTime : option Z;       (* [None]: the zero time *)
  tar_Data : string;
  tar_DataErr : option error;   (* a read error after [tar_Data] *)
}.

(** A tar stream: its records, then [io.EOF] ([None]) or a reader error. *)
Record tar_stream := {
  tar_entries : list tar_entry;
  tar_end : option error;
}.

(** One member of [zip.Reader.File]. *)
Record zip_file := {
  zip_Name : string;
  zip_IsDir : bool;
  zip_Mode : Z;
  zip_Open : error + (string * option error);
}.

(** The host of the program: the build constants of package [runtime] and
    the standard-library routines whose tables and codecs are taken as given. *)
Class Host := {
  GOOS : string;
  GOARCH : string;
  ToLower : string -> string;                     (* [strings.ToLower] *)
  StatusText : Z -> string;                       (* [http.StatusText] *)
  gzip_tar_NewReader : string -> error + tar_stream; (* [gzip.NewReader], [tar.NewReader] *)
  zip_OpenReader : string -> error + list zip_file;  (* [zip.OpenReader] on the file's bytes *)
  dir_Size : Z;                                   (* [FileInfo.Size] of a directory *)
}.

(** ** Package [version]: the delegator *)

Definition caseInsensitiveEnv `{Host} : bool := String.eqb GOOS "windows".

Definition unpackedOkay : string := ".unpacked-success".

Definition exe `{Host} : string :=
  if String.eqb GOOS "windows" then ".exe" else "".

Definition ListSeparator `{Host} : string :=
  if String.eqb GOOS "windows" then ";" else ":".

(** One iteration of the loop of [dedupEnv] on the pair of [out] and [saw].
    [saw] only ever holds indices below [len(out)] (lemma [dedup_saw_bound]),
    so the indexed assignment never goes out of range. *)
Definition dedup_step `{Host} (caseInsensitive : bool)
    (st : list string * gmap string nat) (kv : string)
  : list string * gmap string nat :=
  let '(out, saw) := st in
  let eq := strings.Index kv "=" in
  if (eq <? 1)%Z then (out ++ [kv], saw)
  else
    let k := substring 0 (Z.to_nat eq) kv in
    let k := if caseInsensitive then ToLower k else k in
    match saw !! k with
    | Some dupIdx => (<[dupIdx := kv]> out, saw)
    | None => (out ++ [kv], <[k := length out]> saw)
    end.

Definition dedupEnv `{Host} (caseInsensitive : bool) (env : list string)
  : list string :=
  fst (fold_left (dedup_step caseInsensitive) env ([], ∅)).

(** [os.Getenv] over the environment block of a POSIX process: the first
    entry for the key, the empty string when there is none. *)
Definition os_Getenv (environ : list string) (key : string) : string :=
  match find (fun kv => strings.HasPrefix kv (key +:+ "=")) environ with
  | Some kv => strings.TrimPrefix kv (key +:+ "=")
  | None => ""
  end.

Record Cmd := {
  cmd_Path : string;
  cmd_Args : list string;
  cmd_Env : list string;
}.

(** How a child process ended, as [os.ProcessState] tells. *)
Inductive ProcessState :=
| Exited (code : Z)
| Signaled (sig : Z).

(** [ProcessState.ExitCode]: [-1] when the process was ended by a signal. *)
Definition ExitCode (ps : ProcessState) : Z :=
  match ps with
  | Exited code => code
  | Signaled _ => (-1)%Z
  end.

(** What [cmd.Run] returns: [nil], an [*exec.ExitError] or another error. *)
Inductive RunResult :=
| RunOk
| RunExitError (ps : ProcessState)
| RunError (err : error).

(** [runGo]: the command it builds and the status it passes to [os.Exit].
    [osArgs] is [os.Args], [environ] is [os.Environ()], [run] is the
    behaviour of the child.  The standard streams are inherited and
    [handleSignals] only masks signals: neither is part of the model. *)
Definition runGo `{Host} (root : string) (osArgs environ : list string)
    (run : Cmd -> RunResult) : Cmd * Z :=
  let gobin := filepath.Join [root; "bin"; "go" +:+ exe] in
  let newPath := filepath.Join [root; "bin"] in
  let p := os_Getenv environ "PATH" in
  let newPath :=
    if negb (String.eqb p "") then newPath +:+ ListSeparator +:+ p else newPath in
  let cmd := {| cmd_Path := gobin;
                cmd_Args := gobin :: tail osArgs;
                cmd_Env := dedupEnv caseInsensitiveEnv
                             (environ ++ ["GOROOT=" +:+ root; "PATH=" +:+ newPath]) |} in
  match run cmd with
  | RunExitError eerr => (cmd, ExitCode eerr)
  | RunError _ => (cmd, 1%Z)
  | RunOk => (cmd, 0%Z)
  end.

(** ** Package [crypto/sha256] (FIPS 180-4) on 32-bit words held in [N] *)

Module sha256.

Local Open Scope N_scope.

Definition mask32 : N := 0xFFFFFFFF.
Definition add32 (a b : N) : N := N.land (a + b) mask32.
Definition not32 (a : N) : N := N.lxor a mask32.
Definition rotr (n x : N) : N :=
  N.lor (N.shiftr x n) (N.land (N.shiftl x (32 - n)) mask32).

Definition Ch (x y z : N) : N := N.lxor (N.land x y) (N.land (not32 x) z).
Definition Maj (x y z : N) : N :=
  N.lxor (N.land x y) (N.lxor (N.land x z) (N.land y z)).
Definition bsig0 (x : N) : N := N.lxor (rotr 2 x) (N.lxor (rotr 13 x) (rotr 22 x)).
Definition bsig1 (x : N) : N := N.lxor (rotr 6 x) (N.lxor (rotr 11 x) (rotr 25 x)).
Definition ssig0 (x : N) : N := N.lxor (rotr 7 x) (N.lxor (rotr 18 x) (N.shiftr x 3)).
Definition ssig1 (x : N) : N := N.lxor (rotr 17 x) (N.lxor (rotr 19 x) (N.shiftr x 10)).

(** The first sixty-four primes. *)
Definition is_prime (n : nat) : bool :=
  forallb (fun d => negb (n mod d =? 0)%nat) (seq 2 (n - 2)).

Definition primes : list N := map N.of_nat (filter is_prime (seq 2 310)).

(** The integer part of the cube root, one binary digit at a time. *)
Fixpoint icbrt (bits : nat) (n r : N) : N :=
  match bits with
  | O => r
  | S b =>
      let r' := r + N.shiftl 1 (N.of_nat b) in
      if r' * r' * r' <=? n then icbrt b n r' else icbrt b n r
  end.

(** The round constants: the first thirty-two bits of the fractional parts
    of the cube roots of the primes. *)
Definition K : list N :=
  map (fun p => N.land (icbrt 40 (N.shiftl p 96) 0) mask32) primes.

(** The initial hash value: the same of the square roots of the first
    eight primes. *)
Definition init : list N :=
  map (fun p => N.land (N.sqrt (N.shiftl p 64)) mask32) (firstn 8 primes).

Definition nth32 (l : list N) (i : nat) : N := nth i l 0.

(** One round: [st] is the working variables a..h, [win] the sixteen most
    recent words of the message schedule, the current one first. *)
Definition round (acc : list N * list N) (k : N) : list N * list N :=
  let '(st, win) := acc in
  let w := nth32 win 0 in
  let a := nth32 st 0 in let b := nth32 st 1 in
  let c := nth32 st 2 in let d := nth32 st 3 in
  let e := nth32 st 4 in let f := nth32 st 5 in
  let g := nth32 st 6 in let h := nth32 st 7 in
  let t1 := add32 h (add32 (bsig1 e) (add32 (Ch e f g) (add32 k w))) in
  let t2 := add32 (bsig0 a) (Maj a b c) in
  let next := add32 (ssig1 (nth32 win 14))
                (add32 (nth32 win 9) (add32 (ssig0 (nth32 win 1)) w)) in
  ([add32 t1 t2; a; b; c; add32 d t1; e; f; g], tail win ++ [next]).

Definition compress (h : list N) (block : list N) : list N :=
  let '(st, _) := fold_left round K (h, block) in
  map (fun p : N * N => add32 (fst p) (snd p)) (combine h st).

Definition bytes_of (s : string) : list N := map N_of_ascii (list_ascii_of_string s).

(** Big-endian bytes of [x], [n] of them. *)
Fixpoint be_bytes (n : nat) (x : N) : list N :=
  match n with
  | O => []
  | S n' => N.land (N.shiftr x (8 * N.of_nat n')) 0xFF :: be_bytes n' x
  end.

Definition pad (msg : list N) : list N :=
  let len := length msg in
  let zeros := ((64 - (len + 9) mod 64) mod 64)%nat in
  msg ++ [0x80] ++ repeat 0 zeros ++ be_bytes 8 (8 * N.of_nat len).

Fixpoint words (fuel : nat) (bs : list N) : list N :=
  match fuel, bs with
  | S fuel', b0 :: b1 :: b2 :: b3 :: rest =>
      (N.shiftl b0 24 + N.shiftl b1 16 + N.shiftl b2 8 + b3) :: words fuel' rest
  | _, _ => []
  end.

Fixpoint blocks (fuel : nat) (ws : list N) : list (list N) :=
  match fuel, ws with
  | S fuel', _ :: _ => firstn 16 ws :: blocks fuel' (skipn 16 ws)
  | _, _ => []
  end.

(** [sha256.Sum256]: the 32 bytes of the digest. *)
Definition Sum256 (s : string) : list N :=
  let bs := pad (bytes_of s) in
  let ws := words (length bs) bs in
  flat_map (be_bytes 4) (fold_left compress (blocks (length ws) ws) init).

Definition hex_digit (n : N) : ascii :=
  if n <? 10 then ascii_of_N (48 + n) else ascii_of_N (87 + n).

(** [fmt.Sprintf("%x", b)] of a byte slice: two lower-case digits a byte. *)
Fixpoint hex (bs : list N) : string :=
  match bs with
  | [] => EmptyString
  | b :: rest => String (hex_digit (b / 16)) (String (hex_digit (b mod 16)) (hex rest))
  end.

End sha256.

(** ** The world: file system, network and log *)

Inductive node :=
| File (data : string) (perm : Z) (mtime : option Z)
| Dir (perm : Z).

Record FileInfo := {
  fi_Size : Z;
  fi_IsDir : bool;
}.

(** An HTTP response: the status, the announced length ([-1] when unknown),
    the bytes of the body and a transport error that ends it, if any. *)
Record Response := {
  StatusCode : Z;
  Status : string;
  ContentLength : Z;
  Body : string;
  BodyErr : option error;
}.

(** What the program does that can be seen from outside: lines of the log,
    requests sent, the last progress line of a download, and the calls of
    package [os] that change the file system, each with the path it names
    ([OsWriteFile] is a completed [os.WriteFile], [OsWrite] a [Write] on an
    open file). *)
Inductive event :=
| Log (format : string) (args : list arg)
| LogErr (format : string) (err : error)
| HttpHead (url : string)
| HttpGet (url : string)
| Progress (n total : Z)
| OsMkdir (path : string)
| OsOpenFile (path : string)
| OsWrite (path : string)
| OsWriteFile (path : string)
| OsChtimes (path : string)
| OsClose (path : string)
| OsRemove (path : string).

(** [fs] maps a cleaned path to its node; the root and the working directory
    always exist.  [denied] lists the paths on which the system refuses every
    call ([EACCES]); [max_file] is the largest size a file may grow to
    ([EFBIG] beyond), when there is such a limit. *)
Record World := {
  fs : gmap string node;
  denied : gset string;
  max_file : option nat;
  net_Head : string -> error + Response;
  net_Get : string -> error + Response;
  trace : list event;
}.

Definition set_fs (w : World) (m : gmap string node) : World :=
  {| fs := m; denied := denied w; max_file := max_file w;
     net_Head := net_Head w; net_Get := net_Get w; trace := trace w |}.

Definition add_event (w : World) (ev : event) : World :=
  {| fs := fs w; denied := denied w; max_file := max_file w;
     net_Head := net_Head w; net_Get := net_Get w;
     trace := trace w ++ [ev] |}.

(** *** The monad of a Go function that may change the world and return an error *)

Inductive result (A : Type) :=
| Ok (a : A)
| Err (e : error).
Arguments Ok {A} a.
Arguments Err {A} e.

Definition M (A : Type) : Type := World -> result A * World.

Definition ret {A} (a : A) : M A := fun w => (Ok a, w).
Definition fail {A} (e : error) : M A := fun w => (Err e, w).
Definition bind {A B} (m : M A) (k : A -> M B) : M B :=
  fun w => match m w with
           | (Ok a, w') => k a w'
           | (Err e, w') => (Err e, w')
           end.

#[global] Instance M_ret : MRet M := @ret.
#[global] Instance M_bind : MBind M := fun A B k m => bind m k.

(** [err := f()] followed by a test of [err]: the error as a value. *)
Definition try {A} (m : M A) : M (result A) :=
  fun w => let '(r, w') := m w in (Ok r, w').

(** [if err != nil { return fmt.Errorf(format, args..., err) }] *)
Definition wrap {A} (format : string) (args : list arg) (m : M A) : M A :=
  fun w => match m w with
           | (Ok a, w') => (Ok a, w')
           | (Err e, w') => (Err (ErrorfWrap format args e), w')
           end.

Definition emit (ev : event) : M unit := fun w => (Ok tt, add_event w ev).

Definition log_Printf (format : string) (args : list arg) : M unit :=
  emit (Log format args).

(** *** Package [os] *)

Definition lookup_node (w : World) (p : string) : option node :=
  if String.eqb p "/" || String.eqb p "." then Some (Dir 493) else fs w !! p.

Definition is_denied (w : World) (p : string) : bool := bool_decide (p ∈ denied w).

Definition node_info `{Host} (n : node) : FileInfo :=
  match n with
  | File data _ _ => {| fi_Size := Z.of_nat (String.length data); fi_IsDir := false |}
  | Dir _ => {| fi_Size := dir_Size; fi_IsDir := true |}
  end.

Definition os_Stat `{Host} (p : string) : M FileInfo := fun w =>
  if is_denied w p then (Err (PathError "stat" p EACCES), w)
  else match lookup_node w p with
       | Some n => (Ok (node_info n), w)
       | None => (Err (PathError "stat" p ENOENT), w)
       end.

Definition os_IsNotExist (e : error) : bool :=
  match e with
  | PathError _ _ ENOENT => true
  | _ => false
  end.

(** The directory a new name is entered in must be there. *)
Definition check_parent (op p : string) : M unit := fun w =>
  match lookup_node w (filepath.Dir p) with
  | Some (Dir _) => (Ok tt, w)
  | Some (File _ _ _) => (Err (PathError op p ENOTDIR), w)
  | None => (Err (PathError op p ENOENT), w)
  end.

(** A change of the file system together with the call that made it. *)
Definition update_fs (f : gmap string node -> gmap string node) (ev : event) : M unit :=
  fun w => (Ok tt, add_event (set_fs w (f (fs w))) ev).

Definition os_Mkdir (p : string) (perm : Z) : M unit := fun w =>
  if is_denied w p then (Err (PathError "mkdir" p EACCES), w)
  else match lookup_node w p with
       | Some _ => (Err (PathError "mkdir" p EEXIST), w)
       | None => (check_parent "mkdir" p ;; update_fs (insert p (Dir perm)) (OsMkdir p)) w
       end.

(** The path itself and the directories above it, nearest first, up to the
    root or the working directory. *)
Fixpoint lineage (fuel : nat) (p : string) : list string :=
  match fuel with
  | O => []
  | S fuel' =>
      if String.eqb p "/" || String.eqb p "." || String.eqb p "" then []
      else p :: lineage fuel' (filepath.Dir p)
  end.

(** [os.MkdirAll], recursive as the library has it: a directory that is
    there ends the walk; otherwise the parent is made first, then the
    directory, and a failing [Mkdir] is forgiven when the directory is
    there after all. *)
Fixpoint mkdirAll `{Host} (chain : list string) (perm : Z) : M unit :=
  match chain with
  | [] => ret tt
  | p :: parents =>
      st ← try (os_Stat p);
      match st with
      | Ok dir => if fi_IsDir dir then ret tt else fail (PathError "mkdir" p ENOTDIR)
      | Err _ =>
          mkdirAll parents perm ;;
          made ← try (os_Mkdir p perm);
          match made with
          | Ok _ => ret tt
          | Err err =>
              st1 ← try (os_Stat p);
              match st1 with
              | Ok dir1 => if fi_IsDir dir1 then ret tt else fail err
              | Err _ => fail err
              end
          end
      end
  end.

Definition os_MkdirAll `{Host} (p : string) (perm : Z) : M unit :=
  mkdirAll (lineage (S (String.length p)) p) perm.

Definition open_trunc (p : string) (perm : Z) : M unit := fun w =>
  match lookup_node w p with
  | Some (Dir _) => (Err (PathError "open" p EISDIR), w)
  | Some (File _ perm0 mtime) => update_fs (insert p (File "" perm0 mtime)) (OsOpenFile p) w
  | None => update_fs (insert p (File "" perm None)) (OsOpenFile p) w
  end.

(** [os.OpenFile] with [O_CREATE|O_TRUNC]: the file is created with [perm]
    or emptied.  The handle is the path: nothing renames a file. *)
Definition os_OpenFile (p : string) (perm : Z) : M unit := fun w =>
  if is_denied w p then (Err (PathError "open" p EACCES), w)
  else (check_parent "open" p ;; open_trunc p perm) w.

Definition os_Create (p : string) : M unit := os_OpenFile p 438.

(** [f.Write]: the bytes are appended; where the size limit cuts them short
    the part that fits is written and the call fails. *)
Definition file_Write (p : string) (buf : string) : World -> (Z * option error) * World :=
  fun w =>
    match fs w !! p with
    | Some (File data perm mtime) =>
        let room :=
          match max_file w with
          | Some lim => (lim - String.length data)%nat
          | None => String.length buf
          end in
        if (String.length buf <=? room)%nat
        then ((Z.of_nat (String.length buf), None),
              add_event (set_fs w (<[p := File (data +:+ buf) perm mtime]> (fs w)))
                (OsWrite p))
        else ((Z.of_nat room, Some (PathError "write" p EFBIG)),
              add_event
                (set_fs w (<[p := File (data +:+ substring 0 room buf) perm mtime]> (fs w)))
                (OsWrite p))
    | _ => ((0%Z, Some (PathError "write" p EISDIR)), w)
    end.

(** [io.Copy] into an open file from a source that delivers [data] and then
    ends with [io.EOF] or with [rerr]: the count written and the error. *)
Definition io_Copy (dst : string) (data : string) (rerr : option error)
  : M (Z * option error) :=
  fun w =>
    let '((n, werr), w') := file_Write dst data w in
    match werr with
    | Some e => (Ok (n, Some e), w')
    | None => (Ok (n, rerr), w')
    end.

Definition os_Close (p : string) : M unit := emit (OsClose p).

(** [f.Write] of the whole buffer, then [f.Close]. *)
Definition write_all (p : string) (data : string) : M unit := fun w =>
  let '((_, werr), w') := file_Write p data w in
  match werr with
  | Some e => (Err e, w')
  | None => (Ok tt, add_event w' (OsWriteFile p))
  end.

Definition os_WriteFile (p : string) (data : string) (perm : Z) : M unit :=
  os_OpenFile p perm ;; write_all p data.

Definition has_child (m : gmap string node) (p : string) : bool :=
  bool_decide (map_Exists (fun q _ => q ≠ p ∧ filepath.Dir q = p) m).

Definition os_Remove (p : string) : M unit := fun w =>
  if is_denied w p then (Err (PathError "remove" p EACCES), w)
  else match fs w !! p with
       | None => (Err (PathError "remove" p ENOENT), w)
       | Some (Dir _) =>
           if has_child (fs w) p then (Err (PathError "remove" p ENOTEMPTY), w)
           else update_fs (delete p) (OsRemove p) w
       | Some (File _ _ _) => update_fs (delete p) (OsRemove p) w
       end.

(** [os.Chtimes]: it fails on a path that is refused or missing; other
    failures of the system call have no counterpart in the world. *)
Definition os_Chtimes (p : string) (t : Z) : M unit := fun w =>
  if is_denied w p then (Err (PathError "chtimes" p EACCES), w)
  else match fs w !! p with
       | Some (File data perm _) =>
           update_fs (insert p (File data perm (Some t))) (OsChtimes p) w
       | Some (Dir _) => emit (OsChtimes p) w
       | None => (Err (PathError "chtimes" p ENOENT), w)
       end.

(** [os.Open] for reading. *)
Definition os_Open (p : string) : M unit := fun w =>
  if is_denied w p then (Err (PathError "open" p EACCES), w)
  else match lookup_node w p with
       | Some _ => (Ok tt, w)
       | None => (Err (PathError "open" p ENOENT), w)
       end.

(** Reading an open file to its end. *)
Definition file_ReadAll (p : string) : M string := fun w =>
  match lookup_node w p with
  | Some (File data _ _) => (Ok data, w)
  | _ => (Err (PathError "read" p EISDIR), w)
  end.

(** *** Package [net/http] *)

Definition http_Head (url : string) : M Response := fun w =>
  match net_Head w url with
  | inl err => (Err err, add_event w (HttpHead url))
  | inr res => (Ok res, add_event w (HttpHead url))
  end.

Definition http_Get (url : string) : M Response := fun w =>
  match net_Get w url with
  | inl err => (Err err, add_event w (HttpGet url))
  | inr res => (Ok res, add_event w (HttpGet url))
  end.

(** ** Package [version]: the installer *)

Definition validRelPath (p : string) : bool :=
  if String.eqb p "" || strings.Contains p "\" || strings.HasPrefix p "/"
     || strings.Contains p "../"
  then false
  else true.

(** The loop of [unpackTarGz] over the records of the stream. *)
Fixpoint unpackTarGz_loop `{Host} (targetDir : string) (madeDir : gmap string bool)
    (entries : list tar_entry) (tend : option error) : M unit :=
  match entries with
  | [] =>
      match tend with
      | None => ret tt
      | Some err => fail err
      end
  | f :: rest =>
      if negb (validRelPath (tar_Name f))
      then fail (Errorf "tar file contained invalid name %q" [Str (tar_Name f)])
      else
        let rel := filepath.FromSlash (strings.TrimPrefix (tar_Name f) "go/") in
        let abs := filepath.Join [targetDir; rel] in
        match tar_Type f with
        | Regular =>
            let dir := filepath.Dir abs in
            madeDir' ←
              (if default false (madeDir !! dir) then ret madeDir
               else os_MkdirAll (filepath.Dir abs) 493 ;; ret (<[dir := true]> madeDir));
            os_OpenFile abs (tar_Perm f) ;;
            '(n, err) ← io_Copy abs (tar_Data f) (tar_DataErr f);
            closed ← try (os_Close abs);
            let err := match closed, err with
                       | Err closeErr, None => Some closeErr
                       | _, _ => err
                       end in
            match err with
            | Some e => fail (ErrorfWrap "error writing to %s: %v" [Str abs] e)
            | None =>
                if negb (n =? tar_Size f)%Z
                then fail (Errorf "only wrote %d bytes to %s; expected %d"
                             [Int n; Str abs; Int (tar_Size f)])
                else
                  match tar_ModTime f with
                  | Some t =>
                      changed ← try (os_Chtimes abs t);
                      match changed with
                      | Err e => emit (LogErr "error changing modtime: %v" e)
                      | Ok _ => ret tt
                      end
                  | None => ret tt
                  end ;;
                  unpackTarGz_loop targetDir madeDir' rest tend
            end
        | Directory =>
            os_MkdirAll abs 493 ;;
            unpackTarGz_loop targetDir (<[abs := true]> madeDir) rest tend
        | Irregular mode =>
            fail (Errorf "tar file entry %s contained unsupported file type %v"
                    [Str (tar_Name f); Str mode])
        end
  end.

Definition unpackTarGz `{Host} (targetDir archiveFile : string) : M unit :=
  os_Open archiveFile ;;
  raw ← file_ReadAll archiveFile;
  match gzip_tar_NewReader raw with
  | inl err => fail err
  | inr tr => unpackTarGz_loop targetDir ∅ (tar_entries tr) (tar_end tr)
  end.

(** The loop of [unpackZip] over [zr.File]. *)
Fixpoint unpackZip_loop `{Host} (targetDir : string) (files : list zip_file) : M unit :=
  match files with
  | [] => ret tt
  | f :: rest =>
      let name := strings.TrimPrefix (zip_Name f) "go/" in
      let outpath := filepath.Join [targetDir; name] in
      if zip_IsDir f then
        os_MkdirAll outpath 493 ;;
        unpackZip_loop targetDir rest
      else
        match zip_Open f with
        | inl err => fail err
        | inr (data, rerr) =>
            os_MkdirAll (filepath.Dir outpath) 493 ;;
            os_OpenFile outpath (zip_Mode f) ;;
            '(_, err) ← io_Copy outpath data rerr;
            match err with
            | Some e => os_Close outpath ;; fail e
            | None => os_Close outpath ;; unpackZip_loop targetDir rest
            end
        end
  end.

Definition unpackZip `{Host} (targetDir archiveFile : string) : M unit :=
  os_Open archiveFile ;;
  raw ← file_ReadAll archiveFile;
  match zip_OpenReader raw with
  | inl err => fail err
  | inr files => unpackZip_loop targetDir files
  end.

Definition unpackArchive `{Host} (targetDir archiveFile : string) : M unit :=
  if strings.HasSuffix archiveFile ".zip" then unpackZip targetDir archiveFile
  else if strings.HasSuffix archiveFile ".tar.gz" then unpackTarGz targetDir archiveFile
  else fail (ErrorString "unsupported archive file").

Definition verifySHA256 (file wantHex : string) : M unit :=
  os_Open file ;;
  data ← file_ReadAll file;
  if negb (String.eqb (sha256.hex (sha256.Sum256 data)) wantHex)
  then fail (Errorf "%s corrupt? does not have expected SHA-256 of %v"
               [Str file; Str wantHex])
  else ret tt.

Definition slurpURLToString (url_ : string) : M string :=
  res ← http_Get url_;
  if negb (StatusCode res =? 200)%Z
  then fail (Errorf "%s: %v" [Str url_; Str (Status res)])
  else match BodyErr res with
       | Some err => fail (ErrorfWrap "reading %s: %v" [Str url_] err)
       | None => ret (Body res)
       end.

(** The body of [copyFromURL] once the destination is created.  The
    progress lines [progressWriter.Write] prints while copying depend on the
    wall clock and are left out; the one printed at the end is [Progress]. *)
Definition copyFromURL_body (dstFile srcURL : string) : M unit :=
  res ← http_Get srcURL;
  if negb (StatusCode res =? 200)%Z then fail (ErrorString (Status res))
  else
    '(n, err) ← io_Copy dstFile (Body res) (BodyErr res);
    match err with
    | Some e => fail e
    | None =>
        if negb (ContentLength res =? -1)%Z && negb (ContentLength res =? n)%Z
        then fail (Errorf "copied %v bytes; expected %v" [Int n; Int (ContentLength res)])
        else emit (Progress n (ContentLength res)) ;; os_Close dstFile
    end.

(** [copyFromURL]: the deferred function runs when the body returns an
    error; what [f.Close] and [os.Remove] return there is dropped. *)
Definition copyFromURL (dstFile srcURL : string) : M unit := fun w =>
  match os_Create dstFile w with
  | (Err err, w1) => (Err err, w1)
  | (Ok _, w1) =>
      match copyFromURL_body dstFile srcURL w1 with
      | (Err err, w2) =>
          let '(_, w3) := os_Close dstFile w2 in
          let '(_, w4) := os_Remove dstFile w3 in
          (Err err, w4)
      | (Ok _, w2) => (Ok tt, w2)
      end
  end.

Definition getOS `{Host} : string := GOOS.

Definition versionArchiveURL `{Host} (version : string) : string :=
  let goos := getOS in
  let ext := if String.eqb goos "windows" then ".zip" else ".tar.gz" in
  let arch := if String.eqb goos "linux" && String.eqb GOARCH "arm"
              then "armv6l" else GOARCH in
  "https://dl.google.com/go/" +:+ version +:+ "." +:+ goos +:+ "-" +:+ arch +:+ ext.

(** Lines 142 to 157 of [install]: the digest is fetched and checked, the
    archive unpacked, the marker written. *)
Definition install_verify_unpack `{Host} (targetDir version goURL archiveFile : string)
  : M unit :=
  wantSHA ← slurpURLToString (goURL +:+ ".sha256");
  wrap "error verifying SHA256 of %v: %v" [Str archiveFile]
    (verifySHA256 archiveFile (strings.TrimSpace wantSHA)) ;;
  log_Printf "Unpacking %v ..." [Str archiveFile] ;;
  wrap "extracting archive %v: %v" [Str archiveFile]
    (unpackArchive targetDir archiveFile) ;;
  os_WriteFile (filepath.Join [targetDir; unpackedOkay]) "" 420 ;;
  log_Printf "Success. You may now run '%v'" [Str version].

(** Lines 126 to 141 of [install]: the archive on disk is kept when it has
    the length the server announced, and fetched otherwise. *)
Definition install_fetch `{Host} (goURL archiveFile : string) (res : Response) : M unit :=
  st ← try (os_Stat archiveFile);
  let stale := match st with
               | Err _ => true
               | Ok fi => negb (fi_Size fi =? ContentLength res)%Z
               end in
  if stale then
    match st with
    | Err err => if negb (os_IsNotExist err) then fail err else ret tt
    | Ok _ => ret tt
    end ;;
    wrap "error downloading %v: %v" [Str goURL] (copyFromURL archiveFile goURL) ;;
    fi ← os_Stat archiveFile;
    if negb (fi_Size fi =? ContentLength res)%Z
    then fail (Errorf "downloaded file %s size %v doesn't match server size %v"
                 [Str archiveFile; Int (fi_Size fi); Int (ContentLength res)])
    else ret tt
  else ret tt.

Definition install `{Host} (targetDir version : string) : M unit :=
  st ← try (os_Stat (filepath.Join [targetDir; unpackedOkay]));
  match st with
  | Ok _ => log_Printf "%s: already downloaded in %v" [Str version; Str targetDir]
  | Err _ =>
      os_MkdirAll targetDir 493 ;;
      let goURL := versionArchiveURL version in
      res ← http_Head goURL;
      if (StatusCode res =? 404)%Z
      then fail (Errorf "no binary release of %v for %v/%v at %v"
                   [Str version; Str getOS; Str GOARCH; Str goURL])
      else if negb (StatusCode res =? 200)%Z
      then fail (Errorf "server returned %v checking size of %v"
                   [Str (StatusText (StatusCode res)); Str goURL])
      else
        let base := filepath.Base goURL in
        let archiveFile := filepath.Join [targetDir; base] in
        install_fetch goURL archiveFile res ;;
        install_verify_unpack targetDir version goURL archiveFile
  end.

(** ** Notions the properties are stated with *)

(** The key [dedupEnv] compares an entry by: none unless the first "=" comes
    after the first character. *)
Definition env_key `{Host} (caseInsensitive : bool) (kv : string) : option string :=
  let eq := strings.Index kv "=" in
  if (eq <? 1)%Z then None
  else
    let k := substring 0 (Z.to_nat eq) kv in
    Some (if caseInsensitive then ToLower k else k).

(** The entries of [env] with key [k], in order. *)
Definition occurrences `{Host} (ci : bool) (k : string) (env : list string) : list string :=
  filter (fun kv => env_key ci kv = Some k) env.

(** The entry that stands for key [k], first met in [kv]: its last occurrence
    in the rest of the list, or [kv] itself when there is none. *)
Definition winner `{Host} (ci : bool) (k kv : string) (rest : list string) : string :=
  default kv (last (occurrences ci k rest)).

(** De-duplication as the documentation words it: the entries are visited in
    order; an entry without key stays; the first entry of a key is replaced,
    where it stands, by the last entry of that key; a later entry of a key
    already seen is dropped. *)
Fixpoint dedup_spec `{Host} (ci : bool) (seen : gset string) (env : list string)
  : list string :=
  match env with
  | [] => []
  | kv :: rest =>
      match env_key ci kv with
      | None => kv :: dedup_spec ci seen rest
      | Some k =>
          if decide (k ∈ seen) then dedup_spec ci seen rest
          else winner ci k kv rest :: dedup_spec ci ({[k]} ∪ seen) rest
      end
  end.

(** The keys of a list in the order of their first occurrence. *)
Fixpoint first_keys (seen : gset string) (ks : list (option string))
  : list (option string) :=
  match ks with
  | [] => []
  | None :: rest => None :: first_keys seen rest
  | Some k :: rest =>
      if decide (k ∈ seen) then first_keys seen rest
      else Some k :: first_keys ({[k]} ∪ seen) rest
  end.

(** What the rest of the loop of [dedupEnv] overwrites in the part of [out]
    that is already there. *)
Definition overwrite `{Host} (ci : bool) (saw : gmap string nat) (out : list string)
    (kv : string) : list string :=
  match env_key ci kv with
  | Some k => match saw !! k with Some i => <[i := kv]> out | None => out end
  | None => out
  end.

(** Every index held in [saw] is below [n]. *)
Definition bounded (saw : gmap string nat) (n : nat) : Prop :=
  ∀ k i, saw !! k = Some i → i < n.

(** The key of [PATH] in the environment of the child. *)
Definition PATH_key `{Host} : string :=
  if caseInsensitiveEnv then ToLower "PATH" else "PATH".

(** The path a call of package [os] changes. *)
Definition touched (ev : event) : option string :=
  match ev with
  | OsMkdir p | OsOpenFile p | OsWrite p | OsWriteFile p | OsChtimes p | OsRemove p => Some p
  | _ => None
  end.

(** From [w] to [w'] every path is as it was that none of [evs] names. *)
Definition frame (evs : list event) (w w' : World) : Prop :=
  ∀ q, (∀ ev, ev ∈ evs → touched ev ≠ Some q) → fs w' !! q = fs w !! q.

(** An action whose events all satisfy [P], and account for every change
    it makes to the file system. *)
Definition emits {A} (P : event -> Prop) (m : M A) : Prop :=
  ∀ w r w', m w = (r, w') →
    ∃ evs, trace w' = trace w ++ evs ∧ Forall P evs ∧ frame evs w w'.

(** An event other than a completed [os.WriteFile]. *)
Definition not_WriteFile (ev : event) : Prop :=
  match ev with
  | OsWriteFile _ => False
  | _ => True
  end.

(** An action that leaves the world as it is. *)
Definition silent {A} (m : M A) : Prop := ∀ w r w', m w = (r, w') → w' = w.

(** [w'] comes after [w] with no [os.WriteFile] completed in between, and
    with every change of the file system accounted for. *)
Definition ext (w w' : World) : Prop :=
  ∃ evs, trace w' = trace w ++ evs ∧ Forall not_WriteFile evs ∧ frame evs w w'.

(** The file can be opened and read, and holds [data]. *)
Definition readable (w : World) (file data : string) : Prop :=
  os_Open file w = (Ok tt, w) ∧ file_ReadAll file w = (Ok data, w).

(** The error of a digest that does not match. *)
Definition corrupt (file wantHex : string) : error :=
  Errorf "%s corrupt? does not have expected SHA-256 of %v" [Str file; Str wantHex].

(** The path is a regular file the system lets the program use. *)
Definition is_file (w : World) (p : string) : Prop :=
  is_denied w p = false ∧ ∃ data perm mtime, fs w !! p = Some (File data perm mtime).

(** The only line [install] logs when the marker is there. *)
Definition already (targetDir version : string) : event :=
  Log "%s: already downloaded in %v" [Str version; Str targetDir].

(** Every step of [install] before the marker returned [nil]: the directory
    was made, the probe answered 200, the archive is on disk with the length
    announced, its digest was fetched and matches, and it was unpacked. *)
Definition steps_succeeded `{Host} (targetDir version : string) (w : World) : Prop :=
  let goURL := versionArchiveURL version in
  let archiveFile := filepath.Join [targetDir; filepath.Base goURL] in
  ∃ w1 res w2 w3 fi wantSHA w4 w5,
    os_MkdirAll targetDir 493 w = (Ok tt, w1) ∧
    http_Head goURL w1 = (Ok res, w2) ∧ StatusCode res = 200%Z ∧
    install_fetch goURL archiveFile res w2 = (Ok tt, w3) ∧
    os_Stat archiveFile w3 = (Ok fi, w3) ∧ fi_Size fi = ContentLength res ∧
    slurpURLToString (goURL +:+ ".sha256") w3 = (Ok wantSHA, w4) ∧
    verifySHA256 archiveFile (strings.TrimSpace wantSHA) w4 = (Ok tt, w4) ∧
    unpackArchive targetDir archiveFile
      (add_event w4 (Log "Unpacking %v ..." [Str archiveFile])) = (Ok tt, w5).

(** The error of a download whose length is not the one the probe announced. *)
Definition size_mismatch (archiveFile : string) (size want : Z) : error :=
  Errorf "downloaded file %s size %v doesn't match server size %v"
    [Str archiveFile; Int size; Int want].

(** What [install], started in [w], does from the world [w2] on once the
    archive has to be fetched: a failed download is returned wrapped; after a
    download the file is looked at again and its length compared. *)
Definition fetched `{Host} (targetDir version : string) (res : Response) (w w2 : World)
  : Prop :=
  let goURL := versionArchiveURL version in
  let archiveFile := filepath.Join [targetDir; filepath.Base goURL] in
  match copyFromURL archiveFile goURL w2 with
  | (Err e, w3) =>
      install targetDir version w
      = (Err (ErrorfWrap "error downloading %v: %v" [Str goURL] e), w3)
  | (Ok _, w3) =>
      match os_Stat archiveFile w3 with
      | (Ok fi, _) =>
          if (fi_Size fi =? ContentLength res)%Z
          then install targetDir version w
               = install_verify_unpack targetDir version goURL archiveFile w3
          else install targetDir version w
               = (Err (size_mismatch archiveFile (fi_Size fi) (ContentLength res)), w3)
               ∧ ∀ evs, trace w3 = trace w ++ evs → ∀ p, OsWriteFile p ∉ evs
      | (Err e, _) => install targetDir version w = (Err e, w3)
      end
  end.

(** ** Concrete hosts and worlds *)

(** A host whose case folding is that of ASCII and whose archive readers
    yield the given records whatever the bytes. *)
Definition ascii_host (goos goarch : string) (tr : tar_stream) (zr : list zip_file) : Host :=
  {| GOOS := goos; GOARCH := goarch; ToLower := strings.ToLowerASCII;
     StatusText := fun code => if (code =? 500)%Z then "Internal Server Error" else "";
     gzip_tar_NewReader := fun _ => inr tr;
     zip_OpenReader := fun _ => inr zr;
     dir_Size := 4096 |}.

Definition tar_dir (name : string) : tar_entry :=
  {| tar_Name := name; tar_Size := 0; tar_Type := Directory; tar_Perm := 493;
     tar_ModTime := None; tar_Data := ""; tar_DataErr := None |}.

Definition tar_file (name data : string) : tar_entry :=
  {| tar_Name := name; tar_Size := Z.of_nat (String.length data); tar_Type := Regular;
     tar_Perm := 493; tar_ModTime := Some 1700000000%Z; tar_Data := data;
     tar_DataErr := None |}.

(** A release as the server wraps it: everything under [go/]. *)
Definition go_tar : tar_stream :=
  {| tar_entries := [tar_dir "go/"; tar_file "go/bin/go" "ELF";
                     tar_file "go/lib/foo.txt" "foo"; tar_dir "go/pkg/"];
     tar_end := None |}.

(** A zip archive with one member that names a file above the target. *)
Definition evil_zip : list zip_file :=
  [{| zip_Name := "../evil.txt"; zip_IsDir := false; zip_Mode := 420;
      zip_Open := inr ("pwned", None) |}].

(** The same member in a tar stream. *)
Definition evil_tar : tar_stream :=
  {| tar_entries := [tar_file "../evil.txt" "pwned"]; tar_end := None |}.

(** A release that holds a member named like the marker, then a symbolic
    link, which the unpacker refuses. *)
Definition marker_tar : tar_stream :=
  {| tar_entries := [tar_dir "go/"; tar_file "go/.unpacked-success" "";
                     {| tar_Name := "go/link"; tar_Size := 0;
                        tar_Type := Irregular "Lrwxrwxrwx"; tar_Perm := 511;
                        tar_ModTime := None; tar_Data := ""; tar_DataErr := None |}];
     tar_end := None |}.

Definition linux_amd64 : Host := ascii_host "linux" "amd64" go_tar evil_zip.
Definition linux_marker : Host := ascii_host "linux" "amd64" marker_tar evil_zip.
Definition linux_evil : Host := ascii_host "linux" "amd64" evil_tar evil_zip.
Definition windows_amd64 : Host := ascii_host "windows" "amd64" go_tar evil_zip.

Definition sdk_dir : string := "/home/u/sdk/go1.20.8".
Definition release_url : string := "https://dl.google.com/go/go1.20.8.linux-amd64.tar.gz".
Definition release_file : string := "/home/u/sdk/go1.20.8/go1.20.8.linux-amd64.tar.gz".
Definition release_body : string := "archive bytes".
Definition release_digest : string :=
  "cc9c340301ad4ba5e54aa24b442ff938d1ed84f7f32c4c5a73773c58af37bd1b" +:+ String (ascii_of_nat 10) "".

Definition ok_response (body : string) : Response :=
  {| StatusCode := 200; Status := "200 OK";
     ContentLength := Z.of_nat (String.length body); Body := body; BodyErr := None |}.

Definition not_found : Response :=
  {| StatusCode := 404; Status := "404 Not Found"; ContentLength := 0;
     Body := ""; BodyErr := None |}.

(** The origin server for one release and its digest. *)
Definition release_server (url : string) : error + Response :=
  if String.eqb url release_url then inr (ok_response release_body)
  else if String.eqb url (release_url +:+ ".sha256") then inr (ok_response release_digest)
  else inr not_found.

(** A server that announces more bytes than it sends. *)
Definition short_server (url : string) : error + Response :=
  inr {| StatusCode := 200; Status := "200 OK"; ContentLength := 100;
         Body := release_body; BodyErr := None |}.

Definition no_net : string -> error + Response :=
  fun _ => inl (ErrorString "no route to host").

Definition home_tree : gmap string node :=
  <["/home/u" := Dir 493]> (<["/home" := Dir 493]> ∅).

Definition sdk_tree : gmap string node :=
  <[sdk_dir := Dir 493]> (<["/home/u/sdk" := Dir 493]> home_tree).

(** Nothing installed yet, the server reachable. *)
Definition fresh_home : World :=
  {| fs := home_tree; denied := ∅; max_file := None;
     net_Head := release_server; net_Get := release_server; trace := [] |}.

(** The directory is there, but the system refuses the archive's path. *)
Definition locked_home : World :=
  {| fs := sdk_tree; denied := {[release_file]}; max_file := None;
     net_Head := release_server; net_Get := release_server; trace := [] |}.

Definition short_home : World :=
  {| fs := sdk_tree; denied := ∅; max_file := None;
     net_Head := short_server; net_Get := short_server; trace := [] |}.

(** The probe announces the release, the download delivers five bytes
    without announcing a length. *)
Definition lying_home : World :=
  {| fs := sdk_tree; denied := ∅; max_file := None;
     net_Head := release_server;
     net_Get := fun _ => inr {| StatusCode := 200; Status := "200 OK";
                                ContentLength := -1; Body := "short"; BodyErr := None |};
     trace := [] |}.

Definition offline (files : gmap string node) : World :=
  {| fs := files; denied := ∅; max_file := None;
     net_Head := no_net; net_Get := no_net; trace := [] |}.

(** A downloaded zip archive waiting in the installation directory. *)
Definition zip_home : World :=
  offline (<["/home/u/sdk/go1.20.8/go1.20.8.windows-amd64.zip" := File "PK" 420 None]> sdk_tree).

Definition empty_archive : World := offline {["/sdk/go.tar.gz" := File "" 420 None]}.

(** The digest of the empty file, in capitals. *)
Definition upper_digest : string :=
  "E3B0C44298FC1C149AFBF4C8996FB92427AE41E4649B934CA495991B7852B855".

(** ** Package [version]: the entry point *)

(** What [Run] reads of the process: [os.Args], [os.Environ()], and what
    [user.Current()] returns (the error, or [u.HomeDir]). *)
Record Process := {
  proc_Args : list string;
  proc_Environ : list string;
  proc_UserHome : error + string;
}.

Definition homedir `{Host} (pr : Process) : result string :=
  if String.eqb getOS "plan9" then Err (Errorf "%q not yet supported" [Str GOOS])
  else if String.eqb getOS "windows" then
    let dir := os_Getenv (proc_Environ pr) "USERPROFILE" in
    if negb (String.eqb dir "") then Ok dir
    else Err (ErrorString "can't find user home directory; %USERPROFILE% is empty")
  else
    let dir := os_Getenv (proc_Environ pr) "HOME" in
    if negb (String.eqb dir "") then Ok dir
    else
      match proc_UserHome pr with
      | inr home =>
          if negb (String.eqb home "") then Ok home
          else Err (ErrorString "can't find user home directory; $HOME is empty")
      | inl _ => Err (ErrorString "can't find user home directory; $HOME is empty")
      end.

Definition goroot `{Host} (version : string) (pr : Process) : result string :=
  let dir := os_Getenv (proc_Environ pr) "GOPATH" in
  if negb (String.eqb dir "") then Ok (filepath.Join [dir; "sdk"; version])
  else
    match homedir pr with
    | Err err => Err (ErrorfWrap "failed to get home directory: %v" [] err)
    | Ok home => Ok (filepath.Join [home; "sdk"; version])
    end.

(** How [Run] ends: [log.Fatalf] with the line it prints (the process exits
    with status 1), [os.Exit(0)] after a download, or the child that was
    run with the status [runGo] passes on. *)
Inductive outcome :=
| Fatal (line : error)
| ExitOk
| Child (cmd : Cmd) (status : Z).

Definition exit_status (o : outcome) : Z :=
  match o with
  | Fatal _ => 1%Z
  | ExitOk => 0%Z
  | Child _ status => status
  end.

(** [len(os.Args) == 2 && os.Args[1] == "download"] *)
Definition is_download (args : list string) : bool :=
  (length args =? 2)%nat && String.eqb (nth 1 args "") "download".

(** [Run].  [run] is the behaviour of the child; what the child does to the
    world is its own and is not part of the world returned. *)
Definition Run `{Host} (version : string) (pr : Process) (run : Cmd -> RunResult)
  : World -> outcome * World := fun w =>
  match goroot version pr with
  | Err err => (Fatal (ErrorfWrap "%s: %v" [Str version] err), w)
  | Ok root =>
      if is_download (proc_Args pr) then
        match install root version w with
        | (Err err, w') =>
            (Fatal (ErrorfWrap "%s: download failed: %v" [Str version] err), w')
        | (Ok _, w') => (ExitOk, w')
        end
      else
        match os_Stat (filepath.Join [root; unpackedOkay]) w with
        | (Err _, w') =>
            (Fatal (Errorf "%s: not downloaded. Run '%s download' to install to %v"
                      [Str version; Str version; Str root]), w')
        | (Ok _, w') =>
            let '(cmd, status) := runGo root (proc_Args pr) (proc_Environ pr) run in
            (Child cmd status, w')
        end
  end.

(** ** The progress writer *)

(** [ndigits]: the loop divides by ten until nothing is left; [fuel] bounds
    the number of turns. *)
Fixpoint ndigits_loop (fuel : nat) (i : Z) (n : Z) : Z :=
  match fuel with
  | O => n
  | S fuel' => if (i =? 0)%Z then n else ndigits_loop fuel' (Z.quot i 10) (n + 1)%Z
  end.

(** More turns than a number has binary digits are never needed. *)
Definition ndigits (i : Z) : Z :=
  ndigits_loop (S (Z.to_nat (Z.log2 (Z.abs i)))) i 0.

(** The state of a [progressWriter]: the bytes written so far, the total
    announced, and the second of the clock at which a line was last printed
    (that of the zero time at first). *)
Record progressWriter := {
  pw_n : Z;
  pw_total : Z;
  pw_last : Z;
  pw_formatted : bool;
}.

(** [time.Time{}.Unix()] *)
Definition zero_time_Unix : Z := (-62135596800)%Z.

(** A line [update] prints, with the arguments of its format: the sizes
    through [fmtSize] when the writer is [formatted], and otherwise the
    counts with the width [ndigits] gives for the total; then what ends the
    line.  The percentage is a floating-point quotient and is not rendered. *)
Inductive progress_line :=
| LineSizes (n total : Z) (ending : string)
| LineBytes (width n total : Z) (ending : string).

Definition update (p : progressWriter) : progress_line :=
  let end_ := if (pw_n p =? pw_total p)%Z then "" else " ..." in
  if pw_formatted p then LineSizes (pw_n p) (pw_total p) end_
  else LineBytes (ndigits (pw_total p)) (pw_n p) (pw_total p) end_.

(** [progressWriter.Write]: [n] is the count the writer underneath returns
    for the buffer, [now] is [time.Now().Unix()].  The state after the call
    and the lines printed by it. *)
Definition pw_Write (p : progressWriter) (n : Z) (now : Z)
  : progressWriter * list progress_line :=
  let p1 := {| pw_n := pw_n p + n; pw_total := pw_total p; pw_last := pw_last p;
               pw_formatted := pw_formatted p |} in
  if negb (now =? pw_last p1)%Z
  then ({| pw_n := pw_n p1; pw_total := pw_total p1; pw_last := now;
           pw_formatted := pw_formatted p1 |}, [update p1])
  else (p1, []).

(** A sequence of calls of [Write], each with its count and its second. *)
Fixpoint pw_Writes (p : progressWriter) (calls : list (Z * Z))
  : progressWriter * list progress_line :=
  match calls with
  | [] => (p, [])
  | (n, now) :: rest =>
      let '(p1, lines1) := pw_Write p n now in
      let '(p2, lines2) := pw_Writes p1 rest in
      (p2, lines1 ++ lines2)
  end.

(** ** More notions for the properties *)

(** No key of [env] is in [seen] or occurs twice. *)
Fixpoint fresh_keys `{Host} (ci : bool) (seen : gset string) (env : list string) : Prop :=
  match env with
  | [] => True
  | kv :: rest =>
      match env_key ci kv with
      | None => fresh_keys ci seen rest
      | Some k => (k ∉ seen) ∧ fresh_keys ci ({[k]} ∪ seen) rest
      end
  end.

(** The key of [GOROOT] in the environment of the child. *)
Definition GOROOT_key `{Host} : string :=
  if caseInsensitiveEnv then ToLower "GOROOT" else "GOROOT".

(** The path an archive member is unpacked to. *)
Definition tar_target (targetDir : string) (f : tar_entry) : string :=
  filepath.Join [targetDir; filepath.FromSlash (strings.TrimPrefix (tar_Name f) "go/")].

Definition zip_target (targetDir : string) (f : zip_file) : string :=
  filepath.Join [targetDir; strings.TrimPrefix (zip_Name f) "go/"].

(** The directories [os.MkdirAll] of [p] may make. *)
Definition made_by (p : string) : list string := lineage (S (String.length p)) p.

(** The requests among the events of a run, in the order they were sent. *)
Definition is_request (ev : event) : bool :=
  match ev with
  | HttpHead _ | HttpGet _ => true
  | _ => false
  end.

Definition requests (evs : list event) : list event := List.filter is_request evs.

(** From [w] to [w'] the requests [rs] were sent, in this order. *)
Definition sends (rs : list event) (w w' : World) : Prop :=
  ∃ evs, trace w' = trace w ++ evs ∧ requests evs = rs.

(** The elements [filepath.Clean] keeps of a path, outermost first. *)
Definition cleaned (p : string) : list string :=
  rev (fold_left (filepath.clean_step (strings.HasPrefix p "/")) (filepath.split p) []).

(** [p] is [dir] or lies below it: both are absolute, and the elements of
    [dir] are the first elements of [p].  Elements are cut at "/": this
    reads paths as a host other than windows does. *)
Definition within (dir p : string) : Prop :=
  strings.HasPrefix dir "/" = true ∧ strings.HasPrefix p "/" = true ∧
  cleaned dir `prefix_of` cleaned p.

(** An element [filepath.Clean] keeps as it is: not empty, not ".", not
    "..", and without separator. *)
Definition plain (seg : string) : Prop :=
  seg ≠ "" ∧ seg ≠ "." ∧ seg ≠ ".." ∧ filepath.split seg = [seg].

(** An absolute path as [filepath.Clean] writes it. *)
Definition render (els : list string) : string := "/" +:+ strings.Join els "/".

(** An event stays in [dir]: the path it changes, if any, lies in [dir], or
    it is a directory above [dir] being made. *)
Definition confined (dir : string) (ev : event) : Prop :=
  ∀ p, touched ev = Some p → within dir p ∨ (ev = OsMkdir p ∧ within p dir).

(** What no call of the program changes: the paths the system refuses, the
    limit on the size of a file, and what the servers answer. *)
Definition same_host (w w' : World) : Prop :=
  denied w' = denied w ∧ max_file w' = max_file w ∧
  net_Head w' = net_Head w ∧ net_Get w' = net_Get w.

Definition steady {A} (m : M A) : Prop := ∀ w r w', m w = (r, w') → same_host w w'.

(** ** More hosts and worlds *)

(** A process of user [u], whose home directory is [/home/u]. *)
Definition user_u (args : list string) : Process :=
  {| proc_Args := args; proc_Environ := ["PATH=/usr/bin"; "HOME=/home/u"];
     proc_UserHome := inr "/home/u" |}.

(** The release downloaded, nothing unpacked yet. *)
Definition archive_home : World :=
  offline (<[release_file := File release_body 438 None]> sdk_tree).

(** A zip archive as the server wraps a release for windows. *)
Definition go_zip : list zip_file :=
  [{| zip_Name := "go/"; zip_IsDir := true; zip_Mode := 493; zip_Open := inr ("", None) |};
   {| zip_Name := "go/bin/go.exe"; zip_IsDir := false; zip_Mode := 493;
      zip_Open := inr ("MZ", None) |}].

(** A POSIX host whose zip reader yields that archive. *)
Definition linux_zip : Host := ascii_host "linux" "amd64" go_tar go_zip.

Definition windows_zip : Host := ascii_host "windows" "amd64" go_tar go_zip.

(** The marker is on disk, but the system refuses every call on its path. *)
Definition unreadable_marker : World :=
  {| fs := <[filepath.Join [sdk_dir; unpackedOkay] := File "" 420 None]> sdk_tree;
     denied := {[filepath.Join [sdk_dir; unpackedOkay]]}; max_file := None;
     net_Head := release_server; net_Get := release_server; trace := [] |}.

(** * Properties *)

(** ** The library models agree with the libraries on known values *)

Example Clean_examples :
  map filepath.Clean ["a/b/../c"; "/../a"; "../../a/.."; ""; "a//b/./c/"; "a/.."]
  = ["a/c"; "/a"; "../.."; "."; "a/b/c"; "."].
Proof. reflexivity. Qed.

Example Join_examples :
  filepath.Join [sdk_dir; "bin/go"] = "/home/u/sdk/go1.20.8/bin/go" ∧
  filepath.Join [sdk_dir; ""] = sdk_dir ∧
  filepath.Join [sdk_dir; "../evil.txt"] = "/home/u/sdk/evil.txt" ∧
  filepath.Base release_url = "go1.20.8.linux-amd64.tar.gz".
Proof. repeat split. Qed.

Example sha256_constants :
  length sha256.K = 64 ∧
  firstn 4 sha256.K = [0x428a2f98; 0x71374491; 0xb5c0fbcf; 0xe9b5dba5]%N ∧
  last sha256.K = Some 0xc67178f2%N ∧
  firstn 2 sha256.init = [0x6a09e667; 0xbb67ae85]%N ∧
  last sha256.init = Some 0x5be0cd19%N.
Proof. vm_compute. repeat split. Qed.

Example Sum256_empty :
  sha256.hex (sha256.Sum256 "")
  = "e3b0c44298fc1c149afbf4c8996fb92427ae41e4649b934ca495991b7852b855".
Proof. vm_compute. reflexivity. Qed.

Example Sum256_abc :
  sha256.hex (sha256.Sum256 "abc")
  = "ba7816bf8f01cfea414140de5dae2223b00361a396177a9cb410ff61f20015ad".
Proof. vm_compute. reflexivity. Qed.

Example Sum256_two_blocks :
  sha256.hex (sha256.Sum256 "abcdbcdecdefdefgefghfghighijhijkijkljklmklmnlmnomnopnopq")
  = "248d6a61d20638b8e5c026930c3e6039a33ce45964ff2167f6ecedd419db06c1".
Proof. vm_compute. reflexivity. Qed.

Example versionArchiveURL_linux : @versionArchiveURL linux_amd64 "go1.20.8" = release_url.
Proof. reflexivity. Qed.

(** ** [dedupEnv] *)

Example dedupEnv_FOO :
  @dedupEnv linux_amd64 false ["FOO=1"; "BAR=x"; "FOO=2"] = ["FOO=2"; "BAR=x"].
Proof. vm_compute. reflexivity. Qed.

Example dedupEnv_fold :
  @dedupEnv windows_amd64 true ["Foo=1"; "=x"; "novalue"; "FOO=2"; "=x"]
  = ["FOO=2"; "=x"; "novalue"; "=x"].
Proof. vm_compute. reflexivity. Qed.

Example dedupEnv_exact_case :
  @dedupEnv linux_amd64 false ["Foo=1"; "FOO=2"] = ["Foo=1"; "FOO=2"].
Proof. vm_compute. reflexivity. Qed.

Section Dedup.
Context `{Host}.
Variable ci : bool.

Lemma dedup_step_key (out : list string) (saw : gmap string nat) (kv : string) :
  dedup_step ci (out, saw) kv =
  match env_key ci kv with
  | None => (out ++ [kv], saw)
  | Some k =>
      match saw !! k with
      | Some dupIdx => (<[dupIdx := kv]> out, saw)
      | None => (out ++ [kv], <[k := length out]> saw)
      end
  end.
Proof.
  unfold dedup_step, env_key. cbv zeta.
  destruct (strings.Index kv "=" <? 1)%Z; reflexivity.
Qed.

Lemma overwrite_length saw out kv : length (overwrite ci saw out kv) = length out.
Proof.
  unfold overwrite. destruct (env_key ci kv) as [k|]; [|done].
  destruct (saw !! k); [|done]. by rewrite length_insert.
Qed.

Lemma fold_overwrite_app saw env : ∀ out ys,
  bounded saw (length out) →
  fold_left (overwrite ci saw) env (out ++ ys) = fold_left (overwrite ci saw) env out ++ ys.
Proof.
  induction env as [|kv env IH]; intros out ys Hb; simpl; [done|].
  assert (overwrite ci saw (out ++ ys) kv = overwrite ci saw out kv ++ ys) as ->.
  { unfold overwrite. destruct (env_key ci kv) as [k|]; [|done].
    destruct (saw !! k) as [i|] eqn:Hk; [|done].
    apply Hb in Hk. by rewrite insert_app_l. }
  apply IH. by rewrite overwrite_length.
Qed.

Lemma fold_overwrite_fresh saw k env : ∀ out x,
  bounded saw (length out) → saw !! k = None →
  fold_left (overwrite ci (<[k := length out]> saw)) env (out ++ [x]) =
  fold_left (overwrite ci saw) env out ++ [winner ci k x env].
Proof.
  induction env as [|kv env IH]; intros out x Hb Hk; simpl; [done|].
  unfold winner, occurrences. rewrite filter_cons.
  unfold overwrite at 2 4. destruct (env_key ci kv) as [k'|] eqn:Hkv.
  - destruct (decide (k' = k)) as [->|Hne].
    + rewrite lookup_insert_eq, Hk. rewrite decide_True by done.
      replace (<[length out := kv]> (out ++ [x])) with (out ++ [kv]).
      2:{ rewrite insert_app_r_alt by lia. by rewrite Nat.sub_diag. }
      rewrite IH by done. f_equal. f_equal. unfold winner, occurrences.
      rewrite last_cons. by destruct (last _).
    + rewrite lookup_insert_ne by done. rewrite decide_False by congruence.
      destruct (saw !! k') as [i|] eqn:Hk'.
      * pose proof (Hb _ _ Hk') as Hi. rewrite insert_app_l by done.
        replace (length out) with (length (<[i := kv]> out)) by apply length_insert.
        rewrite IH; [done| |done]. by rewrite length_insert.
      * by rewrite IH.
  - rewrite decide_False by congruence. by rewrite IH.
Qed.

(** The loop from any state: the part of [out] already there is overwritten
    in place, and what is appended is the specification run with the keys of
    [saw] as seen. *)
Lemma dedup_fold env : ∀ out saw,
  bounded saw (length out) →
  fst (fold_left (dedup_step ci) env (out, saw)) =
  fold_left (overwrite ci saw) env out ++ dedup_spec ci (dom saw) env.
Proof.
  induction env as [|kv env IH]; intros out saw Hb; cbn [fold_left dedup_spec].
  { by rewrite app_nil_r. }
  rewrite dedup_step_key. unfold overwrite at 2.
  destruct (env_key ci kv) as [k|] eqn:Hkv.
  - destruct (saw !! k) as [i|] eqn:Hk.
    + rewrite decide_True by (apply elem_of_dom; eauto).
      apply IH. by rewrite length_insert.
    + rewrite decide_False by (by apply not_elem_of_dom).
      rewrite IH.
      2:{ intros k' i'. rewrite lookup_insert. case_decide.
          - intros [= <-]. rewrite length_app. simpl. lia.
          - intros Hi. apply Hb in Hi. rewrite length_app. simpl. lia. }
      rewrite fold_overwrite_fresh by done. rewrite dom_insert_L.
      by rewrite <- app_assoc.
  - rewrite IH.
    2:{ intros k' i' Hi. apply Hb in Hi. rewrite length_app. simpl. lia. }
    rewrite fold_overwrite_app by done. by rewrite <- app_assoc.
Qed.

(** The index [dedupEnv] assigns through is always in range. *)
Lemma dedup_saw_bound env : ∀ out saw,
  bounded saw (length out) →
  bounded (snd (fold_left (dedup_step ci) env (out, saw)))
          (length (fst (fold_left (dedup_step ci) env (out, saw)))).
Proof.
  induction env as [|kv env IH]; intros out saw Hb; cbn [fold_left]; [done|].
  rewrite dedup_step_key. destruct (env_key ci kv) as [k|].
  - destruct (saw !! k) as [i|] eqn:Hk.
    + apply IH. by rewrite length_insert.
    + apply IH. intros k' i'. rewrite lookup_insert. case_decide.
      * intros [= <-]. rewrite length_app. simpl. lia.
      * intros Hi. apply Hb in Hi. rewrite length_app. simpl. lia.
  - apply IH. intros k' i' Hi. apply Hb in Hi. rewrite length_app. simpl. lia.
Qed.

Lemma dedupEnv_spec env : dedupEnv ci env = dedup_spec ci ∅ env.
Proof.
  unfold dedupEnv. rewrite dedup_fold.
  - rewrite dom_empty_L.
    assert (fold_left (overwrite ci ∅) env [] = []) as ->; [|done].
    induction env as [|a env IH]; simpl; [done|].
    unfold overwrite at 2. destruct (env_key ci a); [|done]. by rewrite lookup_empty.
  - intros k i. by rewrite lookup_empty.
Qed.

Lemma winner_key k kv rest :
  env_key ci kv = Some k → env_key ci (winner ci k kv rest) = Some k.
Proof.
  intros Hkv. unfold winner, occurrences.
  destruct (last _) as [e|] eqn:He; simpl; [|done].
  apply last_Some_elem_of in He. by apply list_elem_of_filter in He as [? _].
Qed.

Lemma winner_alone k kv rest :
  occurrences ci k rest = [] → winner ci k kv rest = kv.
Proof. unfold winner. by intros ->. Qed.

Lemma occurrences_cons_eq k kv env :
  env_key ci kv = Some k → occurrences ci k (kv :: env) = kv :: occurrences ci k env.
Proof. intros Hk. unfold occurrences. rewrite filter_cons. by rewrite decide_True. Qed.

Lemma occurrences_cons_ne k kv env :
  env_key ci kv ≠ Some k → occurrences ci k (kv :: env) = occurrences ci k env.
Proof. intros Hk. unfold occurrences. rewrite filter_cons. by rewrite decide_False. Qed.

Lemma occurrences_app k (l1 l2 : list string) :
  occurrences ci k (l1 ++ l2) = occurrences ci k l1 ++ occurrences ci k l2.
Proof. unfold occurrences. apply filter_app. Qed.

(** In the specification a key not yet seen is held by one entry, the last
    one of the input; a key already seen by none. *)
Lemma dedup_spec_occurrences k env : ∀ seen,
  occurrences ci k (dedup_spec ci seen env) =
  if decide (k ∈ seen) then [] else option_list (last (occurrences ci k env)).
Proof.
  induction env as [|kv env IH]; intros seen; cbn [dedup_spec].
  { by destruct (decide _). }
  destruct (env_key ci kv) as [k'|] eqn:Hkv.
  - destruct (decide (k' ∈ seen)) as [Hin|Hnin].
    + rewrite IH. destruct (decide (k ∈ seen)) as [|Hk]; [done|].
      rewrite occurrences_cons_ne; [done|].
      rewrite Hkv. intros [= ->]. done.
    + destruct (decide (k' = k)) as [->|Hne].
      * rewrite occurrences_cons_eq by (by apply winner_key).
        rewrite (occurrences_cons_eq k kv) by done.
        rewrite IH. rewrite decide_True by (apply elem_of_union_l, elem_of_singleton; done).
        rewrite decide_False by done.
        unfold winner. rewrite last_cons. by destruct (last _).
      * rewrite occurrences_cons_ne by (rewrite winner_key by done; congruence).
        rewrite (occurrences_cons_ne k kv) by congruence.
        rewrite IH. destruct (decide (k ∈ seen)) as [Hk|Hk].
        -- rewrite decide_True by (by apply elem_of_union_r). done.
        -- rewrite decide_False; [done|].
           rewrite elem_of_union, elem_of_singleton. by intros [|].
  - rewrite occurrences_cons_ne by congruence.
    rewrite (occurrences_cons_ne k kv) by congruence. apply IH.
Qed.

(** The entries without key are the same before and after. *)
Lemma dedup_spec_keyless env : ∀ seen,
  filter (fun kv => env_key ci kv = None) (dedup_spec ci seen env) =
  filter (fun kv => env_key ci kv = None) env.
Proof.
  induction env as [|kv env IH]; intros seen; cbn [dedup_spec]; [done|].
  destruct (env_key ci kv) as [k'|] eqn:Hkv.
  - rewrite (filter_cons _ kv env).
    rewrite (decide_False (P := env_key ci kv = None)) by congruence.
    destruct (decide (k' ∈ seen)); [apply IH|].
    rewrite filter_cons. rewrite decide_False; [apply IH|].
    by rewrite (winner_key k' kv env Hkv).
  - rewrite !filter_cons. rewrite !decide_True by done. by rewrite IH.
Qed.

Lemma dedup_spec_keys env : ∀ seen,
  env_key ci <$> dedup_spec ci seen env = first_keys seen (env_key ci <$> env).
Proof.
  induction env as [|kv env IH]; intros seen; cbn [dedup_spec]; [done|].
  rewrite fmap_cons. cbn [first_keys].
  destruct (env_key ci kv) as [k'|] eqn:Hkv.
  - destruct (decide (k' ∈ seen)); [apply IH|]. rewrite fmap_cons, IH.
    by rewrite (winner_key k' kv env Hkv).
  - by rewrite fmap_cons, Hkv, IH.
Qed.

(** An entry with no "=" after its first character has no key. *)
Lemma env_key_lacking kv :
  (∀ i : nat, (1 ≤ i)%nat → String.get i kv ≠ Some "="%char) → env_key ci kv = None.
Proof.
  intros Hno. unfold env_key, strings.Index. cbv zeta.
  destruct (String.index 0 "=" kv) as [[|m]|] eqn:Hidx; [done| |done].
  apply index_correct1 in Hidx. exfalso. apply (Hno (S m)); [lia|].
  replace (S m) with (0 + S m) by lia.
  rewrite <- (substring_correct1 kv (S m) 1 0) by lia.
  change (String.length "=") with 1 in Hidx. by rewrite Hidx.
Qed.

Lemma env_key_PATH (v : string) :
  env_key ci ("PATH=" +:+ v) = Some (if ci then ToLower "PATH" else "PATH").
Proof. destruct v; reflexivity. Qed.

End Dedup.


(** C8.  [dedupEnv] keeps the order of the input: its output is the input
    with every first entry of a key replaced where it stands by the last
    entry of that key and the later entries of the key removed, so the keys
    come in the order of their first occurrence; an entry whose key does
    not occur again is unchanged. *)
Theorem dedupEnv_order `{Host} (caseInsensitive : bool) (env : list string) :
  dedupEnv caseInsensitive env = dedup_spec caseInsensitive ∅ env ∧
  env_key caseInsensitive <$> dedupEnv caseInsensitive env =
    first_keys ∅ (env_key caseInsensitive <$> env) ∧
  (∀ k kv rest, occurrences caseInsensitive k rest = [] →
                winner caseInsensitive k kv rest = kv).
Proof.
  rewrite dedupEnv_spec. split; [done|]. split; [apply dedup_spec_keys|].
  intros k kv rest. apply winner_alone.
Qed.


Lemma dedupEnv_order_witness : @winner linux_amd64 false "BAR" "BAR=x" ["FOO=2"] = "BAR=x".
Proof.
  apply (proj2 (proj2 (@dedupEnv_order linux_amd64 false ["FOO=1"; "BAR=x"; "FOO=2"]))).
  vm_compute. reflexivity.
Defined.

(** ** [runGo] *)

(** C10.  The environment [runGo] gives the child has exactly one entry
    for [PATH]: the [bin] directory of the installation alone when the
    inherited [PATH] is empty or unset, and otherwise that directory, the
    list separator and the inherited value. *)
Theorem runGo_PATH_entry `{Host} (root : string) (osArgs environ : list string)
    (run : Cmd -> RunResult) :
  let bin := filepath.Join [root; "bin"] in
  let p := os_Getenv environ "PATH" in
  occurrences caseInsensitiveEnv PATH_key (cmd_Env (fst (runGo root osArgs environ run))) =
  [ "PATH=" +:+ (if decide (p = "") then bin else bin +:+ ListSeparator +:+ p) ].
Proof.
  intros bin p. unfold runGo. fold bin. fold p.
  set (newPath := if negb (String.eqb p "") then _ else _).
  assert (newPath = if decide (p = "") then bin else bin +:+ ListSeparator +:+ p) as <-.
  { unfold newPath. destruct (decide (p = "")) as [->|Hp]; [done|].
    apply String.eqb_neq in Hp. by rewrite Hp. }
  set (env := environ ++ _).
  assert (occurrences caseInsensitiveEnv PATH_key (dedupEnv caseInsensitiveEnv env)
          = ["PATH=" +:+ newPath]) as Hocc.
  { rewrite dedupEnv_spec, dedup_spec_occurrences.
    rewrite decide_False by apply not_elem_of_empty.
    unfold env.
    change [?g; ?e] with ([g] ++ [e]).
    rewrite app_assoc, occurrences_app.
    rewrite (occurrences_cons_eq _ _ ("PATH=" +:+ newPath) []) by apply env_key_PATH.
    change (occurrences _ _ []) with (@nil string).
    by rewrite last_snoc. }
  destruct (run _); exact Hocc.
Qed.

Example runGo_PATH_unset :
  cmd_Env (fst (@runGo linux_amd64 sdk_dir ["go1.20.8"; "build"] ["HOME=/home/u"]
                  (fun _ => RunOk)))
  = ["HOME=/home/u"; "GOROOT=/home/u/sdk/go1.20.8"; "PATH=/home/u/sdk/go1.20.8/bin"].
Proof. vm_compute. reflexivity. Qed.

Example runGo_PATH_inherited :
  @runGo linux_amd64 sdk_dir ["go1.20.8"; "build"; "./..."] ["PATH=/usr/bin"; "HOME=/home/u"]
    (fun _ => RunExitError (Exited 2))
  = ({| cmd_Path := "/home/u/sdk/go1.20.8/bin/go";
        cmd_Args := ["/home/u/sdk/go1.20.8/bin/go"; "build"; "./..."];
        cmd_Env := ["PATH=/home/u/sdk/go1.20.8/bin:/usr/bin"; "HOME=/home/u";
                    "GOROOT=/home/u/sdk/go1.20.8"] |}, 2%Z).
Proof. vm_compute. reflexivity. Qed.

(** C7.  The status [runGo] exits with: the exit code of the child when it
    ended with one; a status that is not zero when the child was ended by a
    signal ([-1], which [ExitCode] gives then) or could not be run ([1]);
    zero when the child ran and succeeded. *)
Theorem runGo_exit_status `{Host} (root : string) (osArgs environ : list string)
    (run : Cmd -> RunResult) :
  let '(cmd, status) := runGo root osArgs environ run in
  match run cmd with
  | RunExitError (Exited code) => status = code
  | RunExitError (Signaled _) => status = (-1)%Z ∧ status ≠ 0%Z
  | RunError _ => status = 1%Z ∧ status ≠ 0%Z
  | RunOk => status = 0%Z
  end.
Proof.
  unfold runGo. set (cmd := Build_Cmd _ _ _).
  destruct (run cmd) as [|[code|sig]|err] eqn:Hrun; rewrite Hrun; simpl; done.
Qed.

(** ** The monad and what an action may emit *)

Lemma frame_app evs1 evs2 w w1 w' :
  frame evs1 w w1 → frame evs2 w1 w' → frame (evs1 ++ evs2) w w'.
Proof.
  intros R1 R2 q Hq. rewrite R2, R1; [done| |].
  - intros ev Hin. apply Hq, elem_of_app. by left.
  - intros ev Hin. apply Hq, elem_of_app. by right.
Qed.

Lemma frame_add_event w ev : frame [ev] w (add_event w ev).
Proof. by intros q _. Qed.

Section Monad.
Context {A B : Type}.

Lemma bind_inv (m : M A) (k : A -> M B) w r w' :
  (m ≫= k) w = (r, w') →
  (∃ a w1, m w = (Ok a, w1) ∧ k a w1 = (r, w')) ∨
  (∃ e, m w = (Err e, w') ∧ r = Err e).
Proof.
  unfold mbind, M_bind, bind. destruct (m w) as [[a|e] w1]; intros Hk.
  - left. eauto.
  - right. inversion Hk; subst. eauto.
Qed.

Lemma bind_Ok (m : M A) (k : A -> M B) w a w1 :
  m w = (Ok a, w1) → (m ≫= k) w = k a w1.
Proof. unfold mbind, M_bind, bind. by intros ->. Qed.

Lemma bind_Err (m : M A) (k : A -> M B) w e w1 :
  m w = (Err e, w1) → (m ≫= k) w = (Err e, w1).
Proof. unfold mbind, M_bind, bind. by intros ->. Qed.

Lemma try_inv (m : M A) w r w' :
  try m w = (r, w') → ∃ r0, r = Ok r0 ∧ m w = (r0, w').
Proof. unfold try. destruct (m w) as [r0 w1]. intros [= <- <-]. eauto. Qed.

Lemma wrap_inv format args (m : M A) w r w' :
  wrap format args m w = (r, w') →
  (∃ a, m w = (Ok a, w') ∧ r = Ok a) ∨
  (∃ e, m w = (Err e, w') ∧ r = Err (ErrorfWrap format args e)).
Proof.
  unfold wrap. destruct (m w) as [[a|e] w1]; intros [= <- <-]; eauto.
Qed.

Variable P : event -> Prop.

Lemma emits_nothing (w : World) :
  ∃ evs, trace w = trace w ++ evs ∧ Forall P evs ∧ frame evs w w.
Proof. exists []. rewrite app_nil_r. by repeat split. Qed.

Lemma emits_ret (a : A) : emits P (mret a).
Proof. intros w r w' [= <- <-]. apply emits_nothing. Qed.

Lemma emits_fail (e : error) : emits P (@fail A e).
Proof. intros w r w' [= <- <-]. apply emits_nothing. Qed.

Lemma emits_bind (m : M A) (k : A -> M B) :
  emits P m → (∀ a, emits P (k a)) → emits P (m ≫= k).
Proof.
  intros Hm Hk w r w' Hrun. apply bind_inv in Hrun as [(a & w1 & H1 & H2)|(e & H1 & ->)].
  - destruct (Hm _ _ _ H1) as (evs1 & E1 & F1 & R1).
    destruct (Hk _ _ _ _ H2) as (evs2 & E2 & F2 & R2).
    exists (evs1 ++ evs2). split; [by rewrite E2, E1, app_assoc|].
    split; [by apply Forall_app|]. by apply frame_app with w1.
  - exact (Hm _ _ _ H1).
Qed.

Lemma emits_try (m : M A) : emits P m → emits P (try m).
Proof. intros Hm w r w' Hrun. apply try_inv in Hrun as (r0 & -> & H1). eauto. Qed.

Lemma emits_wrap format args (m : M A) : emits P m → emits P (wrap format args m).
Proof.
  intros Hm w r w' Hrun. apply wrap_inv in Hrun as [(a & H1 & ->)|(e & H1 & ->)]; eauto.
Qed.

Lemma silent_emits (m : M A) : silent m → emits P m.
Proof. intros Hs w r w' Hrun. apply Hs in Hrun as ->. apply emits_nothing. Qed.

End Monad.

Lemma emits_emit P ev : P ev → emits P (emit ev).
Proof.
  intros HP w r w' [= <- <-]. exists [ev]. split; [done|]. split; [by constructor|].
  apply frame_add_event.
Qed.

(** A change of the node at [p] announced by an event that names [p]. *)
Lemma emits_update_fs P f ev p :
  P ev → touched ev = Some p → (∀ m q, q ≠ p → f m !! q = m !! q) →
  emits P (update_fs f ev).
Proof.
  intros HP Hp Hf w r w' [= <- <-]. exists [ev]. split; [done|]. split; [by constructor|].
  intros q Hq. cbn. apply Hf. intros ->. apply (Hq ev); [by apply list_elem_of_singleton|done].
Qed.

Lemma emits_insert P p n ev :
  P ev → touched ev = Some p → emits P (update_fs (insert p n) ev).
Proof.
  intros HP Hp. apply emits_update_fs with p; [done..|].
  intros m q Hq. by apply lookup_insert_ne.
Qed.

Lemma emits_delete P p ev :
  P ev → touched ev = Some p → emits P (update_fs (delete p) ev).
Proof.
  intros HP Hp. apply emits_update_fs with p; [done..|].
  intros m q Hq. by apply lookup_delete_ne.
Qed.

Lemma os_Stat_silent `{Host} p : silent (os_Stat p).
Proof. intros w r w'. unfold os_Stat. repeat case_match; by intros [= <- <-]. Qed.

Lemma check_parent_silent op p : silent (check_parent op p).
Proof. intros w r w'. unfold check_parent. repeat case_match; by intros [= <- <-]. Qed.

Lemma os_Open_silent p : silent (os_Open p).
Proof. intros w r w'. unfold os_Open. repeat case_match; by intros [= <- <-]. Qed.

Lemma file_ReadAll_silent p : silent (file_ReadAll p).
Proof. intros w r w'. unfold file_ReadAll. repeat case_match; by intros [= <- <-]. Qed.

Lemma http_Head_emits P url : P (HttpHead url) → emits P (http_Head url).
Proof.
  intros HP w r w'. unfold http_Head.
  destruct (net_Head w url); intros [= <- <-]; exists [HttpHead url];
    (split; [done|]); (split; [by constructor|]); apply frame_add_event.
Qed.

Lemma http_Get_emits P url : P (HttpGet url) → emits P (http_Get url).
Proof.
  intros HP w r w'. unfold http_Get.
  destruct (net_Get w url); intros [= <- <-]; exists [HttpGet url];
    (split; [done|]); (split; [by constructor|]); apply frame_add_event.
Qed.

Create HintDb emits discriminated.
#[local] Hint Resolve emits_ret emits_fail emits_try emits_wrap emits_emit : emits.
#[local] Hint Extern 1 (emits _ (update_fs (insert _ _) _)) =>
  apply emits_insert; [exact I|reflexivity] : emits.
#[local] Hint Extern 1 (emits _ (update_fs (delete _) _)) =>
  apply emits_delete; [exact I|reflexivity] : emits.
#[local] Hint Extern 1 (not_WriteFile _) => exact I : emits.
#[local] Hint Extern 2 (emits _ (_ ≫= _)) => apply emits_bind; [|intros ?] : emits.
#[local] Hint Extern 1 (emits _ (os_Stat _)) => apply silent_emits, os_Stat_silent : emits.
#[local] Hint Extern 1 (emits _ (check_parent _ _)) =>
  apply silent_emits, check_parent_silent : emits.
#[local] Hint Extern 1 (emits _ (os_Open _)) => apply silent_emits, os_Open_silent : emits.
#[local] Hint Extern 1 (emits _ (file_ReadAll _)) =>
  apply silent_emits, file_ReadAll_silent : emits.
#[local] Hint Extern 1 (emits _ (http_Get _)) => apply http_Get_emits : emits.
#[local] Hint Extern 1 (emits _ (http_Head _)) => apply http_Head_emits : emits.

Ltac emits_cases :=
  repeat match goal with
         | |- emits _ (match ?x with _ => _ end) => destruct x
         | |- emits _ (if ?x then _ else _) => destruct x
         end.

Ltac stays := intros [= <- <-]; apply emits_nothing.

(** ** No step before the marker completes an [os.WriteFile] *)

Local Abbreviation quiet := (emits not_WriteFile).

Section Quiet.
Context `{Host}.

Lemma os_Mkdir_quiet p perm : quiet (os_Mkdir p perm).
Proof.
  intros w r w'. unfold os_Mkdir. destruct (is_denied w p); [stays|].
  destruct (lookup_node w p); [stays|].
  revert w r w'.
  change (quiet (check_parent "mkdir" p ;; update_fs (insert p (Dir perm)) (OsMkdir p))).
  auto with emits.
Qed.

Lemma mkdirAll_quiet chain perm : quiet (mkdirAll chain perm).
Proof.
  induction chain as [|p parents IH]; cbn [mkdirAll]; [auto with emits|].
  apply emits_bind; [auto with emits|]. intros [dir|e].
  - emits_cases; auto with emits.
  - apply emits_bind; [exact IH|]. intros _.
    apply emits_bind; [apply emits_try, os_Mkdir_quiet|]. intros [?|err]; [auto with emits|].
    apply emits_bind; [auto with emits|]. intros [dir1|?]; emits_cases; auto with emits.
Qed.

Lemma os_MkdirAll_quiet p perm : quiet (os_MkdirAll p perm).
Proof. apply mkdirAll_quiet. Qed.

Lemma open_trunc_quiet p perm : quiet (open_trunc p perm).
Proof.
  intros w r w'. unfold open_trunc.
  destruct (lookup_node w p) as [[]|]; revert w r w'.
  - change (quiet (update_fs (insert p (File "" perm0 mtime)) (OsOpenFile p))).
    auto with emits.
  - change (quiet (@fail unit (PathError "open" p EISDIR))). auto with emits.
  - change (quiet (update_fs (insert p (File "" perm None)) (OsOpenFile p))).
    auto with emits.
Qed.

Lemma os_OpenFile_quiet p perm : quiet (os_OpenFile p perm).
Proof.
  intros w r w'. unfold os_OpenFile. destruct (is_denied w p); [stays|].
  revert w r w'. change (quiet (check_parent "open" p ;; open_trunc p perm)).
  apply emits_bind; [auto with emits|]. intros _. apply open_trunc_quiet.
Qed.

(** A write changes the file written to, and says so. *)
Lemma file_Write_frame p buf w :
  ∃ evs, trace (snd (file_Write p buf w)) = trace w ++ evs ∧
         Forall not_WriteFile evs ∧ frame evs w (snd (file_Write p buf w)).
Proof.
  unfold file_Write. destruct (fs w !! p) as [[data perm mtime|]|];
    [|apply emits_nothing..].
  destruct (_ <=? _)%nat; exists [OsWrite p]; (split; [done|]);
    (split; [by constructor|]); intros q Hq; cbn;
    apply lookup_insert_ne; intros Heq;
    (apply (Hq (OsWrite p)); [by apply list_elem_of_singleton|by rewrite Heq]).
Qed.

Lemma io_Copy_quiet dst data rerr : quiet (io_Copy dst data rerr).
Proof.
  intros w r w'. unfold io_Copy.
  pose proof (file_Write_frame dst data w) as Ht.
  destruct (file_Write dst data w) as [[n werr] w1]. simpl in Ht.
  destruct werr; by intros [= <- <-].
Qed.

Lemma os_Close_quiet p : quiet (os_Close p).
Proof. unfold os_Close. auto with emits. Qed.

Lemma os_Remove_quiet p : quiet (os_Remove p).
Proof.
  intros w r w'. unfold os_Remove. destruct (is_denied w p); [stays|].
  destruct (fs w !! p) as [[]|]; [| |stays].
  - revert w r w'. change (quiet (update_fs (delete p) (OsRemove p))). auto with emits.
  - destruct (has_child _ _); [stays|].
    revert w r w'. change (quiet (update_fs (delete p) (OsRemove p))). auto with emits.
Qed.

Lemma os_Chtimes_quiet p t : quiet (os_Chtimes p t).
Proof.
  intros w r w'. unfold os_Chtimes. destruct (is_denied w p); [stays|].
  destruct (fs w !! p) as [[]|]; [| |stays].
  - revert w r w'.
    change (quiet (update_fs (insert p (File data perm (Some t))) (OsChtimes p))).
    auto with emits.
  - revert w r w'. change (quiet (emit (OsChtimes p))). auto with emits.
Qed.

End Quiet.

#[local] Hint Resolve os_Mkdir_quiet os_MkdirAll_quiet os_OpenFile_quiet io_Copy_quiet
  os_Close_quiet os_Remove_quiet os_Chtimes_quiet : emits.

Section QuietSteps.
Context `{Host}.

Lemma unpackTarGz_loop_quiet targetDir entries tend : ∀ madeDir,
  quiet (unpackTarGz_loop targetDir madeDir entries tend).
Proof.
  induction entries as [|f rest IH]; intros madeDir; cbn [unpackTarGz_loop].
  { destruct tend; auto with emits. }
  destruct (negb (validRelPath (tar_Name f))); [auto with emits|].
  cbv zeta. destruct (tar_Type f); [| |auto with emits].
  - apply emits_bind.
    { destruct (default false _); auto with emits. }
    intros madeDir'. apply emits_bind; [auto with emits|]. intros _.
    apply emits_bind; [auto with emits|]. intros [n err].
    apply emits_bind; [auto with emits|]. intros closed.
    destruct closed, err; auto with emits.
    all: destruct (negb (n =? tar_Size f)%Z); [auto with emits|].
    all: apply emits_bind; [|intros _; apply IH].
    all: destruct (tar_ModTime f); [|auto with emits].
    all: apply emits_bind; [auto with emits|]; intros [|]; auto with emits.
  - apply emits_bind; [auto with emits|]. intros _. apply IH.
Qed.

Lemma unpackZip_loop_quiet targetDir files : quiet (unpackZip_loop targetDir files).
Proof.
  induction files as [|f rest IH]; cbn [unpackZip_loop]; [auto with emits|].
  cbv zeta. destruct (zip_IsDir f).
  { apply emits_bind; [auto with emits|]. intros _. apply IH. }
  destruct (zip_Open f) as [err|[data rerr]]; [auto with emits|].
  apply emits_bind; [auto with emits|]. intros _.
  apply emits_bind; [auto with emits|]. intros _.
  apply emits_bind; [auto with emits|]. intros [n err].
  destruct err; apply emits_bind; auto with emits.
Qed.

Lemma unpackArchive_quiet targetDir archiveFile : quiet (unpackArchive targetDir archiveFile).
Proof.
  unfold unpackArchive, unpackZip, unpackTarGz.
  destruct (strings.HasSuffix archiveFile ".zip").
  { apply emits_bind; [auto with emits|]. intros _.
    apply emits_bind; [auto with emits|]. intros raw.
    destruct (zip_OpenReader raw); [auto with emits|apply unpackZip_loop_quiet]. }
  destruct (strings.HasSuffix archiveFile ".tar.gz"); [|auto with emits].
  apply emits_bind; [auto with emits|]. intros _.
  apply emits_bind; [auto with emits|]. intros raw.
  destruct (gzip_tar_NewReader raw); [auto with emits|apply unpackTarGz_loop_quiet].
Qed.

Lemma verifySHA256_silent file wantHex : silent (verifySHA256 file wantHex).
Proof.
  intros w r w' Hrun. unfold verifySHA256 in Hrun.
  apply bind_inv in Hrun as [(? & w1 & H1 & Hrun)|(e & H1 & ->)];
    apply os_Open_silent in H1 as ->; [|done].
  apply bind_inv in Hrun as [(data & w1 & H1 & Hrun)|(e & H1 & ->)];
    apply file_ReadAll_silent in H1 as ->; [|done].
  destruct (negb _); by inversion Hrun.
Qed.

Lemma slurpURLToString_quiet url_ : quiet (slurpURLToString url_).
Proof.
  unfold slurpURLToString. apply emits_bind; [auto with emits|]. intros res.
  destruct (negb _); [auto with emits|]. destruct (BodyErr res); auto with emits.
Qed.

Lemma copyFromURL_body_quiet dstFile srcURL : quiet (copyFromURL_body dstFile srcURL).
Proof.
  unfold copyFromURL_body. apply emits_bind; [auto with emits|]. intros res.
  destruct (negb _); [auto with emits|].
  apply emits_bind; [auto with emits|]. intros [n err].
  destruct err; [auto with emits|]. destruct (_ && _); [auto with emits|].
  apply emits_bind; auto with emits.
Qed.

Lemma copyFromURL_quiet dstFile srcURL : quiet (copyFromURL dstFile srcURL).
Proof.
  intros w r w' Hrun. unfold copyFromURL in Hrun.
  destruct (os_Create dstFile w) as [[[]|e] w1] eqn:Hc;
    apply os_OpenFile_quiet in Hc as (evs1 & E1 & F1 & R1).
  2:{ inversion Hrun; subst. eauto. }
  destruct (copyFromURL_body dstFile srcURL w1) as [[[]|e] w2] eqn:Hb;
    apply copyFromURL_body_quiet in Hb as (evs2 & E2 & F2 & R2).
  { inversion Hrun; subst. exists (evs1 ++ evs2).
    split; [by rewrite E2, E1, app_assoc|]. split; [by apply Forall_app|].
    by apply frame_app with w1. }
  destruct (os_Close dstFile w2) as [r3 w3] eqn:Hcl.
  apply os_Close_quiet in Hcl as (evs3 & E3 & F3 & R3).
  destruct (os_Remove dstFile w3) as [r4 w4] eqn:Hrm.
  apply os_Remove_quiet in Hrm as (evs4 & E4 & F4 & R4).
  inversion Hrun; subst. exists (evs1 ++ evs2 ++ evs3 ++ evs4).
  split; [by rewrite E4, E3, E2, E1, !app_assoc|]. split; [by rewrite !Forall_app|].
  apply frame_app with w1; [done|]. apply frame_app with w2; [done|].
  by apply frame_app with w3.
Qed.

Lemma install_fetch_quiet goURL archiveFile res : quiet (install_fetch goURL archiveFile res).
Proof.
  unfold install_fetch. apply emits_bind; [auto with emits|]. intros st.
  cbv zeta. destruct (match st with Ok _ => _ | Err _ => _ end); [|auto with emits].
  apply emits_bind.
  { destruct st as [|err]; [auto with emits|]. destruct (negb _); auto with emits. }
  intros _. apply emits_bind; [apply emits_wrap, copyFromURL_quiet|]. intros _.
  apply emits_bind; [auto with emits|]. intros fi. destruct (negb _); auto with emits.
Qed.

Lemma ext_refl w : ext w w.
Proof. apply emits_nothing. Qed.

Lemma ext_trans w1 w2 w3 : ext w1 w2 → ext w2 w3 → ext w1 w3.
Proof.
  intros (e1 & E1 & F1 & R1) (e2 & E2 & F2 & R2). exists (e1 ++ e2).
  split; [by rewrite E2, E1, app_assoc|]. split; [by apply Forall_app|].
  by apply frame_app with w2.
Qed.

Lemma ext_add_event w ev : not_WriteFile ev → ext w (add_event w ev).
Proof.
  intros Hev. exists [ev]. split; [done|]. split; [by constructor|]. apply frame_add_event.
Qed.

Lemma quiet_ext {A} (m : M A) w r w' : quiet m → m w = (r, w') → ext w w'.
Proof. intros Hq Hrun. exact (Hq _ _ _ Hrun). Qed.

Lemma ext_no_WriteFile w w' :
  ext w w' → ∀ evs, trace w' = trace w ++ evs → ∀ p, OsWriteFile p ∉ evs.
Proof.
  intros (evs' & E & F & _) evs E' p Hin. rewrite E in E'. apply app_inv_head in E' as <-.
  rewrite Forall_forall in F. exact (F _ Hin).
Qed.

End QuietSteps.

(** ** [verifySHA256] *)

(** C2, as the code has it.  For a file that can be read, [verifySHA256]
    returns [nil] exactly when the lower-case hexadecimal SHA-256 digest of
    the whole contents is the expected string, character for character;
    otherwise it returns the error that names the file and the expected
    digest. *)
Theorem verifySHA256_exact (file wantHex data : string) (w : World) :
  readable w file data →
  (verifySHA256 file wantHex w = (Ok tt, w) ↔ sha256.hex (sha256.Sum256 data) = wantHex) ∧
  (sha256.hex (sha256.Sum256 data) ≠ wantHex →
   verifySHA256 file wantHex w = (Err (corrupt file wantHex), w)).
Proof.
  intros [Hopen Hread]. unfold verifySHA256.
  rewrite (bind_Ok _ _ _ _ _ Hopen), (bind_Ok _ _ _ _ _ Hread).
  destruct (String.eqb_spec (sha256.hex (sha256.Sum256 data)) wantHex) as [Heq|Hne]; simpl.
  - split; [done|]. intros Hne. by destruct Hne.
  - split; [|done]. split; [discriminate|done].
Qed.

Lemma verifySHA256_exact_witness :
  (verifySHA256 "/sdk/go.tar.gz" upper_digest empty_archive = (Ok tt, empty_archive)
   ↔ sha256.hex (sha256.Sum256 "") = upper_digest) ∧
  (sha256.hex (sha256.Sum256 "") ≠ upper_digest →
   verifySHA256 "/sdk/go.tar.gz" upper_digest empty_archive
   = (Err (corrupt "/sdk/go.tar.gz" upper_digest), empty_archive)).
Proof.
  apply (verifySHA256_exact "/sdk/go.tar.gz" upper_digest "" empty_archive).
  split; reflexivity.
Defined.

(** C2 as stated fails: the expected digest of the empty file written in
    capitals equals the computed one when case is ignored, and is rejected;
    the error names the file and the expected digest only. *)
Lemma verifySHA256_case_sensitive :
  readable empty_archive "/sdk/go.tar.gz" "" ∧
  strings.EqualFoldASCII (sha256.hex (sha256.Sum256 "")) upper_digest = true ∧
  verifySHA256 "/sdk/go.tar.gz" upper_digest empty_archive
  = (Err (Errorf "%s corrupt? does not have expected SHA-256 of %v"
            [Str "/sdk/go.tar.gz"; Str upper_digest]), empty_archive).
Proof. repeat split; vm_compute; reflexivity. Qed.

(** ** The unpackers *)

Lemma validRelPath_rejects (name : string) :
  strings.Contains name "../" = true ∨ strings.HasPrefix name "/" = true ∨
  strings.Contains name "\" = true →
  validRelPath name = false.
Proof.
  unfold validRelPath. intros [Hc|[Hp|Hb]].
  - rewrite Hc. by rewrite !orb_true_r.
  - rewrite Hp. by rewrite !orb_true_r.
  - rewrite Hb. by rewrite !orb_true_r.
Qed.

(** The tar loop stops at a record with such a name, and leaves the world as
    the records before it made it. *)
Lemma unpackTarGz_loop_rejects `{Host} targetDir madeDir (f : tar_entry) rest tend w :
  validRelPath (tar_Name f) = false →
  unpackTarGz_loop targetDir madeDir (f :: rest) tend w
  = (Err (Errorf "tar file contained invalid name %q" [Str (tar_Name f)]), w).
Proof. intros Hbad. cbn [unpackTarGz_loop]. by rewrite Hbad. Qed.

Example unpackTarGz_traversal :
  @unpackTarGz linux_evil sdk_dir "/home/u/sdk/go1.20.8/go1.20.8.windows-amd64.zip" zip_home
  = (Err (Errorf "tar file contained invalid name %q" [Str "../evil.txt"]), zip_home).
Proof. vm_compute. reflexivity. Qed.

(** The tar test looks for "../" only: a name that ends in ".." passes. *)
Example validRelPath_trailing_dotdot : validRelPath "go/.." = true.
Proof. reflexivity. Qed.

(** C1 fails on the zip path.  [unpackZip] never tests the name: a member
    named "../evil.txt" is written next to the installation directory, not
    under it, and the call returns [nil]. *)
Theorem unpackZip_traversal :
  validRelPath "../evil.txt" = false ∧
  fst (@unpackArchive linux_amd64 sdk_dir
         "/home/u/sdk/go1.20.8/go1.20.8.windows-amd64.zip" zip_home) = Ok tt ∧
  fs zip_home !! "/home/u/sdk/evil.txt" = None ∧
  fs (snd (@unpackArchive linux_amd64 sdk_dir
             "/home/u/sdk/go1.20.8/go1.20.8.windows-amd64.zip" zip_home))
    !! "/home/u/sdk/evil.txt" = Some (File "pwned" 420 None) ∧
  strings.HasPrefix "/home/u/sdk/evil.txt" (sdk_dir +:+ "/") = false.
Proof. repeat split; vm_compute; reflexivity. Qed.

(** The round trip of a well-formed release. *)
Example unpackTarGz_release :
  let w := offline (<[release_file := File release_body 438 None]> sdk_tree) in
  let '(r, w') := @unpackArchive linux_amd64 sdk_dir release_file w in
  r = Ok tt ∧
  fs w' !! "/home/u/sdk/go1.20.8/bin/go" = Some (File "ELF" 493 (Some 1700000000%Z)) ∧
  fs w' !! "/home/u/sdk/go1.20.8/lib/foo.txt" = Some (File "foo" 493 (Some 1700000000%Z)) ∧
  fs w' !! "/home/u/sdk/go1.20.8/pkg" = Some (Dir 493).
Proof. vm_compute. repeat split. Qed.

(** ** [copyFromURL] *)

Section Download.
Context `{Host}.

Lemma is_file_add_event w p ev : is_file w p → is_file (add_event w ev) p.
Proof. intros [Hd Hf]. split; [exact Hd|exact Hf]. Qed.

Lemma os_OpenFile_is_file p perm w w1 :
  os_OpenFile p perm w = (Ok tt, w1) → is_file w1 p.
Proof.
  unfold os_OpenFile. destruct (is_denied w p) eqn:Hden; [done|]. intros Hopen.
  apply bind_inv in Hopen as [([] & w3 & Hpar & Hopen)|(e & _ & [=])].
  apply check_parent_silent in Hpar as ->.
  unfold open_trunc in Hopen. destruct (lookup_node w p) as [[]|]; inversion Hopen; subst.
  all: split; [exact Hden|]. all: cbn; rewrite lookup_insert_eq; eauto.
Qed.

Lemma os_OpenFile_trace p perm w w1 :
  os_OpenFile p perm w = (Ok tt, w1) → trace w1 = trace w ++ [OsOpenFile p].
Proof.
  unfold os_OpenFile. destruct (is_denied w p); [done|]. intros Hopen.
  apply bind_inv in Hopen as [([] & w3 & Hpar & Hopen)|(e & _ & [=])].
  apply check_parent_silent in Hpar as ->. unfold open_trunc in Hopen.
  destruct (lookup_node w p) as [[]|]; inversion Hopen; subst; done.
Qed.

Lemma io_Copy_is_file dst data rerr w r w1 :
  is_file w dst → io_Copy dst data rerr w = (r, w1) → is_file w1 dst.
Proof.
  intros [Hd (d & pm & mt & Hf)]. unfold io_Copy, file_Write. rewrite Hf.
  destruct (_ <=? _)%nat; intros [= <- <-]; (split; [exact Hd|]); cbn;
    rewrite lookup_insert_eq; eauto.
Qed.

Lemma http_Get_is_file url p w r w1 :
  is_file w p → http_Get url w = (r, w1) → is_file w1 p.
Proof.
  intros Hf. unfold http_Get. destruct (net_Get w url); intros [= <- <-];
    by apply is_file_add_event.
Qed.

(** The download writes into the file it was given and leaves it a file. *)
Lemma copyFromURL_body_is_file dstFile srcURL w r w1 :
  is_file w dstFile → copyFromURL_body dstFile srcURL w = (r, w1) → is_file w1 dstFile.
Proof.
  intros Hf Hrun. unfold copyFromURL_body in Hrun.
  apply bind_inv in Hrun as [(res & w2 & Hget & Hrun)|(e & Hget & ->)];
    [|by eapply http_Get_is_file].
  eapply http_Get_is_file in Hget; [|done].
  destruct (negb _); [by inversion Hrun; subst|].
  apply bind_inv in Hrun as [([n err] & w3 & Hcp & Hrun)|(e & Hcp & ->)];
    [|by eapply io_Copy_is_file].
  eapply io_Copy_is_file in Hcp; [|done].
  destruct err; [by inversion Hrun; subst|].
  destruct (_ && _); [by inversion Hrun; subst|].
  apply bind_inv in Hrun as [([] & w4 & Hem & Hrun)|(e & Hem & ->)].
  - inversion Hem; subst. inversion Hrun; subst. by do 2 apply is_file_add_event.
  - inversion Hem.
Qed.

Lemma os_Remove_file p w :
  is_file w p →
  os_Remove p w = (Ok tt, add_event (set_fs w (delete p (fs w))) (OsRemove p)).
Proof.
  intros [Hd (d & pm & mt & Hf)]. unfold os_Remove. by rewrite Hd, Hf.
Qed.

(** Each way the download can go wrong makes the body return an error. *)
Lemma copyFromURL_body_request_error dstFile srcURL w err :
  net_Get w srcURL = inl err →
  copyFromURL_body dstFile srcURL w = (Err err, add_event w (HttpGet srcURL)).
Proof.
  intros Hget. unfold copyFromURL_body.
  by rewrite (bind_Err _ _ _ err (add_event w (HttpGet srcURL)))
    by (unfold http_Get; by rewrite Hget).
Qed.

Lemma copyFromURL_body_bad_status dstFile srcURL w res :
  net_Get w srcURL = inr res → StatusCode res ≠ 200%Z →
  copyFromURL_body dstFile srcURL w
  = (Err (ErrorString (Status res)), add_event w (HttpGet srcURL)).
Proof.
  intros Hget Hst. unfold copyFromURL_body.
  rewrite (bind_Ok _ _ _ res (add_event w (HttpGet srcURL)))
    by (unfold http_Get; by rewrite Hget).
  apply Z.eqb_neq in Hst. by rewrite Hst.
Qed.

Lemma copyFromURL_body_copy_error dstFile srcURL w res n err w2 :
  net_Get w srcURL = inr res → StatusCode res = 200%Z →
  io_Copy dstFile (Body res) (BodyErr res) (add_event w (HttpGet srcURL))
    = (Ok (n, Some err), w2) →
  copyFromURL_body dstFile srcURL w = (Err err, w2).
Proof.
  intros Hget Hst Hcp. unfold copyFromURL_body.
  rewrite (bind_Ok _ _ _ res (add_event w (HttpGet srcURL)))
    by (unfold http_Get; by rewrite Hget).
  apply Z.eqb_eq in Hst. rewrite Hst. cbn [negb].
  by rewrite (bind_Ok _ _ _ _ _ Hcp).
Qed.

Lemma copyFromURL_body_short dstFile srcURL w res n w2 :
  net_Get w srcURL = inr res → StatusCode res = 200%Z →
  io_Copy dstFile (Body res) (BodyErr res) (add_event w (HttpGet srcURL))
    = (Ok (n, None), w2) →
  ContentLength res ≠ (-1)%Z → ContentLength res ≠ n →
  copyFromURL_body dstFile srcURL w
  = (Err (Errorf "copied %v bytes; expected %v" [Int n; Int (ContentLength res)]), w2).
Proof.
  intros Hget Hst Hcp H1 H2. unfold copyFromURL_body.
  rewrite (bind_Ok _ _ _ res (add_event w (HttpGet srcURL)))
    by (unfold http_Get; by rewrite Hget).
  apply Z.eqb_eq in Hst. rewrite Hst. cbn [negb].
  rewrite (bind_Ok _ _ _ _ _ Hcp).
  apply Z.eqb_neq in H1, H2. by rewrite H1, H2.
Qed.


End Download.


(** A disk that takes four bytes a file: the write fails, the file goes. *)
Example copyFromURL_write_error :
  let w := {| fs := sdk_tree; denied := ∅; max_file := Some 4%nat;
              net_Head := release_server; net_Get := release_server; trace := [] |} in
  let '(r, w') := copyFromURL release_file release_url w in
  r = Err (PathError "write" release_file EFBIG) ∧
  fs w' = sdk_tree ∧
  trace w' = [OsOpenFile release_file; HttpGet release_url; OsWrite release_file;
              OsClose release_file; OsRemove release_file].
Proof. vm_compute. repeat split. Qed.

(** A status other than 200. *)
Example copyFromURL_not_found :
  let w := {| fs := sdk_tree; denied := ∅; max_file := None;
              net_Head := release_server; net_Get := release_server; trace := [] |} in
  let '(r, w') := copyFromURL release_file "https://dl.google.com/go/nothing" w in
  r = Err (ErrorString "404 Not Found") ∧ fs w' = sdk_tree.
Proof. vm_compute. repeat split. Qed.

Example copyFromURL_offline :
  copyFromURL release_file release_url (offline sdk_tree)
  = (Err (ErrorString "no route to host"),
     set_fs (add_event (add_event (add_event (add_event (offline sdk_tree)
        (OsOpenFile release_file)) (HttpGet release_url)) (OsClose release_file))
        (OsRemove release_file)) sdk_tree).
Proof. vm_compute. reflexivity. Qed.

(** ** [install] *)

Section Install.
Context `{Host}.

Lemma os_Stat_frame p w ev :
  os_Stat p (add_event w ev) = (fst (os_Stat p w), add_event w ev).
Proof. unfold os_Stat, is_denied, lookup_node. cbn. repeat case_match; reflexivity. Qed.

(** A marker that was written can be seen. *)
Lemma os_WriteFile_Stat p data perm w w1 :
  os_WriteFile p data perm w = (Ok tt, w1) → ∃ fi, os_Stat p w1 = (Ok fi, w1).
Proof.
  unfold os_WriteFile. intros Hrun.
  apply bind_inv in Hrun as [([] & w2 & Hopen & Hwrite)|(e & _ & [=])].
  destruct (os_OpenFile_is_file _ _ _ _ Hopen) as (Hden2 & d & pm & mt & Hfile).
  unfold write_all, file_Write in Hwrite. rewrite Hfile in Hwrite.
  assert (is_denied w1 p = false ∧ ∃ n, fs w1 !! p = Some n) as [Hden1 [n Hn]].
  { destruct (_ <=? _)%nat; inversion Hwrite; subst.
    split; [exact Hden2|]. cbn. rewrite lookup_insert_eq. eauto. }
  unfold os_Stat, lookup_node. rewrite Hden1, Hn.
  destruct (_ || _); eauto.
Qed.

(** Writing no bytes into a file just opened cannot fail. *)
Lemma os_WriteFile_empty p perm w r w1 :
  os_WriteFile p "" perm w = (r, w1) →
  (∃ e, r = Err e ∧ ext w w1) ∨
  (r = Ok tt ∧ trace w1 = trace w ++ [OsOpenFile p; OsWrite p; OsWriteFile p]).
Proof.
  unfold os_WriteFile. intros Hrun.
  apply bind_inv in Hrun as [([] & w2 & Hopen & Hwrite)|(e & Hopen & ->)].
  - right. destruct (os_OpenFile_is_file _ _ _ _ Hopen) as (_ & d & pm & mt & Hfile).
    apply os_OpenFile_trace in Hopen as E.
    unfold write_all, file_Write in Hwrite. rewrite Hfile in Hwrite.
    destruct (max_file w2); simpl in Hwrite; inversion Hwrite; subst; cbn; rewrite E;
      by rewrite <- !app_assoc.
  - left. exists e. split; [done|]. eapply quiet_ext; [apply os_OpenFile_quiet|done].
Qed.

Lemma install_present targetDir version w fi :
  os_Stat (filepath.Join [targetDir; unpackedOkay]) w = (Ok fi, w) →
  install targetDir version w = (Ok tt, add_event w (already targetDir version)).
Proof.
  intros Hst. unfold install.
  assert (try (os_Stat (filepath.Join [targetDir; unpackedOkay])) w = (Ok (Ok fi), w)) as Htry.
  { unfold try. by rewrite Hst. }
  by rewrite (bind_Ok _ _ _ _ _ Htry).
Qed.

Lemma install_Ok_marks targetDir version w w' :
  install targetDir version w = (Ok tt, w') →
  ∃ fi, os_Stat (filepath.Join [targetDir; unpackedOkay]) w' = (Ok fi, w').
Proof.
  unfold install. intros Hrun.
  apply bind_inv in Hrun as [(st & w1 & Htry & Hrun)|(e & _ & [=])].
  apply try_inv in Htry as (r0 & [= ->] & Hst).
  pose proof (os_Stat_silent _ _ _ _ Hst) as ->.
  destruct r0 as [fi|e].
  - inversion Hrun; subst. rewrite os_Stat_frame, Hst. eauto.
  - apply bind_inv in Hrun as [([] & w2 & _ & Hrun)|(? & _ & [=])].
    apply bind_inv in Hrun as [(res & w3 & _ & Hrun)|(? & _ & [=])].
    destruct (StatusCode res =? 404)%Z; [done|].
    destruct (negb (StatusCode res =? 200)%Z); [done|].
    apply bind_inv in Hrun as [([] & w4 & _ & Hrun)|(? & _ & [=])].
    unfold install_verify_unpack in Hrun.
    apply bind_inv in Hrun as [(wantSHA & w5 & _ & Hrun)|(? & _ & [=])].
    apply bind_inv in Hrun as [([] & w6 & _ & Hrun)|(? & _ & [=])].
    apply bind_inv in Hrun as [([] & w7 & _ & Hrun)|(? & _ & [=])].
    apply bind_inv in Hrun as [([] & w8 & _ & Hrun)|(? & _ & [=])].
    apply bind_inv in Hrun as [([] & w9 & Hwf & Hrun)|(? & _ & [=])].
    apply os_WriteFile_Stat in Hwf as [fi Hfi].
    inversion Hrun; subst. rewrite os_Stat_frame, Hfi. eauto.
Qed.

(** C3, as the code has it.  When [os.Stat] of the marker succeeds,
    [install] returns [nil] in a world that differs from the one it started
    in by one log line only: no request, no change of the file system.  A
    call that follows a call that returned [nil] is such a call. *)
Theorem install_idempotent (targetDir version : string) (w : World) :
  (∀ fi, os_Stat (filepath.Join [targetDir; unpackedOkay]) w = (Ok fi, w) →
         install targetDir version w = (Ok tt, add_event w (already targetDir version))) ∧
  (∀ w', install targetDir version w = (Ok tt, w') →
         install targetDir version w' = (Ok tt, add_event w' (already targetDir version))).
Proof.
  split.
  - intros fi. apply install_present.
  - intros w' Hrun. apply install_Ok_marks in Hrun as [fi Hfi].
    by apply install_present with fi.
Qed.

End Install.

Lemma install_idempotent_witness :
  let w' := snd (@install linux_amd64 sdk_dir "go1.20.8" fresh_home) in
  @install linux_amd64 sdk_dir "go1.20.8" w' = (Ok tt, add_event w' (already sdk_dir "go1.20.8")).
Proof.
  intros w'.
  apply (proj2 (@install_idempotent linux_amd64 sdk_dir "go1.20.8" fresh_home) w').
  vm_compute. reflexivity.
Defined.

(** C3 as the specification words it fails: a marker that is on disk but
    that [os.Stat] cannot reach counts as absent.  [install] then goes
    through every step, sends its three requests, unpacks the archive again
    and returns the error of the write it cannot make. *)
Lemma install_marker_unreadable :
  fs unreadable_marker !! filepath.Join [sdk_dir; unpackedOkay] = Some (File "" 420 None) ∧
  fst (@install linux_amd64 sdk_dir "go1.20.8" unreadable_marker)
  = Err (PathError "open" (filepath.Join [sdk_dir; unpackedOkay]) EACCES) ∧
  requests (trace (snd (@install linux_amd64 sdk_dir "go1.20.8" unreadable_marker)))
  = [HttpHead release_url; HttpGet release_url; HttpGet (release_url +:+ ".sha256")].
Proof. vm_compute. repeat split. Qed.

Example install_fresh :
  let '(r, w') := @install linux_amd64 sdk_dir "go1.20.8" fresh_home in
  r = Ok tt ∧
  trace w' =
    [OsMkdir "/home/u/sdk"; OsMkdir sdk_dir; HttpHead release_url;
     OsOpenFile release_file; HttpGet release_url; OsWrite release_file;
     Progress 13 13; OsClose release_file;
     HttpGet (release_url +:+ ".sha256");
     Log "Unpacking %v ..." [Str release_file];
     OsMkdir "/home/u/sdk/go1.20.8/bin";
     OsOpenFile "/home/u/sdk/go1.20.8/bin/go"; OsWrite "/home/u/sdk/go1.20.8/bin/go";
     OsClose "/home/u/sdk/go1.20.8/bin/go";
     OsChtimes "/home/u/sdk/go1.20.8/bin/go";
     OsMkdir "/home/u/sdk/go1.20.8/lib";
     OsOpenFile "/home/u/sdk/go1.20.8/lib/foo.txt";
     OsWrite "/home/u/sdk/go1.20.8/lib/foo.txt";
     OsClose "/home/u/sdk/go1.20.8/lib/foo.txt";
     OsChtimes "/home/u/sdk/go1.20.8/lib/foo.txt";
     OsMkdir "/home/u/sdk/go1.20.8/pkg";
     OsOpenFile "/home/u/sdk/go1.20.8/.unpacked-success";
     OsWrite "/home/u/sdk/go1.20.8/.unpacked-success";
     OsWriteFile "/home/u/sdk/go1.20.8/.unpacked-success";
     Log "Success. You may now run '%v'" [Str "go1.20.8"]] ∧
  fs w' !! "/home/u/sdk/go1.20.8/.unpacked-success" = Some (File "" 420 None).
Proof. vm_compute. repeat split. Qed.

Section Pipeline.
Context `{Host}.

(** A fetch that returns [nil] leaves an archive of the announced length. *)
Lemma install_fetch_Ok_size goURL archiveFile res w w1 :
  install_fetch goURL archiveFile res w = (Ok tt, w1) →
  ∃ fi, os_Stat archiveFile w1 = (Ok fi, w1) ∧ fi_Size fi = ContentLength res.
Proof.
  unfold install_fetch. intros Hrun.
  apply bind_inv in Hrun as [(st & w2 & Htry & Hrun)|(e & _ & [=])].
  apply try_inv in Htry as (r0 & [= ->] & Hst).
  pose proof (os_Stat_silent _ _ _ _ Hst) as ->. cbv zeta in Hrun.
  assert (∀ w0 : World,
    (wrap "error downloading %v: %v" [Str goURL] (copyFromURL archiveFile goURL) ;;
     fi ← os_Stat archiveFile;
     if negb (fi_Size fi =? ContentLength res)%Z
     then fail (Errorf "downloaded file %s size %v doesn't match server size %v"
                  [Str archiveFile; Int (fi_Size fi); Int (ContentLength res)])
     else mret ()) w0 = (Ok tt, w1) →
    ∃ fi, os_Stat archiveFile w1 = (Ok fi, w1) ∧ fi_Size fi = ContentLength res) as Hdl.
  { intros w0 Hdl.
    apply bind_inv in Hdl as [([] & w4 & _ & Hdl)|(? & _ & [=])].
    apply bind_inv in Hdl as [(fi' & w5 & Hst' & Hdl)|(? & _ & [=])].
    pose proof (os_Stat_silent _ _ _ _ Hst') as ->.
    destruct (fi_Size fi' =? ContentLength res)%Z eqn:Hsz'; cbn [negb] in Hdl; [|done].
    inversion Hdl; subst. exists fi'. split; [done|]. by apply Z.eqb_eq. }
  destruct r0 as [fi|e].
  - destruct (fi_Size fi =? ContentLength res)%Z eqn:Hsz; cbn [negb] in Hrun.
    + inversion Hrun; subst. exists fi. split; [done|]. by apply Z.eqb_eq.
    + apply bind_inv in Hrun as [([] & w3 & _ & Hrun)|(? & _ & [=])]. eauto.
  - apply bind_inv in Hrun as [([] & w3 & _ & Hrun)|(? & _ & [=])]. eauto.
Qed.

(** The second half of [install] either fails before any [os.WriteFile], or
    every step of it returned [nil] and the marker is the last thing
    written. *)
Lemma install_verify_unpack_run targetDir version w r w' :
  let goURL := versionArchiveURL version in
  let archiveFile := filepath.Join [targetDir; filepath.Base goURL] in
  install_verify_unpack targetDir version goURL archiveFile w = (r, w') →
  (ext w w' ∧ ∃ e, r = Err e) ∨
  (r = Ok tt ∧ ∃ wantSHA w4 w5,
     slurpURLToString (goURL +:+ ".sha256") w = (Ok wantSHA, w4) ∧
     verifySHA256 archiveFile (strings.TrimSpace wantSHA) w4 = (Ok tt, w4) ∧
     unpackArchive targetDir archiveFile
       (add_event w4 (Log "Unpacking %v ..." [Str archiveFile])) = (Ok tt, w5) ∧
     trace w' = trace w5 ++ [OsOpenFile (filepath.Join [targetDir; unpackedOkay]);
                             OsWrite (filepath.Join [targetDir; unpackedOkay]);
                             OsWriteFile (filepath.Join [targetDir; unpackedOkay]);
                             Log "Success. You may now run '%v'" [Str version]] ∧
     ext w w5).
Proof.
  intros goURL archiveFile. unfold install_verify_unpack. intros Hrun.
  apply bind_inv in Hrun as [(wantSHA & w1 & Hslurp & Hrun)|(e & Hslurp & ->)].
  2:{ left. split; [|eauto]. eapply quiet_ext; [apply slurpURLToString_quiet|done]. }
  pose proof (quiet_ext _ _ _ _ (slurpURLToString_quiet _) Hslurp) as E1.
  apply bind_inv in Hrun as [([] & w2 & Hver & Hrun)|(e & Hver & ->)].
  2:{ left. split; [|eauto]. apply wrap_inv in Hver as [(? & _ & [=])|(e' & Hver & _)].
      by apply verifySHA256_silent in Hver as ->. }
  apply wrap_inv in Hver as [([] & Hver & _)|(e' & _ & [=])].
  pose proof (verifySHA256_silent _ _ _ _ _ Hver) as ->.
  apply bind_inv in Hrun as [([] & w3 & Hlog & Hrun)|(e & Hlog & ->)]; [|done].
  inversion Hlog; subst w3. clear Hlog.
  set (wl := add_event w1 _) in *.
  assert (ext w1 wl) as E2.
  { by apply ext_add_event. }
  apply bind_inv in Hrun as [([] & w5 & Hun & Hrun)|(e & Hun & ->)].
  2:{ left. split; [|eauto]. apply wrap_inv in Hun as [(? & _ & [=])|(e' & Hun & _)].
      eapply ext_trans; [exact E1|]. eapply ext_trans; [exact E2|].
      eapply quiet_ext; [apply unpackArchive_quiet|done]. }
  apply wrap_inv in Hun as [([] & Hun & _)|(e' & _ & [=])].
  pose proof (quiet_ext _ _ _ _ (unpackArchive_quiet _ _) Hun) as E3.
  assert (ext w w5) as E5 by (eapply ext_trans; [exact E1|]; by eapply ext_trans).
  apply bind_inv in Hrun as [([] & w6 & Hwf & Hrun)|(e & Hwf & ->)].
  - apply os_WriteFile_empty in Hwf as [(e & [=] & _)|(_ & Etr)].
    right. inversion Hrun; subst. split; [done|].
    exists wantSHA, w1, w5. repeat split; try done.
    cbn. rewrite Etr. by rewrite <- app_assoc.
  - apply os_WriteFile_empty in Hwf as [(e' & _ & E6)|([=] & _)].
    left. split; [|eauto]. by eapply ext_trans.
Qed.

(** What holds in every run of [install]: the marker is written by the
    [os.WriteFile] of [install] only when every step before it returned
    [nil]: the directory made, the probe answered 200, the archive on disk
    with the announced length, the digest fetched and matching, the archive
    unpacked.  A run that returns an error has completed no [os.WriteFile]
    at all, and has left as it was every path that no call of the run
    names.  This is less than C4 says: a call of the unpacker can name the
    path of the marker. *)
Theorem install_marker_last (targetDir version : string) (w w' : World) (r : result unit) :
  install targetDir version w = (r, w') →
  ∃ evs, trace w' = trace w ++ evs ∧
    (OsWriteFile (filepath.Join [targetDir; unpackedOkay]) ∈ evs →
       steps_succeeded targetDir version w) ∧
    (∀ e, r = Err e → (∀ p, OsWriteFile p ∉ evs) ∧ frame evs w w').
Proof.
  intros Hrun.
  assert ((ext w w') ∨
          (r = Ok tt ∧ steps_succeeded targetDir version w ∧ ∃ evs, trace w' = trace w ++ evs))
    as [Hext|(-> & Hsteps & evs & E)].
  2:{ destruct Hext as (evs & E & F & R). exists evs. split; [done|].
      rewrite Forall_forall in F. split.
      - intros Hin. destruct (F _ Hin).
      - intros e _. split; [|done]. intros p Hin. destruct (F _ Hin). }
  2:{ exists evs. split; [done|]. split; [done|]. intros e [=]. }
  unfold install in Hrun.
  apply bind_inv in Hrun as [(st & w1 & Htry & Hrun)|(e & Htry & ->)].
  2:{ left. eapply quiet_ext; [|exact Htry]. auto with emits. }
  apply try_inv in Htry as (r0 & [= ->] & Hst).
  pose proof (os_Stat_silent _ _ _ _ Hst) as ->.
  destruct r0 as [fi|e0].
  { left. eapply quiet_ext; [|exact Hrun]. unfold log_Printf. auto with emits. }
  apply bind_inv in Hrun as [([] & w2 & Hmk & Hrun)|(e & Hmk & ->)].
  2:{ left. eapply quiet_ext; [apply os_MkdirAll_quiet|done]. }
  pose proof (quiet_ext _ _ _ _ (os_MkdirAll_quiet _ _) Hmk) as E1.
  apply bind_inv in Hrun as [(res & w3 & Hhead & Hrun)|(e & Hhead & ->)].
  2:{ left. eapply ext_trans; [exact E1|]. eapply quiet_ext; [|exact Hhead].
      by apply http_Head_emits. }
  assert (ext w2 w3) as E2 by (eapply quiet_ext; [|exact Hhead]; by apply http_Head_emits).
  destruct (StatusCode res =? 404)%Z eqn:H404.
  { left. inversion Hrun; subst. by eapply ext_trans. }
  destruct (StatusCode res =? 200)%Z eqn:H200; cbn [negb] in Hrun.
  2:{ left. inversion Hrun; subst. by eapply ext_trans. }
  apply bind_inv in Hrun as [([] & w4 & Hfetch & Hrun)|(e & Hfetch & ->)].
  2:{ left. eapply ext_trans; [exact E1|]. eapply ext_trans; [exact E2|].
      eapply quiet_ext; [apply install_fetch_quiet|done]. }
  pose proof (quiet_ext _ _ _ _ (install_fetch_quiet _ _ _) Hfetch) as E3.
  assert (ext w w4) as E4 by (eapply ext_trans; [exact E1|]; by eapply ext_trans).
  apply install_verify_unpack_run in Hrun
    as [[E5 _]|(-> & wantSHA & w5 & w6 & Hslurp & Hver & Hun & Etr & E6)].
  { left. by eapply ext_trans. }
  right. split; [done|]. split.
  - apply install_fetch_Ok_size in Hfetch as Hsz. destruct Hsz as (fi & Hfi & Hsz).
    exists w2, res, w3, w4, fi, wantSHA, w5, w6.
    apply Z.eqb_eq in H200. by repeat split.
  - destruct (ext_trans _ _ _ E4 E6) as (evs & E & _).
    eexists. rewrite Etr, E. by rewrite <- app_assoc.
Qed.

End Pipeline.

Lemma install_marker_last_witness :
  ∃ evs,
    trace (snd (@install linux_amd64 sdk_dir "go1.20.8" fresh_home))
    = trace fresh_home ++ evs ∧
    (OsWriteFile (filepath.Join [sdk_dir; unpackedOkay]) ∈ evs →
       @steps_succeeded linux_amd64 sdk_dir "go1.20.8" fresh_home) ∧
    (∀ e, fst (@install linux_amd64 sdk_dir "go1.20.8" fresh_home) = Err e →
          (∀ p, OsWriteFile p ∉ evs) ∧
          frame evs fresh_home (snd (@install linux_amd64 sdk_dir "go1.20.8" fresh_home))).
Proof.
  apply (@install_marker_last linux_amd64 sdk_dir "go1.20.8" fresh_home).
  destruct (@install linux_amd64 sdk_dir "go1.20.8" fresh_home). reflexivity.
Defined.

(** C4 fails.  The marker is a path like any other to the unpacker: a
    release that holds a member named like it puts the file there while it
    is unpacked.  Here the member is followed by a symbolic link, which the
    unpacker refuses: [install] returns the error of the unpack step, the
    marker is on disk all the same and the [go] command is not, and the
    next [install] takes the version for installed. *)
Theorem install_marker_premature :
  let '(r, w') := @install linux_marker sdk_dir "go1.20.8" fresh_home in
  r = Err (ErrorfWrap "extracting archive %v: %v" [Str release_file]
             (Errorf "tar file entry %s contained unsupported file type %v"
                [Str "go/link"; Str "Lrwxrwxrwx"])) ∧
  fs fresh_home !! filepath.Join [sdk_dir; unpackedOkay] = None ∧
  (∃ perm mtime, fs w' !! filepath.Join [sdk_dir; unpackedOkay] = Some (File "" perm mtime)) ∧
  fs w' !! filepath.Join [sdk_dir; "bin"; "go"] = None ∧
  filter (fun ev => touched ev = Some "/home/u/sdk/go1.20.8/.unpacked-success") (trace w')
  = [OsOpenFile "/home/u/sdk/go1.20.8/.unpacked-success";
     OsWrite "/home/u/sdk/go1.20.8/.unpacked-success";
     OsChtimes "/home/u/sdk/go1.20.8/.unpacked-success"] ∧
  @install linux_marker sdk_dir "go1.20.8" w'
  = (Ok tt, add_event w' (already sdk_dir "go1.20.8")).
Proof. vm_compute. repeat split. by eexists _, _. Qed.

(** A release whose digest does not match is not marked as installed. *)
Example install_bad_digest :
  let w := {| fs := home_tree; denied := ∅; max_file := None;
              net_Head := release_server;
              net_Get := fun url => if String.eqb url release_url
                                    then inr (ok_response "archive bytez")
                                    else release_server url;
              trace := [] |} in
  let '(r, w') := @install linux_amd64 sdk_dir "go1.20.8" w in
  r = Err (ErrorfWrap "error verifying SHA256 of %v: %v" [Str release_file]
             (corrupt release_file
                "cc9c340301ad4ba5e54aa24b442ff938d1ed84f7f32c4c5a73773c58af37bd1b")) ∧
  fs w' !! "/home/u/sdk/go1.20.8/.unpacked-success" = None.
Proof. vm_compute. repeat split. Qed.

Section Cache.
Context `{Host}.

(** Up to the probe: with no marker, the directory made and a probe that
    answers 200, [install] goes on with the archive. *)
Lemma install_probe targetDir version w w1 res :
  let goURL := versionArchiveURL version in
  let archiveFile := filepath.Join [targetDir; filepath.Base goURL] in
  (∀ fi, os_Stat (filepath.Join [targetDir; unpackedOkay]) w ≠ (Ok fi, w)) →
  os_MkdirAll targetDir 493 w = (Ok tt, w1) →
  net_Head w1 goURL = inr res → StatusCode res = 200%Z →
  install targetDir version w
  = (install_fetch goURL archiveFile res ;;
     install_verify_unpack targetDir version goURL archiveFile)
      (add_event w1 (HttpHead goURL)).
Proof.
  intros goURL archiveFile Hno Hmk Hhead H200. unfold install.
  destruct (os_Stat (filepath.Join [targetDir; unpackedOkay]) w) as [[fi|e0] w0] eqn:Hst.
  { pose proof (os_Stat_silent _ _ _ _ Hst) as ->. by destruct (Hno fi). }
  pose proof (os_Stat_silent _ _ _ _ Hst) as ->.
  rewrite (bind_Ok _ _ w (Err e0) w) by (unfold try; by rewrite Hst).
  rewrite (bind_Ok _ _ _ _ _ Hmk). fold goURL.
  rewrite (bind_Ok _ _ _ res (add_event w1 (HttpHead goURL)))
    by (unfold http_Head; by rewrite Hhead).
  rewrite H200. reflexivity.
Qed.

(** The archive is absent, or has another length than announced: it is
    fetched, looked at again, and its length compared. *)
Lemma fetch_download goURL archiveFile res (k : M unit) w2 :
  (∃ e, os_Stat archiveFile w2 = (Err e, w2) ∧ os_IsNotExist e = true) ∨
  (∃ fi, os_Stat archiveFile w2 = (Ok fi, w2) ∧ fi_Size fi ≠ ContentLength res) →
  (install_fetch goURL archiveFile res ;; k) w2 =
  match copyFromURL archiveFile goURL w2 with
  | (Err e, w3) => (Err (ErrorfWrap "error downloading %v: %v" [Str goURL] e), w3)
  | (Ok _, w3) =>
      match os_Stat archiveFile w3 with
      | (Ok fi, _) =>
          if (fi_Size fi =? ContentLength res)%Z then k w3
          else (Err (size_mismatch archiveFile (fi_Size fi) (ContentLength res)), w3)
      | (Err e, _) => (Err e, w3)
      end
  end.
Proof.
  intros Hstale. unfold install_fetch.
  assert (∃ st, try (os_Stat archiveFile) w2 = (Ok st, w2) ∧
                match st with
                | Err e => os_IsNotExist e = true
                | Ok fi => (fi_Size fi =? ContentLength res)%Z = false
                end) as (st & Htry & Hst).
  { destruct Hstale as [(e & Hs & He)|(fi & Hs & Hne)].
    - exists (Err e). unfold try. by rewrite Hs.
    - exists (Ok fi). unfold try. rewrite Hs. split; [done|]. by apply Z.eqb_neq. }
  unfold mbind at 1, M_bind at 1, bind at 1.
  rewrite (bind_Ok _ _ _ _ _ Htry). cbv zeta.
  assert (match st with Err _ => true | Ok fi => negb (fi_Size fi =? ContentLength res)%Z end
          = true) as ->.
  { destruct st; [by rewrite Hst|done]. }
  assert ((match st with
           | Ok _ => mret ()
           | Err err => if negb (os_IsNotExist err) then fail err else mret ()
           end : M unit) w2 = (Ok tt, w2)) as Hguard.
  { destruct st; [done|]. by rewrite Hst. }
  rewrite (bind_Ok _ _ _ _ _ Hguard).
  unfold wrap, mbind, M_bind, bind.
  destruct (copyFromURL archiveFile goURL w2) as [[[]|e] w3]; [|done].
  destruct (os_Stat archiveFile w3) as [[fi|e] w4] eqn:Hs3;
    pose proof (os_Stat_silent _ _ _ _ Hs3) as ->; [|done].
  unfold size_mismatch. by destruct (fi_Size fi =? ContentLength res)%Z.
Qed.

Lemma install_fetched targetDir version w w1 res :
  let goURL := versionArchiveURL version in
  let archiveFile := filepath.Join [targetDir; filepath.Base goURL] in
  let w2 := add_event w1 (HttpHead goURL) in
  (∀ fi, os_Stat (filepath.Join [targetDir; unpackedOkay]) w ≠ (Ok fi, w)) →
  os_MkdirAll targetDir 493 w = (Ok tt, w1) →
  net_Head w1 goURL = inr res → StatusCode res = 200%Z →
  (∃ e, os_Stat archiveFile w2 = (Err e, w2) ∧ os_IsNotExist e = true) ∨
  (∃ fi, os_Stat archiveFile w2 = (Ok fi, w2) ∧ fi_Size fi ≠ ContentLength res) →
  fetched targetDir version res w w2.
Proof.
  intros goURL archiveFile w2 Hno Hmk Hhead H200 Hstale. unfold fetched.
  fold goURL. fold archiveFile.
  rewrite (install_probe _ _ _ _ _ Hno Hmk Hhead H200). fold goURL archiveFile w2.
  rewrite (fetch_download _ _ _ _ _ Hstale).
  destruct (copyFromURL archiveFile goURL w2) as [[[]|e] w3] eqn:Hcp; [|done].
  destruct (os_Stat archiveFile w3) as [[fi|e] w4]; [|done].
  destruct (fi_Size fi =? ContentLength res)%Z; [done|]. split; [done|].
  apply ext_no_WriteFile.
  eapply ext_trans; [eapply quiet_ext; [apply os_MkdirAll_quiet|exact Hmk]|].
  eapply ext_trans; [|eapply quiet_ext; [apply copyFromURL_quiet|exact Hcp]].
  by apply ext_add_event.
Qed.

(** C5, as the code has it.  After a probe that answers 200, [install]
    looks at the archive file.  When it is there with exactly the announced
    length, [install] goes straight on to the digest with the file as it is.
    When it is absent or has another length, the archive is downloaded, the
    file looked at again, and a length other than the announced one is the
    size error, with no [os.WriteFile] completed.  When looking at the file
    fails for another reason than its absence, [install] returns that error
    at once, in the world the probe left. *)
Theorem install_archive_cache (targetDir version : string) (w w1 : World) (res : Response) :
  let goURL := versionArchiveURL version in
  let archiveFile := filepath.Join [targetDir; filepath.Base goURL] in
  let w2 := add_event w1 (HttpHead goURL) in
  (∀ fi, os_Stat (filepath.Join [targetDir; unpackedOkay]) w ≠ (Ok fi, w)) →
  os_MkdirAll targetDir 493 w = (Ok tt, w1) →
  net_Head w1 goURL = inr res → StatusCode res = 200%Z →
  match fst (os_Stat archiveFile w2) with
  | Ok fi =>
      if (fi_Size fi =? ContentLength res)%Z
      then install targetDir version w
           = install_verify_unpack targetDir version goURL archiveFile w2
      else fetched targetDir version res w w2
  | Err err =>
      if os_IsNotExist err then fetched targetDir version res w w2
      else install targetDir version w = (Err err, w2)
  end.
Proof.
  intros goURL archiveFile w2 Hno Hmk Hhead H200.
  destruct (os_Stat archiveFile w2) as [st w0] eqn:Hst.
  pose proof (os_Stat_silent _ _ _ _ Hst) as ->. cbn [fst].
  destruct st as [fi|err].
  - destruct (fi_Size fi =? ContentLength res)%Z eqn:Hsz.
    + rewrite (install_probe _ _ _ _ _ Hno Hmk Hhead H200). fold goURL archiveFile w2.
      unfold install_fetch. unfold mbind at 1, M_bind at 1, bind at 1.
      rewrite (bind_Ok _ _ w2 (Ok fi) w2) by (unfold try; by rewrite Hst).
      cbv zeta. by rewrite Hsz.
    + apply install_fetched; try done. right. exists fi. split; [done|]. by apply Z.eqb_neq.
  - destruct (os_IsNotExist err) eqn:Hne.
    + apply install_fetched; try done. left. eauto.
    + rewrite (install_probe _ _ _ _ _ Hno Hmk Hhead H200). fold goURL archiveFile w2.
      unfold install_fetch. unfold mbind at 1, M_bind at 1, bind at 1.
      rewrite (bind_Ok _ _ w2 (Err err) w2) by (unfold try; by rewrite Hst).
      cbv zeta. unfold mbind at 1, M_bind at 1, bind at 1. by rewrite Hne.
Qed.

End Cache.

Lemma install_archive_cache_witness :
  @fetched linux_amd64 sdk_dir "go1.20.8" (ok_response release_body) lying_home
    (add_event lying_home (HttpHead release_url)).
Proof.
  pose proof (@install_archive_cache linux_amd64 sdk_dir "go1.20.8" lying_home lying_home
                (ok_response release_body)) as Hc.
  cbv zeta in Hc.
  assert (∀ fi, @os_Stat linux_amd64 (filepath.Join [sdk_dir; unpackedOkay]) lying_home
                ≠ (Ok fi, lying_home)) as H1 by (intros fi; vm_compute; discriminate).
  assert (@os_MkdirAll linux_amd64 sdk_dir 493 lying_home = (Ok tt, lying_home)) as H2
    by (vm_compute; reflexivity).
  assert (net_Head lying_home (@versionArchiveURL linux_amd64 "go1.20.8")
          = inr (ok_response release_body)) as H3 by (vm_compute; reflexivity).
  assert (StatusCode (ok_response release_body) = 200%Z) as H4 by reflexivity.
  specialize (Hc H1 H2 H3 H4).
  destruct (fst _) as [fi|err] eqn:Hs in Hc; vm_compute in Hs; [discriminate|].
  injection Hs as <-. exact Hc.
Defined.

(** The size check: what the probe announced is not what arrived. *)
Example install_size_mismatch :
  let '(r, w') := @install linux_amd64 sdk_dir "go1.20.8" lying_home in
  r = Err (size_mismatch release_file 5 13) ∧
  fs w' !! "/home/u/sdk/go1.20.8/.unpacked-success" = None ∧
  trace w' = [HttpHead release_url; OsOpenFile release_file; HttpGet release_url;
              OsWrite release_file; Progress 5 (-1); OsClose release_file].
Proof. vm_compute. repeat split. Qed.

(** An archive of the announced length is kept: nothing is requested but the
    probe and the digest. *)
Example install_reuse :
  let w := {| fs := <[release_file := File release_body 438 None]> sdk_tree;
              denied := ∅; max_file := None;
              net_Head := release_server; net_Get := release_server; trace := [] |} in
  let '(r, w') := @install linux_amd64 sdk_dir "go1.20.8" w in
  r = Ok tt ∧
  firstn 3 (trace w') = [HttpHead release_url; HttpGet (release_url +:+ ".sha256");
                         Log "Unpacking %v ..." [Str release_file]].
Proof. vm_compute. repeat split. Qed.

(** C5 as stated fails: here the archive is not on disk, so it is not
    reused, and yet nothing is downloaded; the system refuses the look at the
    path, and [install] returns that error in the world the probe left. *)
Lemma install_stat_denied :
  fs locked_home !! release_file = None ∧
  @install linux_amd64 sdk_dir "go1.20.8" locked_home
  = (Err (PathError "stat" release_file EACCES),
     add_event locked_home (HttpHead release_url)).
Proof. split; vm_compute; reflexivity. Qed.

(** * Further properties *)

(** ** More on [dedupEnv] *)

Section DedupMore.
Context `{Host}.
Variable ci : bool.

Lemma fresh_keys_occurrences env : ∀ seen k,
  fresh_keys ci seen env → k ∈ seen → occurrences ci k env = [].
Proof.
  induction env as [|kv env IH]; intros seen k Hf Hk; [done|].
  cbn [fresh_keys] in Hf. destruct (env_key ci kv) as [k'|] eqn:Hkv.
  - destruct Hf as [Hk' Hf]. rewrite occurrences_cons_ne.
    + apply (IH ({[k']} ∪ seen)); [done|]. by apply elem_of_union_r.
    + rewrite Hkv. intros [= ->]. done.
  - rewrite occurrences_cons_ne by (rewrite Hkv; done). by apply (IH seen).
Qed.

Lemma fresh_keys_fixed env : ∀ seen,
  fresh_keys ci seen env → dedup_spec ci seen env = env.
Proof.
  induction env as [|kv env IH]; intros seen Hf; [done|].
  cbn [fresh_keys] in Hf. cbn [dedup_spec].
  destruct (env_key ci kv) as [k|] eqn:Hkv.
  - destruct Hf as [Hk Hf]. rewrite decide_False by done.
    rewrite winner_alone.
    + by rewrite IH.
    + apply (fresh_keys_occurrences _ _ _ Hf). apply elem_of_union_l. by apply elem_of_singleton.
  - by rewrite IH.
Qed.

Lemma dedup_spec_fresh env : ∀ seen, fresh_keys ci seen (dedup_spec ci seen env).
Proof.
  induction env as [|kv env IH]; intros seen; [done|]. cbn [dedup_spec].
  destruct (env_key ci kv) as [k|] eqn:Hkv.
  - destruct (decide (k ∈ seen)) as [Hin|Hnin]; [apply IH|].
    cbn [fresh_keys]. rewrite (winner_key ci k kv env Hkv). split; [done|apply IH].
  - cbn [fresh_keys]. rewrite Hkv. apply IH.
Qed.

Lemma fresh_keys_NoDup env : ∀ seen,
  fresh_keys ci seen env ↔
  NoDup (omap (env_key ci) env) ∧ ∀ k, k ∈ seen → k ∉ omap (env_key ci) env.
Proof.
  induction env as [|kv env IH]; intros seen.
  { cbn. split; [|done]. intros _. split; [constructor|]. intros k _. apply not_elem_of_nil. }
  change (omap (env_key ci) (kv :: env)) with
    (match env_key ci kv with
     | Some y => y :: omap (env_key ci) env
     | None => omap (env_key ci) env
     end).
  cbn [fresh_keys]. destruct (env_key ci kv) as [k|] eqn:Hkv.
  - rewrite IH. rewrite NoDup_cons. split.
    + intros (Hk & Hnd & Hseen). split; [split; [|done]|].
      * apply Hseen. apply elem_of_union_l. by apply elem_of_singleton.
      * intros k' Hk'. rewrite not_elem_of_cons. split.
        -- intros ->. done.
        -- apply Hseen. by apply elem_of_union_r.
    + intros ((Hk & Hnd) & Hseen). split; [|split; [done|]].
      * intros Hin. apply Hseen in Hin. apply Hin. by left.
      * intros k' [->%elem_of_singleton|Hk']%elem_of_union; [done|].
        apply Hseen in Hk'. by apply not_elem_of_cons in Hk' as [_ ?].
  - apply IH.
Qed.

Lemma dedup_spec_subset env : ∀ seen e, e ∈ dedup_spec ci seen env → e ∈ env.
Proof.
  induction env as [|kv env IH]; intros seen e; [done|]. cbn [dedup_spec].
  destruct (env_key ci kv) as [k|] eqn:Hkv.
  - destruct (decide (k ∈ seen)).
    + intros Hin. right. by apply (IH seen).
    + intros [->|Hin]%elem_of_cons.
      * unfold winner. destruct (last (occurrences ci k env)) as [x|] eqn:Hl; simpl.
        -- right. apply last_Some_elem_of in Hl. by apply list_elem_of_filter in Hl as [_ ?].
        -- by left.
      * right. by apply (IH _ _ Hin).
  - intros [->|Hin]%elem_of_cons; [by left|]. right. by apply (IH seen).
Qed.

Lemma dedup_spec_length env : ∀ seen, (length (dedup_spec ci seen env) ≤ length env)%nat.
Proof.
  induction env as [|kv env IH]; intros seen; [done|]. cbn [dedup_spec].
  destruct (env_key ci kv) as [k|].
  - destruct (decide (k ∈ seen)); simpl.
    + specialize (IH seen). lia.
    + specialize (IH ({[k]} ∪ seen)). lia.
  - simpl. specialize (IH seen). lia.
Qed.

End DedupMore.

(** X1.  [dedupEnv] is idempotent: de-duplicating its output changes
    nothing. *)
Theorem dedupEnv_idempotent `{Host} (caseInsensitive : bool) (env : list string) :
  dedupEnv caseInsensitive (dedupEnv caseInsensitive env) = dedupEnv caseInsensitive env.
Proof.
  rewrite !dedupEnv_spec. apply fresh_keys_fixed, dedup_spec_fresh.
Qed.

(** X2.  [dedupEnv] returns its input unchanged exactly when no key occurs
    twice in it. *)
Theorem dedupEnv_fixed_iff `{Host} (caseInsensitive : bool) (env : list string) :
  dedupEnv caseInsensitive env = env ↔ NoDup (omap (env_key caseInsensitive) env).
Proof.
  rewrite dedupEnv_spec. split.
  - intros Heq. pose proof (dedup_spec_fresh caseInsensitive env ∅) as Hf.
    rewrite Heq in Hf. by apply fresh_keys_NoDup in Hf as [? _].
  - intros Hnd. apply fresh_keys_fixed, fresh_keys_NoDup. split; [done|].
    intros k Hk. by apply not_elem_of_empty in Hk.
Qed.

(** X3.  [dedupEnv] never makes up an entry and never lengthens the list:
    every entry of the output is an entry of the input, and the output has
    at most as many entries. *)
Theorem dedupEnv_no_new_entries `{Host} (caseInsensitive : bool) (env : list string) :
  (∀ e, e ∈ dedupEnv caseInsensitive env → e ∈ env) ∧
  (length (dedupEnv caseInsensitive env) ≤ length env)%nat.
Proof.
  rewrite dedupEnv_spec. split.
  - intros e. apply dedup_spec_subset.
  - apply dedup_spec_length.
Qed.

(** ** More on [runGo] *)

Lemma env_key_GOROOT `{Host} ci (v : string) :
  env_key ci ("GOROOT=" +:+ v) = Some (if ci then ToLower "GOROOT" else "GOROOT").
Proof. destruct v; reflexivity. Qed.

(** The environment [runGo] builds, whatever the child does. *)
Lemma runGo_cmd_Env `{Host} root osArgs environ run :
  let p := os_Getenv environ "PATH" in
  let newPath := if negb (String.eqb p "")
                 then filepath.Join [root; "bin"] +:+ ListSeparator +:+ p
                 else filepath.Join [root; "bin"] in
  cmd_Env (fst (runGo root osArgs environ run))
  = dedupEnv caseInsensitiveEnv (environ ++ ["GOROOT=" +:+ root; "PATH=" +:+ newPath]).
Proof. intros p newPath. unfold runGo. fold p. fold newPath. by destruct (run _). Qed.

Lemma runGo_cmd_Args `{Host} root osArgs environ run :
  cmd_Args (fst (runGo root osArgs environ run))
  = filepath.Join [root; "bin"; "go" +:+ exe] :: tail osArgs.
Proof. unfold runGo. by destruct (run _). Qed.

(** X4.  Unless folding makes [GOROOT] and [PATH] one key, the environment
    of the child has exactly one entry for [GOROOT], and it is the
    installation directory, whatever [GOROOT] the wrapper inherited. *)
Theorem runGo_GOROOT_entry `{Host} (root : string) (osArgs environ : list string)
    (run : Cmd -> RunResult) :
  GOROOT_key ≠ PATH_key →
  occurrences caseInsensitiveEnv GOROOT_key (cmd_Env (fst (runGo root osArgs environ run)))
  = ["GOROOT=" +:+ root].
Proof.
  intros Hne. rewrite runGo_cmd_Env. cbv zeta.
  set (newPath := if negb _ then _ else _).
  rewrite dedupEnv_spec, dedup_spec_occurrences.
  rewrite decide_False by apply not_elem_of_empty.
  change [?g; ?e] with ([g] ++ [e]).
  rewrite !occurrences_app.
  rewrite (occurrences_cons_eq _ _ ("GOROOT=" +:+ root) []) by apply env_key_GOROOT.
  rewrite (occurrences_cons_ne _ _ ("PATH=" +:+ newPath) []).
  2:{ rewrite env_key_PATH. intros [= Heq]. apply Hne. symmetry. exact Heq. }
  change (occurrences _ _ []) with (@nil string).
  rewrite app_nil_r. by rewrite last_snoc.
Qed.

Lemma runGo_GOROOT_entry_witness :
  @occurrences windows_amd64 (@caseInsensitiveEnv windows_amd64) (@GOROOT_key windows_amd64)
    (cmd_Env (fst (@runGo windows_amd64 sdk_dir ["go1.20.8"; "version"]
                     ["GoRoot=C:\Go"; "Path=C:\Windows"] (fun _ => RunOk))))
  = ["GOROOT=" +:+ sdk_dir].
Proof.
  apply (@runGo_GOROOT_entry windows_amd64). vm_compute. discriminate.
Defined.

(** X5.  Everything else is handed on, for an [os.Args] that is not
    empty: the arguments after the program name, unchanged; every entry of
    [os.Environ()] without key; and for every key other than [GOROOT] and
    [PATH] the entry [os.Environ()] has for it and no other, which is the
    last one where that list has several for the key (on unix it never
    has: [os.Environ()] itself keeps one entry for a key). *)
Theorem runGo_passes_on `{Host} (root : string) (osArgs environ : list string)
    (run : Cmd -> RunResult) :
  osArgs ≠ [] →
  let cmd := fst (runGo root osArgs environ run) in
  (∃ prog, osArgs = prog :: tail (cmd_Args cmd)) ∧
  (∀ k, k ≠ GOROOT_key → k ≠ PATH_key →
        occurrences caseInsensitiveEnv k (cmd_Env cmd)
        = option_list (last (occurrences caseInsensitiveEnv k environ))) ∧
  filter (fun kv => env_key caseInsensitiveEnv kv = None) (cmd_Env cmd)
  = filter (fun kv => env_key caseInsensitiveEnv kv = None) environ.
Proof.
  intros Hargs cmd. unfold cmd. split.
  { rewrite runGo_cmd_Args. destruct osArgs as [|prog rest]; [done|]. by exists prog. }
  rewrite runGo_cmd_Env. cbv zeta. set (newPath := if negb _ then _ else _).
  rewrite dedupEnv_spec. split.
  - intros k Hg Hp. rewrite dedup_spec_occurrences.
    rewrite decide_False by apply not_elem_of_empty.
    rewrite occurrences_app.
    rewrite (occurrences_cons_ne _ _ ("GOROOT=" +:+ root)).
    2:{ rewrite env_key_GOROOT. intros [= Heq]. by apply Hg. }
    rewrite (occurrences_cons_ne _ _ ("PATH=" +:+ newPath)).
    2:{ rewrite env_key_PATH. intros [= Heq]. by apply Hp. }
    change (occurrences _ _ []) with (@nil string). by rewrite app_nil_r.
  - rewrite dedup_spec_keyless. rewrite filter_app.
    rewrite !filter_cons, filter_nil.
    rewrite decide_False by (rewrite env_key_GOROOT; done).
    rewrite decide_False by (rewrite env_key_PATH; done).
    by rewrite app_nil_r.
Qed.

Lemma runGo_passes_on_witness :
  (∃ prog, ["go1.20.8"; "env"; "GOROOT"]
           = prog :: tail (cmd_Args (fst (@runGo linux_amd64 sdk_dir
                                            ["go1.20.8"; "env"; "GOROOT"]
                                            ["HOME=/home/u"; "LANG=C"; "PATH=/usr/bin"]
                                            (fun _ => RunOk))))) ∧
  @occurrences linux_amd64 (@caseInsensitiveEnv linux_amd64) "HOME"
    (cmd_Env (fst (@runGo linux_amd64 sdk_dir ["go1.20.8"; "env"; "GOROOT"]
                     ["HOME=/home/u"; "LANG=C"; "PATH=/usr/bin"] (fun _ => RunOk))))
  = ["HOME=/home/u"].
Proof.
  destruct (@runGo_passes_on linux_amd64 sdk_dir ["go1.20.8"; "env"; "GOROOT"]
              ["HOME=/home/u"; "LANG=C"; "PATH=/usr/bin"] (fun _ => RunOk))
    as (Hargs & Hkeys & _).
  - discriminate.
  - split; [exact Hargs|]. rewrite Hkeys.
    + reflexivity.
    + vm_compute. discriminate.
    + vm_compute. discriminate.
Defined.

(** ** [goroot] and [Run] *)

Section Entry.
Context `{Host}.

(** X6.  A non-empty [GOPATH] decides the installation directory,
    whatever the home directory is.  [goroot] fails exactly when [GOPATH] is
    empty or unset and no home directory is found: on plan9 always, on
    windows when [USERPROFILE] is empty, elsewhere when [HOME] is empty and
    the user database gives no home directory either. *)
Theorem goroot_root (version : string) (pr : Process) :
  (os_Getenv (proc_Environ pr) "GOPATH" ≠ "" →
   goroot version pr
   = Ok (filepath.Join [os_Getenv (proc_Environ pr) "GOPATH"; "sdk"; version])) ∧
  ((∃ err, goroot version pr = Err err) ↔
   os_Getenv (proc_Environ pr) "GOPATH" = "" ∧
   (GOOS = "plan9" ∨
    (GOOS = "windows" ∧ os_Getenv (proc_Environ pr) "USERPROFILE" = "") ∨
    (GOOS ≠ "plan9" ∧ GOOS ≠ "windows" ∧ os_Getenv (proc_Environ pr) "HOME" = "" ∧
     ∀ home, proc_UserHome pr = inr home → home = ""))).
Proof.
  split.
  { intros Hg. unfold goroot. cbv zeta. apply String.eqb_neq in Hg. by rewrite Hg. }
  unfold goroot, homedir, getOS. cbv zeta.
  destruct (String.eqb_spec (os_Getenv (proc_Environ pr) "GOPATH") "") as [Hg|Hg]; cbn [negb].
  2:{ split; [intros [err [=]]|]. by intros [? _]. }
  destruct (String.eqb_spec GOOS "plan9") as [Hp|Hp].
  { split; [|eauto]. intros _. split; [done|]. by left. }
  destruct (String.eqb_spec GOOS "windows") as [Hw|Hw].
  { destruct (String.eqb_spec (os_Getenv (proc_Environ pr) "USERPROFILE") "") as [Hu|Hu];
      cbn [negb].
    - split; [|eauto]. intros _. split; [done|]. right. by left.
    - split; [intros [err [=]]|]. intros [_ [?|[[_ ?]|(_ & ? & _)]]]; done. }
  destruct (String.eqb_spec (os_Getenv (proc_Environ pr) "HOME") "") as [Hh|Hh]; cbn [negb].
  2:{ split; [intros [err [=]]|]. intros [_ [?|[[? _]|(_ & _ & ? & _)]]]; done. }
  destruct (proc_UserHome pr) as [e|home].
  { split; [|eauto]. intros _. split; [done|]. right. right. by repeat split. }
  destruct (String.eqb_spec home "") as [He|He]; cbn [negb].
  - split; [|eauto]. intros _. split; [done|]. right. right. repeat split; try done.
    by intros ? [= <-].
  - split; [intros [err [=]]|]. intros [_ [?|[[? _]|(_ & _ & _ & Hx)]]]; try done.
    by specialize (Hx home eq_refl).
Qed.

Lemma goroot_same version pr1 pr2 :
  proc_Environ pr1 = proc_Environ pr2 → proc_UserHome pr1 = proc_UserHome pr2 →
  goroot version pr1 = goroot version pr2.
Proof. intros He Hu. unfold goroot, homedir. by rewrite He, Hu. Qed.

(** X7.  With the single argument "download" the child plays no part:
    [Run] ends the same way whatever the child would do, never by running
    it, and exits with status 0 exactly when the installation directory is
    found and [install] returns [nil]. *)
Theorem Run_download (version : string) (pr : Process) (run run' : Cmd -> RunResult)
    (w : World) :
  is_download (proc_Args pr) = true →
  Run version pr run w = Run version pr run' w ∧
  (∀ cmd status, fst (Run version pr run w) ≠ Child cmd status) ∧
  (exit_status (fst (Run version pr run w)) = 0%Z ↔
   ∃ root w', goroot version pr = Ok root ∧ install root version w = (Ok tt, w')).
Proof.
  intros Hd. unfold Run. rewrite Hd.
  destruct (goroot version pr) as [root|err].
  2:{ split; [done|]. split; [done|]. split; [done|]. by intros (? & ? & [=] & _). }
  destruct (install root version w) as [[[]|e] w'] eqn:Hi.
  - split; [done|]. split; [done|]. split; [|done]. intros _. by exists root, w'.
  - split; [done|]. split; [done|]. split; [done|].
    intros (root' & w'' & [= <-] & Hi'). rewrite Hi in Hi'. done.
Qed.


(** X9.  Download, then use: after a [Run] with "download" that ended
    with [os.Exit(0)], a [Run] of the same version in the same environment
    with any other arguments runs the child with the command [runGo]
    builds, and its exit status is the child's exit code when the child
    ends with one. *)
Theorem Run_after_download (version : string) (pr pr' : Process)
    (run0 run : Cmd -> RunResult) (w w' : World) :
  is_download (proc_Args pr) = true →
  Run version pr run0 w = (ExitOk, w') →
  proc_Environ pr' = proc_Environ pr → proc_UserHome pr' = proc_UserHome pr →
  is_download (proc_Args pr') = false →
  ∃ root,
    goroot version pr' = Ok root ∧
    Run version pr' run w'
    = (Child (fst (runGo root (proc_Args pr') (proc_Environ pr') run))
             (snd (runGo root (proc_Args pr') (proc_Environ pr') run)), w') ∧
    ∀ code, run (fst (runGo root (proc_Args pr') (proc_Environ pr') run))
            = RunExitError (Exited code) →
            exit_status (fst (Run version pr' run w')) = code.
Proof.
  intros Hd Hrun He Hu Hd'. unfold Run in Hrun. rewrite Hd in Hrun.
  destruct (goroot version pr) as [root|err] eqn:Hg; [|done].
  destruct (install root version w) as [[[]|e] w1] eqn:Hi; [|done].
  inversion Hrun; subst w1. clear Hrun.
  apply install_Ok_marks in Hi as [fi Hfi].
  exists root. rewrite (goroot_same version pr' pr He Hu). split; [done|].
  assert (Run version pr' run w'
          = (Child (fst (runGo root (proc_Args pr') (proc_Environ pr') run))
                   (snd (runGo root (proc_Args pr') (proc_Environ pr') run)), w')) as HR.
  { unfold Run. rewrite Hd', (goroot_same version pr' pr He Hu), Hg, Hfi.
    by destruct (runGo _ _ _ _). }
  split; [done|]. intros code. rewrite HR. cbn [fst exit_status].
  unfold runGo. cbv zeta. set (cmd := Build_Cmd _ _ _).
  destruct (run cmd) as [|[c|sig]|err] eqn:Hrun; cbn [fst snd]; rewrite Hrun; try done.
  by intros [= ->].
Qed.

End Entry.

Lemma goroot_root_witness :
  @goroot linux_amd64 "go1.20.8"
    {| proc_Args := ["go1.20.8"]; proc_Environ := ["GOPATH=/gp"];
       proc_UserHome := inl (ErrorString "user: unknown userid 1000") |}
  = Ok "/gp/sdk/go1.20.8".
Proof.
  apply (proj1 (@goroot_root linux_amd64 "go1.20.8"
                  {| proc_Args := ["go1.20.8"]; proc_Environ := ["GOPATH=/gp"];
                     proc_UserHome := inl (ErrorString "user: unknown userid 1000") |})).
  vm_compute. discriminate.
Defined.

Lemma Run_download_witness :
  @Run linux_amd64 "go1.20.8" (user_u ["go1.20.8"; "download"]) (fun _ => RunOk) fresh_home
  = @Run linux_amd64 "go1.20.8" (user_u ["go1.20.8"; "download"])
      (fun _ => RunError (ErrorString "exec format error")) fresh_home.
Proof.
  apply (proj1 (@Run_download linux_amd64 "go1.20.8" (user_u ["go1.20.8"; "download"])
                  (fun _ => RunOk) (fun _ => RunError (ErrorString "exec format error"))
                  fresh_home eq_refl)).
Defined.


Lemma Run_after_download_witness :
  let w' := snd (@install linux_amd64 sdk_dir "go1.20.8" fresh_home) in
  ∃ root,
    @goroot linux_amd64 "go1.20.8" (user_u ["go1.20.8"; "build"; "./..."]) = Ok root ∧
    @Run linux_amd64 "go1.20.8" (user_u ["go1.20.8"; "build"; "./..."])
      (fun _ => RunExitError (Exited 2)) w'
    = (Child (fst (@runGo linux_amd64 root ["go1.20.8"; "build"; "./..."]
                     (proc_Environ (user_u ["go1.20.8"; "build"; "./..."]))
                     (fun _ => RunExitError (Exited 2))))
             (snd (@runGo linux_amd64 root ["go1.20.8"; "build"; "./..."]
                     (proc_Environ (user_u ["go1.20.8"; "build"; "./..."]))
                     (fun _ => RunExitError (Exited 2)))), w') ∧
    ∀ code, (fun _ : Cmd => RunExitError (Exited 2))
              (fst (@runGo linux_amd64 root ["go1.20.8"; "build"; "./..."]
                      (proc_Environ (user_u ["go1.20.8"; "build"; "./..."]))
                      (fun _ => RunExitError (Exited 2))))
            = RunExitError (Exited code) →
            exit_status (fst (@Run linux_amd64 "go1.20.8"
                                (user_u ["go1.20.8"; "build"; "./..."])
                                (fun _ => RunExitError (Exited 2)) w')) = code.
Proof.
  intros w'.
  apply (@Run_after_download linux_amd64 "go1.20.8" (user_u ["go1.20.8"; "download"])
           (user_u ["go1.20.8"; "build"; "./..."]) (fun _ => RunOk)
           (fun _ => RunExitError (Exited 2)) fresh_home w').
  - reflexivity.
  - vm_compute. reflexivity.
  - reflexivity.
  - reflexivity.
  - reflexivity.
Defined.

(** ** The progress writer *)

Lemma ndigits_loop_spec (fuel : nat) : ∀ i n,
  (Z.abs i < 2 ^ Z.of_nat fuel)%Z →
  ∃ d, ndigits_loop fuel i n = (n + d)%Z ∧
       ((i = 0 ∧ d = 0) ∨ (i ≠ 0 ∧ 0 < d ∧ 10 ^ (d - 1) ≤ Z.abs i < 10 ^ d))%Z.
Proof.
  induction fuel as [|fuel IH]; intros i n Hi.
  { exists 0%Z. cbn [ndigits_loop]. split; [lia|]. left. split; [|done].
    change (2 ^ Z.of_nat 0)%Z with 1%Z in Hi. lia. }
  cbn [ndigits_loop]. destruct (Z.eqb_spec i 0) as [->|Hne].
  { exists 0%Z. split; [lia|]. by left. }
  assert (Z.abs (Z.quot i 10) = Z.abs i / 10)%Z as Hq.
  { rewrite <- Z.quot_abs by lia. change (Z.abs 10) with 10%Z.
    apply Z.quot_div_nonneg; lia. }
  assert (Z.abs i < 2 * 2 ^ Z.of_nat fuel)%Z as Hi'.
  { rewrite Nat2Z.inj_succ, Z.pow_succ_r in Hi by lia. exact Hi. }
  destruct (IH (Z.quot i 10) (n + 1)%Z) as (d & -> & Hd).
  { rewrite Hq. apply Z.div_lt_upper_bound; lia. }
  exists (1 + d)%Z. split; [lia|]. right. split; [done|].
  pose proof (Z.div_mod (Z.abs i) 10 ltac:(lia)) as Hdm.
  pose proof (Z.mod_pos_bound (Z.abs i) 10 ltac:(lia)) as Hm.
  destruct Hd as [[Hz ->]|(Hnz & Hpos & Hlo & Hhi)].
  - assert (Z.abs i / 10 = 0)%Z as Hz' by (rewrite <- Hq, Hz; done).
    change (10 ^ (1 + 0 - 1))%Z with 1%Z. change (10 ^ (1 + 0))%Z with 10%Z. lia.
  - rewrite Hq in Hlo, Hhi.
    replace (1 + d - 1)%Z with (Z.succ (d - 1)) by lia.
    replace (1 + d)%Z with (Z.succ d) by lia.
    rewrite !Z.pow_succ_r by lia. lia.
Qed.

(** X10.  [ndigits] counts decimal digits: 0 has none, and every other
    [i], negative ones too, has [ndigits i] of them, the sign not counted. *)
Theorem ndigits_decimal (i : Z) :
  (ndigits 0 = 0 ∧
   (i ≠ 0 → 0 < ndigits i ∧ 10 ^ (ndigits i - 1) ≤ Z.abs i < 10 ^ ndigits i))%Z.
Proof.
  split; [reflexivity|]. intros Hne. unfold ndigits.
  destruct (ndigits_loop_spec (S (Z.to_nat (Z.log2 (Z.abs i)))) i 0) as (d & -> & Hd).
  { rewrite Nat2Z.inj_succ, Z2Nat.id by apply Z.log2_nonneg.
    apply Z.log2_spec. lia. }
  destruct Hd as [[? _]|(_ & ? & ?)]; [done|]. rewrite Z.add_0_l. done.
Qed.

Lemma ndigits_decimal_witness :
  (0 < ndigits (-1234) ∧ 10 ^ (ndigits (-1234) - 1) ≤ Z.abs (-1234) < 10 ^ ndigits (-1234))%Z.
Proof. apply (proj2 (ndigits_decimal (-1234))). lia. Defined.

Lemma pw_Write_fields p n now :
  let p' := fst (pw_Write p n now) in
  pw_n p' = (pw_n p + n)%Z ∧ pw_total p' = pw_total p ∧
  pw_formatted p' = pw_formatted p ∧ pw_last p' = now.
Proof.
  unfold pw_Write. cbn [pw_n pw_total pw_last pw_formatted].
  destruct (Z.eqb_spec now (pw_last p)) as [Heq|Hne];
    cbn [negb fst pw_n pw_total pw_last pw_formatted]; repeat split; congruence.
Qed.

Lemma pw_Write_lines p n now :
  snd (pw_Write p n now)
  = if (now =? pw_last p)%Z then []
    else [update {| pw_n := pw_n p + n; pw_total := pw_total p; pw_last := pw_last p;
                    pw_formatted := pw_formatted p |}].
Proof.
  unfold pw_Write. cbn [pw_n pw_total pw_last pw_formatted].
  by destruct (now =? pw_last p)%Z.
Qed.

Lemma pw_Writes_cons p n now rest :
  pw_Writes p ((n, now) :: rest)
  = (fst (pw_Writes (fst (pw_Write p n now)) rest),
     snd (pw_Write p n now) ++ snd (pw_Writes (fst (pw_Write p n now)) rest)).
Proof.
  cbn [pw_Writes]. destruct (pw_Write p n now) as [p1 l1].
  cbn [fst snd]. by destruct (pw_Writes p1 rest) as [p2 l2].
Qed.

(** X11.  Across any sequence of [Write] calls the writer counts every
    byte the file accepted, keeps the announced total and the format it
    started with, and remembers the second of the last call. *)
Theorem pw_Writes_count (p : progressWriter) (calls : list (Z * Z)) :
  let p' := fst (pw_Writes p calls) in
  pw_n p' = (pw_n p + foldr Z.add 0 (map fst calls))%Z ∧
  pw_total p' = pw_total p ∧ pw_formatted p' = pw_formatted p ∧
  pw_last p' = default (pw_last p) (last (map snd calls)).
Proof.
  revert p. induction calls as [|[n now] rest IH]; intros p.
  { cbn. repeat split; lia. }
  cbv zeta. rewrite pw_Writes_cons. cbn [fst].
  destruct (IH (fst (pw_Write p n now))) as (Hn & Ht & Hf & Hl).
  destruct (pw_Write_fields p n now) as (Hn1 & Ht1 & Hf1 & Hl1).
  rewrite Hn, Ht, Hf, Hl, Hn1, Ht1, Hf1, Hl1. cbn [map foldr fst snd].
  repeat split; [lia|]. rewrite last_cons. by destruct (last (map snd rest)).
Qed.

(** X12.  With a clock that does not run backwards the writer prints at
    most one line in each second: from the first [Write] to the last it
    prints no more lines than seconds have begun. *)
Theorem pw_Writes_rate (p : progressWriter) (n now : Z) (rest : list (Z * Z)) :
  Sorted Z.le (now :: map snd rest) →
  (Z.of_nat (length (snd (pw_Writes p ((n, now) :: rest))))
   ≤ 1 + (pw_last (fst (pw_Writes p ((n, now) :: rest))) - now))%Z.
Proof.
  assert (∀ calls q, Sorted Z.le (pw_last q :: map snd calls) →
            (Z.of_nat (length (snd (pw_Writes q calls)))
             ≤ pw_last (fst (pw_Writes q calls)) - pw_last q)%Z) as Hgen.
  { induction calls as [|[m t] calls IH]; intros q Hs.
    { cbn. lia. }
    rewrite pw_Writes_cons. cbn [fst snd]. rewrite length_app, Nat2Z.inj_add.
    destruct (pw_Write_fields q m t) as (_ & _ & _ & Hl).
    cbn [map snd] in Hs. apply Sorted_inv in Hs as [Hs Hhd].
    apply HdRel_inv in Hhd.
    specialize (IH (fst (pw_Write q m t))). rewrite Hl in IH. specialize (IH Hs).
    rewrite pw_Write_lines. destruct (Z.eqb_spec t (pw_last q)) as [->|Hne].
    - cbn [length]. lia.
    - cbn [length]. lia. }
  intros Hs. rewrite pw_Writes_cons. cbn [fst snd]. rewrite length_app, Nat2Z.inj_add.
  destruct (pw_Write_fields p n now) as (_ & _ & _ & Hl).
  specialize (Hgen rest (fst (pw_Write p n now))). rewrite Hl in Hgen.
  specialize (Hgen Hs). rewrite pw_Write_lines.
  destruct (now =? pw_last p)%Z; cbn [length]; lia.
Qed.

Lemma pw_Writes_rate_witness :
  (Z.of_nat (length (snd (pw_Writes
      {| pw_n := 0; pw_total := 100; pw_last := zero_time_Unix; pw_formatted := false |}
      [(10, 7); (10, 7); (30, 7); (50, 8)]%Z)))
   ≤ 1 + (pw_last (fst (pw_Writes
      {| pw_n := 0; pw_total := 100; pw_last := zero_time_Unix; pw_formatted := false |}
      [(10, 7); (10, 7); (30, 7); (50, 8)]%Z)) - 7))%Z.
Proof.
  apply (pw_Writes_rate
           {| pw_n := 0; pw_total := 100; pw_last := zero_time_Unix; pw_formatted := false |}
           10 7 [(10, 7); (30, 7); (50, 8)]%Z).
  cbn [map snd]. repeat constructor; lia.
Defined.

Lemma pw_Writes_grows (calls : list (Z * Z)) : ∀ p,
  Forall (fun c => 0 ≤ fst c)%Z calls → (pw_n p ≤ pw_n (fst (pw_Writes p calls)))%Z.
Proof.
  induction calls as [|[m t] calls IH]; intros p Hpos; [cbn; lia|].
  apply Forall_cons in Hpos as [Hm Hpos]. cbn [fst] in Hm.
  rewrite pw_Writes_cons. cbn [fst].
  destruct (pw_Write_fields p m t) as (Hn1 & _).
  specialize (IH (fst (pw_Write p m t)) Hpos). lia.
Qed.

(** X13.  A writer that starts unformatted, as the one [copyFromURL]
    creates, prints every line in the byte format, the count padded to the
    width of the total: [fmtSize] is never called.  Each line shows a count
    between the one the writer started with and the one it ends with when no
    [Write] reports a negative count. *)
Theorem pw_Writes_lines (p : progressWriter) (calls : list (Z * Z)) :
  pw_formatted p = false →
  Forall (fun c => 0 ≤ fst c)%Z calls →
  Forall (fun l => ∃ n ending,
            l = LineBytes (ndigits (pw_total p)) n (pw_total p) ending ∧
            (pw_n p ≤ n ≤ pw_n (fst (pw_Writes p calls)))%Z)
         (snd (pw_Writes p calls)).
Proof.
  revert p. induction calls as [|[m t] calls IH]; intros p Hf Hpos.
  { constructor. }
  apply Forall_cons in Hpos as [Hm Hpos]. cbn [fst] in Hm.
  rewrite pw_Writes_cons. cbn [fst snd].
  destruct (pw_Write_fields p m t) as (Hn1 & Ht1 & Hf1 & _).
  pose proof (pw_Writes_grows calls (fst (pw_Write p m t)) Hpos) as Hn2.
  apply Forall_app. split.
  - rewrite pw_Write_lines. destruct (t =? pw_last p)%Z; constructor; [|constructor].
    unfold update. cbn [pw_n pw_total pw_formatted]. rewrite Hf.
    eexists _, _. split; [reflexivity|]. lia.
  - specialize (IH (fst (pw_Write p m t))). rewrite Hf1, Ht1 in IH.
    specialize (IH Hf Hpos). eapply Forall_impl; [exact IH|].
    intros l (k & e & -> & Hk). exists k, e. split; [done|]. lia.
Qed.

Lemma pw_Writes_lines_witness :
  Forall (fun l => ∃ n ending,
            l = LineBytes (ndigits 100) n 100 ending ∧
            (0 ≤ n ≤ pw_n (fst (pw_Writes
               {| pw_n := 0; pw_total := 100; pw_last := zero_time_Unix;
                  pw_formatted := false |} [(40, 7); (60, 9)]%Z)))%Z)
         (snd (pw_Writes
                 {| pw_n := 0; pw_total := 100; pw_last := zero_time_Unix;
                    pw_formatted := false |} [(40, 7); (60, 9)]%Z)).
Proof.
  apply (pw_Writes_lines
           {| pw_n := 0; pw_total := 100; pw_last := zero_time_Unix; pw_formatted := false |}
           [(40, 7); (60, 9)]%Z).
  - reflexivity.
  - repeat constructor; cbn; lia.
Defined.

(** ** A download that succeeds *)

(** What a successful [os.OpenFile] leaves: the file, empty. *)
Lemma os_OpenFile_Ok p perm w w1 :
  os_OpenFile p perm w = (Ok tt, w1) →
  is_denied w p = false ∧
  ∃ perm' mtime,
    w1 = add_event (set_fs w (<[p := File "" perm' mtime]> (fs w))) (OsOpenFile p).
Proof.
  unfold os_OpenFile. destruct (is_denied w p); [done|]. intros Hopen.
  split; [done|].
  apply bind_inv in Hopen as [([] & w3 & Hpar & Hopen)|(e & _ & [=])].
  apply check_parent_silent in Hpar as ->. unfold open_trunc, update_fs in Hopen.
  destruct (lookup_node w p) as [[d pm mt|]|]; inversion Hopen; subst; eauto.
Qed.

(** X14.  When [copyFromURL] returns [nil], the server answered the one
    GET it sent with status 200 and a body that was read to its end; the
    destination holds exactly that body, of the length the response
    announced if it announced one; and nothing else in the file system has
    changed. *)
Theorem copyFromURL_stores_body (dstFile srcURL : string) (w w' : World) :
  copyFromURL dstFile srcURL w = (Ok tt, w') →
  ∃ res perm mtime,
    net_Get w srcURL = inr res ∧ StatusCode res = 200%Z ∧ BodyErr res = None ∧
    (ContentLength res = (-1)%Z ∨
     ContentLength res = Z.of_nat (String.length (Body res))) ∧
    fs w' = <[dstFile := File (Body res) perm mtime]> (fs w) ∧
    trace w' = trace w ++ [OsOpenFile dstFile; HttpGet srcURL; OsWrite dstFile;
                           Progress (Z.of_nat (String.length (Body res)))
                             (ContentLength res);
                           OsClose dstFile].
Proof.
  unfold copyFromURL. intros Hrun.
  destruct (os_Create dstFile w) as [[[]|e] w1] eqn:Hcreate; [|done].
  apply os_OpenFile_Ok in Hcreate as (_ & perm & mtime & ->).
  destruct (copyFromURL_body _ _ _) as [[[]|e] w2] eqn:Hbody.
  2:{ destruct (os_Close _ _) as [? w3]. by destruct (os_Remove _ _). }
  inversion Hrun; subst w2. clear Hrun.
  unfold copyFromURL_body in Hbody.
  apply bind_inv in Hbody as [(res & w2 & Hget & Hbody)|(e & _ & [=])].
  unfold http_Get in Hget. cbn [net_Get add_event set_fs] in Hget.
  destruct (net_Get w srcURL) as [err|res0] eqn:Hnet; [done|].
  inversion Hget; subst res0 w2. clear Hget.
  destruct (StatusCode res =? 200)%Z eqn:Hst; cbn [negb] in Hbody; [|done].
  apply bind_inv in Hbody as [([n err] & w3 & Hcp & Hbody)|(e & _ & [=])].
  destruct err as [e|]; [done|].
  unfold io_Copy, file_Write in Hcp. cbn [fs add_event set_fs max_file] in Hcp.
  rewrite lookup_insert_eq in Hcp.
  destruct (_ <=? _)%nat; [|done].
  destruct (BodyErr res) as [e|] eqn:Hberr; [done|].
  inversion Hcp; subst n w3. clear Hcp.
  exists res, perm, mtime. split; [done|]. split; [by apply Z.eqb_eq|]. split; [done|].
  destruct (negb (ContentLength res =? -1)%Z && negb (ContentLength res =? _)%Z) eqn:Hlen;
    [done|].
  apply bind_inv in Hbody as [([] & w4 & Hem & Hbody)|(e & _ & [=])].
  inversion Hem; subst w4. inversion Hbody; subst w'. clear Hem Hbody.
  split.
  { apply andb_false_iff in Hlen as [Hl|Hl]; apply negb_false_iff, Z.eqb_eq in Hl; auto. }
  cbn. split; [by rewrite insert_insert_eq|]. by rewrite <- !app_assoc.
Qed.

Lemma copyFromURL_stores_body_witness :
  ∃ res perm mtime,
    net_Get fresh_home release_url = inr res ∧ StatusCode res = 200%Z ∧ BodyErr res = None ∧
    (ContentLength res = (-1)%Z ∨
     ContentLength res = Z.of_nat (String.length (Body res))) ∧
    fs (snd (copyFromURL "/home/u/go.tgz" release_url fresh_home))
    = <["/home/u/go.tgz" := File (Body res) perm mtime]> (fs fresh_home) ∧
    trace (snd (copyFromURL "/home/u/go.tgz" release_url fresh_home))
    = trace fresh_home ++ [OsOpenFile "/home/u/go.tgz"; HttpGet release_url;
                           OsWrite "/home/u/go.tgz";
                           Progress (Z.of_nat (String.length (Body res)))
                             (ContentLength res);
                           OsClose "/home/u/go.tgz"].
Proof.
  apply (copyFromURL_stores_body "/home/u/go.tgz" release_url fresh_home).
  vm_compute. reflexivity.
Defined.

(** ** What each call may emit, for any property of events *)

Section Footprint.
Context `{Host}.
Variable P : event -> Prop.

Lemma os_Mkdir_emits p perm : P (OsMkdir p) → emits P (os_Mkdir p perm).
Proof.
  intros HP w r w'. unfold os_Mkdir. destruct (is_denied w p); [stays|].
  destruct (lookup_node w p); [stays|].
  revert w r w'.
  change (emits P (check_parent "mkdir" p ;; update_fs (insert p (Dir perm)) (OsMkdir p))).
  apply emits_bind; [apply silent_emits, check_parent_silent|]. intros _.
  by apply emits_insert.
Qed.

Lemma mkdirAll_emits chain perm :
  Forall (fun q => P (OsMkdir q)) chain → emits P (mkdirAll chain perm).
Proof.
  induction chain as [|p parents IH]; intros HP; cbn [mkdirAll]; [apply emits_ret|].
  apply Forall_cons in HP as [Hp Hparents].
  apply emits_bind; [apply emits_try, silent_emits, os_Stat_silent|]. intros [dir|e].
  - destruct (fi_IsDir dir); [apply emits_ret|apply emits_fail].
  - apply emits_bind; [by apply IH|]. intros _.
    apply emits_bind; [by apply emits_try, os_Mkdir_emits|]. intros [?|err]; [apply emits_ret|].
    apply emits_bind; [apply emits_try, silent_emits, os_Stat_silent|].
    intros [dir1|?]; [|apply emits_fail].
    destruct (fi_IsDir dir1); [apply emits_ret|apply emits_fail].
Qed.

Lemma os_MkdirAll_emits p perm :
  (∀ q, q ∈ lineage (S (String.length p)) p → P (OsMkdir q)) →
  emits P (os_MkdirAll p perm).
Proof. intros HP. apply mkdirAll_emits. by apply Forall_forall. Qed.

Lemma os_OpenFile_emits p perm : P (OsOpenFile p) → emits P (os_OpenFile p perm).
Proof.
  intros HP w r w'. unfold os_OpenFile. destruct (is_denied w p); [stays|].
  revert w r w'. change (emits P (check_parent "open" p ;; open_trunc p perm)).
  apply emits_bind; [apply silent_emits, check_parent_silent|]. intros _.
  intros w r w'. unfold open_trunc.
  destruct (lookup_node w p) as [[]|]; revert w r w'.
  - change (emits P (update_fs (insert p (File "" perm0 mtime)) (OsOpenFile p))).
    by apply emits_insert.
  - change (emits P (@fail unit (PathError "open" p EISDIR))). apply emits_fail.
  - change (emits P (update_fs (insert p (File "" perm None)) (OsOpenFile p))).
    by apply emits_insert.
Qed.

Lemma file_Write_emits p buf w :
  P (OsWrite p) →
  ∃ evs, trace (snd (file_Write p buf w)) = trace w ++ evs ∧
         Forall P evs ∧ frame evs w (snd (file_Write p buf w)).
Proof.
  intros HP. unfold file_Write. destruct (fs w !! p) as [[data perm mtime|]|];
    [|apply emits_nothing..].
  destruct (_ <=? _)%nat; exists [OsWrite p]; (split; [done|]);
    (split; [by constructor|]); intros q Hq; cbn;
    apply lookup_insert_ne; intros Heq;
    (apply (Hq (OsWrite p)); [by apply list_elem_of_singleton|by rewrite Heq]).
Qed.

Lemma io_Copy_emits dst data rerr : P (OsWrite dst) → emits P (io_Copy dst data rerr).
Proof.
  intros HP w r w'. unfold io_Copy.
  pose proof (file_Write_emits dst data w HP) as Ht.
  destruct (file_Write dst data w) as [[n werr] w1]. simpl in Ht.
  destruct werr; by intros [= <- <-].
Qed.

Lemma os_Close_emits p : P (OsClose p) → emits P (os_Close p).
Proof. intros HP. unfold os_Close. by apply emits_emit. Qed.

Lemma os_Remove_emits p : P (OsRemove p) → emits P (os_Remove p).
Proof.
  intros HP w r w'. unfold os_Remove. destruct (is_denied w p); [stays|].
  destruct (fs w !! p) as [[]|]; [| |stays].
  - revert w r w'. change (emits P (update_fs (delete p) (OsRemove p))).
    by apply emits_delete.
  - destruct (has_child _ _); [stays|].
    revert w r w'. change (emits P (update_fs (delete p) (OsRemove p))).
    by apply emits_delete.
Qed.

Lemma os_Chtimes_emits p t : P (OsChtimes p) → emits P (os_Chtimes p t).
Proof.
  intros HP w r w'. unfold os_Chtimes. destruct (is_denied w p); [stays|].
  destruct (fs w !! p) as [[]|]; [| |stays].
  - revert w r w'.
    change (emits P (update_fs (insert p (File data perm (Some t))) (OsChtimes p))).
    by apply emits_insert.
  - revert w r w'. change (emits P (emit (OsChtimes p))). by apply emits_emit.
Qed.

Lemma os_WriteFile_emits p data perm :
  P (OsOpenFile p) → P (OsWrite p) → P (OsWriteFile p) →
  emits P (os_WriteFile p data perm).
Proof.
  intros Ho Hw Hf. unfold os_WriteFile.
  apply emits_bind; [by apply os_OpenFile_emits|]. intros _.
  intros w r w'. unfold write_all.
  pose proof (file_Write_emits p data w Hw) as (evs & E & F & R).
  destruct (file_Write p data w) as [[n werr] w1]. cbn [snd] in E, F, R.
  destruct werr; intros [= <- <-]; [eauto|].
  exists (evs ++ [OsWriteFile p]). split; [cbn; by rewrite E, app_assoc|].
  split; [apply Forall_app; split; [done|by constructor]|].
  apply frame_app with w1; [done|]. apply frame_add_event.
Qed.

End Footprint.

Section Loops.
Context `{Host}.
Variable P : event -> Prop.

Lemma unpackTarGz_loop_emits targetDir entries tend :
  (∀ e, P (LogErr "error changing modtime: %v" e)) →
  Forall (fun f =>
            validRelPath (tar_Name f) = true →
            match tar_Type f with
            | Regular =>
                (∀ q, q ∈ made_by (filepath.Dir (tar_target targetDir f)) → P (OsMkdir q)) ∧
                P (OsOpenFile (tar_target targetDir f)) ∧
                P (OsWrite (tar_target targetDir f)) ∧
                P (OsClose (tar_target targetDir f)) ∧
                P (OsChtimes (tar_target targetDir f))
            | Directory => ∀ q, q ∈ made_by (tar_target targetDir f) → P (OsMkdir q)
            | Irregular _ => True
            end) entries →
  ∀ madeDir, emits P (unpackTarGz_loop targetDir madeDir entries tend).
Proof.
  intros Hlog. induction entries as [|f rest IH]; intros HP madeDir; cbn [unpackTarGz_loop].
  { destruct tend; [apply emits_fail|apply emits_ret]. }
  apply Forall_cons in HP as [Hf Hrest]. specialize (IH Hrest).
  destruct (validRelPath (tar_Name f)); cbn [negb]; [|apply emits_fail].
  specialize (Hf eq_refl). cbv zeta. fold (tar_target targetDir f).
  destruct (tar_Type f); [| |apply emits_fail].
  - destruct Hf as (Hmk & Hopen & Hwr & Hcl & Hch).
    apply emits_bind.
    { destruct (default false _); [apply emits_ret|].
      apply emits_bind; [by apply os_MkdirAll_emits|]. intros _. apply emits_ret. }
    intros madeDir'. apply emits_bind; [by apply os_OpenFile_emits|]. intros _.
    apply emits_bind; [by apply io_Copy_emits|]. intros [n err].
    apply emits_bind; [by apply emits_try, os_Close_emits|]. intros closed.
    destruct closed, err; try apply emits_fail.
    all: destruct (negb (n =? tar_Size f)%Z); [apply emits_fail|].
    all: apply emits_bind; [|intros _; apply IH].
    all: destruct (tar_ModTime f); [|apply emits_ret].
    all: apply emits_bind; [by apply emits_try, os_Chtimes_emits|];
      intros [|]; [apply emits_ret|by apply emits_emit].
  - apply emits_bind; [by apply os_MkdirAll_emits|]. intros _. apply IH.
Qed.

Lemma unpackZip_loop_emits targetDir files :
  Forall (fun f =>
            if zip_IsDir f
            then ∀ q, q ∈ made_by (zip_target targetDir f) → P (OsMkdir q)
            else (∀ q, q ∈ made_by (filepath.Dir (zip_target targetDir f)) → P (OsMkdir q)) ∧
                 P (OsOpenFile (zip_target targetDir f)) ∧
                 P (OsWrite (zip_target targetDir f)) ∧
                 P (OsClose (zip_target targetDir f))) files →
  emits P (unpackZip_loop targetDir files).
Proof.
  induction files as [|f rest IH]; intros HP; cbn [unpackZip_loop]; [apply emits_ret|].
  apply Forall_cons in HP as [Hf Hrest]. specialize (IH Hrest).
  cbv zeta. fold (zip_target targetDir f). destruct (zip_IsDir f).
  { apply emits_bind; [by apply os_MkdirAll_emits|]. intros _. apply IH. }
  destruct Hf as (Hmk & Hopen & Hwr & Hcl).
  destruct (zip_Open f) as [err|[data rerr]]; [apply emits_fail|].
  apply emits_bind; [by apply os_MkdirAll_emits|]. intros _.
  apply emits_bind; [by apply os_OpenFile_emits|]. intros _.
  apply emits_bind; [by apply io_Copy_emits|]. intros [n err].
  destruct err; (apply emits_bind; [by apply os_Close_emits|]); intros _;
    [apply emits_fail|apply IH].
Qed.

(** An archive is unpacked without a request being sent. *)
Lemma unpackArchive_emits targetDir archiveFile :
  (∀ ev, is_request ev = false → P ev) →
  emits P (unpackArchive targetDir archiveFile).
Proof.
  intros HP. unfold unpackArchive, unpackZip, unpackTarGz.
  destruct (strings.HasSuffix archiveFile ".zip").
  { apply emits_bind; [apply silent_emits, os_Open_silent|]. intros _.
    apply emits_bind; [apply silent_emits, file_ReadAll_silent|]. intros raw.
    destruct (zip_OpenReader raw); [apply emits_fail|]. apply unpackZip_loop_emits.
    apply Forall_forall. intros f _. destruct (zip_IsDir f); repeat split; intros; by apply HP. }
  destruct (strings.HasSuffix archiveFile ".tar.gz"); [|apply emits_fail].
  apply emits_bind; [apply silent_emits, os_Open_silent|]. intros _.
  apply emits_bind; [apply silent_emits, file_ReadAll_silent|]. intros raw.
  destruct (gzip_tar_NewReader raw); [apply emits_fail|]. apply unpackTarGz_loop_emits.
  { intros e. by apply HP. }
  apply Forall_forall. intros f _ _. destruct (tar_Type f); repeat split; intros; by apply HP.
Qed.

End Loops.

(** ** The requests of [install] *)

Section Requests.
Context `{Host}.

Lemma sends_refl w : sends [] w w.
Proof. exists []. by rewrite app_nil_r. Qed.

Lemma sends_trans rs1 rs2 w1 w2 w3 :
  sends rs1 w1 w2 → sends rs2 w2 w3 → sends (rs1 ++ rs2) w1 w3.
Proof.
  intros (e1 & E1 & F1) (e2 & E2 & F2). exists (e1 ++ e2).
  split; [by rewrite E2, E1, app_assoc|]. unfold requests in *.
  by rewrite List.filter_app, F1, F2.
Qed.

Lemma sends_add_event w ev :
  sends (if is_request ev then [ev] else []) w (add_event w ev).
Proof. exists [ev]. split; [done|]. unfold requests. cbn. by destruct (is_request ev). Qed.

Lemma sends_nothing {A} (m : M A) w r w' :
  emits (fun ev => is_request ev = false) m → m w = (r, w') → sends [] w w'.
Proof.
  intros Hm Hrun. destruct (Hm _ _ _ Hrun) as (evs & E & F & _). exists evs.
  split; [done|]. unfold requests. clear E. induction F as [|ev evs Hev _ IH]; [done|].
  cbn. by rewrite Hev.
Qed.

Lemma http_Get_sends url w r w' : http_Get url w = (r, w') → sends [HttpGet url] w w'.
Proof.
  unfold http_Get. destruct (net_Get w url); intros [= <- <-];
    apply (sends_add_event w (HttpGet url)).
Qed.

Lemma http_Head_sends url w r w' : http_Head url w = (r, w') → sends [HttpHead url] w w'.
Proof.
  unfold http_Head. destruct (net_Head w url); intros [= <- <-];
    apply (sends_add_event w (HttpHead url)).
Qed.

Lemma slurpURLToString_sends url w r w' :
  slurpURLToString url w = (r, w') → sends [HttpGet url] w w'.
Proof.
  unfold slurpURLToString. intros Hrun.
  apply bind_inv in Hrun as [(res & w1 & Hget & Hrun)|(e & Hget & ->)];
    [|by eapply http_Get_sends].
  apply http_Get_sends in Hget.
  destruct (negb _); [by inversion Hrun; subst|].
  destruct (BodyErr res); by inversion Hrun; subst.
Qed.

(** [copyFromURL] sends one GET, unless the destination cannot be created. *)
Lemma copyFromURL_sends dstFile srcURL w r w' :
  copyFromURL dstFile srcURL w = (r, w') →
  sends [] w w' ∨ sends [HttpGet srcURL] w w'.
Proof.
  unfold copyFromURL. intros Hrun.
  destruct (os_Create dstFile w) as [[[]|e] w1] eqn:Hc.
  2:{ left. inversion Hrun; subst. eapply sends_nothing; [|exact Hc].
      by apply os_OpenFile_emits. }
  right. eapply sends_nothing in Hc; [|by apply os_OpenFile_emits].
  assert (∀ r2 w2, copyFromURL_body dstFile srcURL w1 = (r2, w2) →
                   sends [HttpGet srcURL] w1 w2) as Hbody.
  { intros r2 w2 Hb. unfold copyFromURL_body in Hb.
    apply bind_inv in Hb as [(res & w3 & Hget & Hb)|(e & Hget & ->)];
      [|by eapply http_Get_sends].
    apply http_Get_sends in Hget.
    apply (sends_trans _ [] _ _ _ Hget). eapply sends_nothing; [|exact Hb].
    destruct (negb _); [apply emits_fail|].
    apply emits_bind; [by apply io_Copy_emits|]. intros [n err].
    destruct err; [apply emits_fail|]. destruct (_ && _); [apply emits_fail|].
    apply emits_bind; [by apply emits_emit|]. intros _. by apply os_Close_emits. }
  destruct (copyFromURL_body dstFile srcURL w1) as [[[]|e] w2] eqn:Hb;
    specialize (Hbody _ _ eq_refl).
  { inversion Hrun; subst. apply (sends_trans [] _ _ _ _ Hc Hbody). }
  destruct (os_Close dstFile w2) as [r3 w3] eqn:Hcl.
  eapply sends_nothing in Hcl; [|by apply os_Close_emits].
  destruct (os_Remove dstFile w3) as [r4 w4] eqn:Hrm.
  eapply sends_nothing in Hrm; [|by apply os_Remove_emits].
  inversion Hrun; subst.
  apply (sends_trans [] _ _ _ _ Hc). apply (sends_trans _ [] _ _ _ Hbody).
  apply (sends_trans [] [] _ _ _ Hcl Hrm).
Qed.

Lemma install_fetch_sends goURL archiveFile res w r w' :
  install_fetch goURL archiveFile res w = (r, w') →
  sends [] w w' ∨ sends [HttpGet goURL] w w'.
Proof.
  unfold install_fetch. intros Hrun.
  apply bind_inv in Hrun as [(st & w1 & Htry & Hrun)|(e & Htry & _)];
    [|by apply try_inv in Htry as (? & [=] & _)].
  apply try_inv in Htry as (r0 & [= ->] & Hst).
  pose proof (os_Stat_silent _ _ _ _ Hst) as ->. cbv zeta in Hrun.
  assert (∀ w0 r' w1' (k : M unit),
    emits (fun ev => is_request ev = false) k →
    (wrap "error downloading %v: %v" [Str goURL] (copyFromURL archiveFile goURL) ;; k) w0
      = (r', w1') →
    sends [] w0 w1' ∨ sends [HttpGet goURL] w0 w1') as Hdl.
  { intros w0 r' w1' k Hk Hdl.
    apply bind_inv in Hdl as [([] & w4 & Hcp & Hdl)|(e & Hcp & ->)].
    - apply wrap_inv in Hcp as [(? & Hcp & _)|(? & _ & [=])].
      eapply sends_nothing in Hdl; [|exact Hk].
      apply copyFromURL_sends in Hcp as [Hs|Hs]; [left|right].
      + apply (sends_trans [] [] _ _ _ Hs Hdl).
      + apply (sends_trans _ [] _ _ _ Hs Hdl).
    - apply wrap_inv in Hcp as [(? & _ & [=])|(e' & Hcp & _)].
      by apply copyFromURL_sends in Hcp. }
  assert (emits (fun ev => is_request ev = false)
            (fi ← os_Stat archiveFile;
             if negb (fi_Size fi =? ContentLength res)%Z
             then fail (Errorf "downloaded file %s size %v doesn't match server size %v"
                          [Str archiveFile; Int (fi_Size fi); Int (ContentLength res)])
             else mret ())) as Hk.
  { apply emits_bind; [apply silent_emits, os_Stat_silent|]. intros fi.
    destruct (negb _); [apply emits_fail|apply emits_ret]. }
  destruct r0 as [fi|e].
  - destruct (fi_Size fi =? ContentLength res)%Z eqn:Hsz; cbn [negb] in Hrun.
    + left. inversion Hrun; subst. apply sends_refl.
    + apply bind_inv in Hrun as [([] & w3 & [= <-] & Hrun)|(? & [=] & _)].
      apply Hdl in Hrun; [done|exact Hk].
  - apply bind_inv in Hrun as [([] & w3 & Hchk & Hrun)|(e' & Hchk & ->)].
    + destruct (negb (os_IsNotExist e)); [done|]. inversion Hchk; subst w3.
      apply Hdl in Hrun; [done|exact Hk].
    + left. destruct (negb (os_IsNotExist e)); [|done].
      inversion Hchk; subst. apply sends_refl.
Qed.

End Requests.

Section Protocol.
Context `{Host}.

Lemma install_verify_unpack_sends targetDir version goURL archiveFile w r w' :
  install_verify_unpack targetDir version goURL archiveFile w = (r, w') →
  sends [HttpGet (goURL +:+ ".sha256")] w w'.
Proof.
  unfold install_verify_unpack. intros Hrun.
  apply bind_inv in Hrun as [(wantSHA & w1 & Hslurp & Hrun)|(e & Hslurp & ->)];
    [|by eapply slurpURLToString_sends].
  apply slurpURLToString_sends in Hslurp.
  apply (sends_trans _ [] _ _ _ Hslurp). eapply sends_nothing; [|exact Hrun].
  apply emits_bind; [apply emits_wrap, silent_emits, verifySHA256_silent|]. intros _.
  apply emits_bind; [by apply emits_emit|]. intros _.
  apply emits_bind; [by apply emits_wrap, unpackArchive_emits|]. intros _.
  apply emits_bind; [by apply os_WriteFile_emits|]. intros _. by apply emits_emit.
Qed.

(** X15.  The requests of [install]: a HEAD of the archive's address
    first, then a GET of the archive unless the copy on disk is kept, then a
    GET of its [.sha256]; the run may end after any of them, but it sends
    nothing else, nothing twice and nothing in another order.  A run that
    returns [nil] sent none of them (the marker was there) or went through
    to the digest. *)
Theorem install_requests (targetDir version : string) (w w' : World) (r : result unit) :
  install targetDir version w = (r, w') →
  ∃ rs, sends rs w w' ∧
    (rs `prefix_of` [HttpHead (versionArchiveURL version);
                     HttpGet (versionArchiveURL version);
                     HttpGet (versionArchiveURL version +:+ ".sha256")] ∨
     rs `prefix_of` [HttpHead (versionArchiveURL version);
                     HttpGet (versionArchiveURL version +:+ ".sha256")]) ∧
    (r = Ok tt → rs = [] ∨ last rs = Some (HttpGet (versionArchiveURL version +:+ ".sha256"))).
Proof.
  set (goURL := versionArchiveURL version).
  unfold install. fold goURL. intros Hrun.
  apply bind_inv in Hrun as [(st & w1 & Htry & Hrun)|(e & Htry & _)];
    [|by apply try_inv in Htry as (? & [=] & _)].
  apply try_inv in Htry as (r0 & [= ->] & Hst).
  pose proof (os_Stat_silent _ _ _ _ Hst) as ->.
  destruct r0 as [fi|e0].
  { inversion Hrun; subst. exists []. split; [apply (sends_add_event w (Log _ _))|].
    split; [left; by eexists|]. by left. }
  apply bind_inv in Hrun as [([] & w2 & Hmk & Hrun)|(e & Hmk & ->)].
  2:{ exists []. split; [|split; [left; by eexists|done]].
      eapply sends_nothing; [|exact Hmk]. by apply os_MkdirAll_emits. }
  eapply sends_nothing in Hmk; [|by apply os_MkdirAll_emits].
  apply bind_inv in Hrun as [(res & w3 & Hhead & Hrun)|(e & Hhead & ->)].
  2:{ exists [HttpHead goURL]. split; [|split; [left; by eexists|done]].
      apply (sends_trans [] _ _ _ _ Hmk). by eapply http_Head_sends. }
  apply http_Head_sends in Hhead.
  pose proof (sends_trans [] _ _ _ _ Hmk Hhead) as Hs. cbn [app] in Hs.
  destruct (StatusCode res =? 404)%Z.
  { inversion Hrun; subst. exists [HttpHead goURL]. split; [done|].
    split; [left; by eexists|done]. }
  destruct (negb (StatusCode res =? 200)%Z).
  { inversion Hrun; subst. exists [HttpHead goURL]. split; [done|].
    split; [left; by eexists|done]. }
  apply bind_inv in Hrun as [([] & w4 & Hfetch & Hrun)|(e & Hfetch & ->)].
  2:{ apply install_fetch_sends in Hfetch as [Hf|Hf].
      - exists [HttpHead goURL]. split; [apply (sends_trans _ [] _ _ _ Hs Hf)|].
        split; [left; by eexists|done].
      - exists [HttpHead goURL; HttpGet goURL]. split; [apply (sends_trans _ _ _ _ _ Hs Hf)|].
        split; [left; by eexists|done]. }
  apply install_verify_unpack_sends in Hrun.
  apply install_fetch_sends in Hfetch as [Hf|Hf].
  - exists [HttpHead goURL; HttpGet (goURL +:+ ".sha256")]. split.
    { apply (sends_trans [HttpHead goURL] _ _ w4 _); [|done].
      apply (sends_trans _ [] _ _ _ Hs Hf). }
    split; [by right|]. by right.
  - exists [HttpHead goURL; HttpGet goURL; HttpGet (goURL +:+ ".sha256")]. split.
    { apply (sends_trans [HttpHead goURL; HttpGet goURL] _ _ w4 _); [|done].
      apply (sends_trans _ _ _ _ _ Hs Hf). }
    split; [by left|]. by right.
Qed.

End Protocol.

Lemma install_requests_witness :
  ∃ rs, sends rs fresh_home (snd (@install linux_amd64 sdk_dir "go1.20.8" fresh_home)) ∧
    (rs `prefix_of` [HttpHead (@versionArchiveURL linux_amd64 "go1.20.8");
                     HttpGet (@versionArchiveURL linux_amd64 "go1.20.8");
                     HttpGet (@versionArchiveURL linux_amd64 "go1.20.8" +:+ ".sha256")] ∨
     rs `prefix_of` [HttpHead (@versionArchiveURL linux_amd64 "go1.20.8");
                     HttpGet (@versionArchiveURL linux_amd64 "go1.20.8" +:+ ".sha256")]) ∧
    (fst (@install linux_amd64 sdk_dir "go1.20.8" fresh_home) = Ok tt →
     rs = [] ∨
     last rs = Some (HttpGet (@versionArchiveURL linux_amd64 "go1.20.8" +:+ ".sha256"))).
Proof.
  apply (@install_requests linux_amd64 sdk_dir "go1.20.8" fresh_home).
  vm_compute. reflexivity.
Defined.

(** ** What the unpackers leave on disk *)

Section Delivery.
Context `{Host}.

(** A path no event of an action names is as it was. *)
Lemma emits_untouched {A} (m : M A) q w r w' :
  emits (fun ev => touched ev ≠ Some q) m → m w = (r, w') → fs w' !! q = fs w !! q.
Proof.
  intros Hm Hrun. destruct (Hm _ _ _ Hrun) as (evs & _ & F & R). apply R.
  intros ev Hin. rewrite Forall_forall in F. by apply F.
Qed.

Lemma lookup_node_None w p : lookup_node w p = None → fs w !! p = None.
Proof. unfold lookup_node. by destruct (_ || _). Qed.

(** [os.Mkdir] and [os.MkdirAll] add directories and change nothing that
    is there. *)
Lemma os_Mkdir_keeps p perm w r w' :
  os_Mkdir p perm w = (r, w') → ∀ q n, fs w !! q = Some n → fs w' !! q = Some n.
Proof.
  unfold os_Mkdir. destruct (is_denied w p); [by intros [= <- <-]|].
  destruct (lookup_node w p) eqn:Hp; [by intros [= <- <-]|].
  apply lookup_node_None in Hp. intros Hrun q n Hq.
  apply bind_inv in Hrun as [([] & w1 & Hpar & Hrun)|(e & Hpar & ->)].
  - apply check_parent_silent in Hpar as ->. inversion Hrun; subst. cbn.
    rewrite lookup_insert_ne; [done|]. intros <-. by rewrite Hp in Hq.
  - by apply check_parent_silent in Hpar as ->.
Qed.

Lemma mkdirAll_keeps chain perm : ∀ w r w',
  mkdirAll chain perm w = (r, w') → ∀ q n, fs w !! q = Some n → fs w' !! q = Some n.
Proof.
  induction chain as [|p parents IH]; intros w r w' Hrun q n Hq; cbn [mkdirAll] in Hrun.
  { by inversion Hrun; subst. }
  apply bind_inv in Hrun as [(st & w1 & Htry & Hrun)|(e & Htry & _)];
    [|by apply try_inv in Htry as (? & [=] & _)].
  apply try_inv in Htry as (r0 & [= ->] & Hst).
  pose proof (os_Stat_silent _ _ _ _ Hst) as ->.
  destruct r0 as [dir|e0].
  { destruct (fi_IsDir dir); by inversion Hrun; subst. }
  apply bind_inv in Hrun as [([] & w2 & Hup & Hrun)|(e & Hup & ->)];
    [|by eapply IH].
  eapply IH in Hup; [|exact Hq].
  apply bind_inv in Hrun as [(made & w3 & Htry & Hrun)|(e & Htry & _)];
    [|by apply try_inv in Htry as (? & [=] & _)].
  apply try_inv in Htry as (r1 & [= ->] & Hmk).
  eapply os_Mkdir_keeps in Hmk; [|exact Hup].
  destruct r1 as [[]|err]; [by inversion Hrun; subst|].
  apply bind_inv in Hrun as [(st1 & w4 & Htry & Hrun)|(e & Htry & _)];
    [|by apply try_inv in Htry as (? & [=] & _)].
  apply try_inv in Htry as (r2 & [= ->] & Hst1).
  pose proof (os_Stat_silent _ _ _ _ Hst1) as ->.
  destruct r2 as [dir1|?]; [destruct (fi_IsDir dir1)|]; by inversion Hrun; subst.
Qed.

Lemma os_MkdirAll_keeps p perm w r w' :
  os_MkdirAll p perm w = (r, w') → ∀ q n, fs w !! q = Some n → fs w' !! q = Some n.
Proof. apply mkdirAll_keeps. Qed.

(** [os.Chtimes] leaves the bytes and the mode of a file as they are,
    whether it returns an error or not. *)
Lemma os_Chtimes_bytes p t w r w' data perm mtime :
  fs w !! p = Some (File data perm mtime) →
  os_Chtimes p t w = (r, w') →
  ∃ mtime', fs w' = <[p := File data perm mtime']> (fs w).
Proof.
  intros Hf. unfold os_Chtimes, update_fs. rewrite Hf.
  destruct (is_denied w p); intros [= <- <-]; [|by eexists].
  exists mtime. by rewrite insert_id.
Qed.

(** What [io.Copy] into a file just opened returns when it reports no
    error: every byte was written and the source ended with [io.EOF]. *)
Lemma io_Copy_fresh dst data rerr perm mtime w n w' :
  fs w !! dst = Some (File "" perm mtime) →
  io_Copy dst data rerr w = (Ok (n, None), w') →
  rerr = None ∧ n = Z.of_nat (String.length data) ∧
  w' = add_event (set_fs w (<[dst := File data perm mtime]> (fs w))) (OsWrite dst).
Proof.
  intros Hf. unfold io_Copy, file_Write. rewrite Hf.
  destruct (_ <=? _)%nat; [|done]. by intros [= -> <- <-].
Qed.

(** One regular record of a tar stream, unpacked without error. *)
Lemma unpackTarGz_loop_Regular targetDir madeDir f rest tend w w' :
  tar_Type f = Regular →
  unpackTarGz_loop targetDir madeDir (f :: rest) tend w = (Ok tt, w') →
  validRelPath (tar_Name f) = true ∧ tar_DataErr f = None ∧
  tar_Size f = Z.of_nat (String.length (tar_Data f)) ∧
  ∃ madeDir1 w1 perm mtime,
    fs w1 !! tar_target targetDir f = Some (File (tar_Data f) perm mtime) ∧
    (∀ q n, q ≠ tar_target targetDir f → fs w !! q = Some n → fs w1 !! q = Some n) ∧
    unpackTarGz_loop targetDir madeDir1 rest tend w1 = (Ok tt, w').
Proof.
  intros Hty. cbn [unpackTarGz_loop].
  destruct (validRelPath (tar_Name f)); cbn [negb]; [|done].
  cbv zeta. fold (tar_target targetDir f). rewrite Hty. intros Hrun.
  apply bind_inv in Hrun as [(madeDir1 & w1 & Hmk & Hrun)|(e & _ & [=])].
  assert (∀ q n, fs w !! q = Some n → fs w1 !! q = Some n) as Hkeep1.
  { destruct (default false _).
    - by inversion Hmk; subst.
    - apply bind_inv in Hmk as [([] & w0 & Hmk & Hret)|(e & _ & [=])].
      inversion Hret; subst. by eapply os_MkdirAll_keeps. }
  clear Hmk.
  apply bind_inv in Hrun as [([] & w2 & Hopen & Hrun)|(e & _ & [=])].
  apply os_OpenFile_Ok in Hopen as (Hden & perm & mtime & ->).
  apply bind_inv in Hrun as [([n err] & w3 & Hcp & Hrun)|(e & _ & [=])].
  apply bind_inv in Hrun as [(closed & w4 & Hcl & Hrun)|(e & Htry & _)];
    [|by apply try_inv in Htry as (? & [=] & _)].
  apply try_inv in Hcl as (r0 & [= ->] & Hcl). inversion Hcl; subst r0 w4. clear Hcl.
  destruct err as [e|]; [done|].
  eapply io_Copy_fresh in Hcp as (Hrerr & Hn & Hw3);
    [|cbn; apply lookup_insert_eq].
  subst n w3.
  destruct (Z.eqb_spec (Z.of_nat (String.length (tar_Data f))) (tar_Size f)) as [Hsz|Hsz];
    cbn [negb] in Hrun; [|done].
  split; [done|]. split; [done|]. split; [done|].
  apply bind_inv in Hrun as [([] & w5 & Hch & Hrun)|(e & _ & [=])].
  set (w3 := add_event (add_event _ _) (OsClose _)) in Hch.
  assert (fs w3 = <[tar_target targetDir f := File (tar_Data f) perm mtime]> (fs w1)) as Hfs3.
  { cbn. by rewrite insert_insert_eq. }
  exists madeDir1, w5.
  assert (∃ mt, fs w5 = <[tar_target targetDir f := File (tar_Data f) perm mt]> (fs w1))
    as [mt Hfs5].
  { destruct (tar_ModTime f) as [t|]; [|inversion Hch; subst; eauto].
    apply bind_inv in Hch as [(changed & w6 & Htry & Hch)|(e & Htry & _)];
      [|by apply try_inv in Htry as (? & [=] & _)].
    apply try_inv in Htry as (r0 & [= ->] & Hct).
    eapply os_Chtimes_bytes in Hct as [mt Hfs6];
      [|by rewrite Hfs3, lookup_insert_eq].
    exists mt. rewrite Hfs3, insert_insert_eq in Hfs6. rewrite <- Hfs6.
    destruct r0; by inversion Hch; subst. }
  exists perm, mt. rewrite Hfs5. split; [apply lookup_insert_eq|]. split; [|done].
  intros q n Hq Hn. rewrite lookup_insert_ne by done. by apply Hkeep1.
Qed.

Lemma unpackTarGz_loop_Directory targetDir madeDir f rest tend w w' :
  tar_Type f = Directory →
  unpackTarGz_loop targetDir madeDir (f :: rest) tend w = (Ok tt, w') →
  validRelPath (tar_Name f) = true ∧
  ∃ madeDir1 w1,
    (∀ q n, fs w !! q = Some n → fs w1 !! q = Some n) ∧
    unpackTarGz_loop targetDir madeDir1 rest tend w1 = (Ok tt, w').
Proof.
  intros Hty. cbn [unpackTarGz_loop].
  destruct (validRelPath (tar_Name f)); cbn [negb]; [|done].
  cbv zeta. rewrite Hty. intros Hrun. split; [done|].
  apply bind_inv in Hrun as [([] & w1 & Hmk & Hrun)|(e & _ & [=])].
  eexists _, w1. split; [|exact Hrun]. by eapply os_MkdirAll_keeps.
Qed.

Lemma unpackTarGz_loop_Irregular targetDir madeDir f mode rest tend w r w' :
  tar_Type f = Irregular mode →
  unpackTarGz_loop targetDir madeDir (f :: rest) tend w = (r, w') →
  ∃ e, r = Err e.
Proof.
  intros Hty. cbn [unpackTarGz_loop].
  destruct (validRelPath (tar_Name f)); cbn [negb]; [|intros [= <- _]; eauto].
  cbv zeta. rewrite Hty. intros [= <- _]. eauto.
Qed.

(** A file stays as it is while the records that follow are unpacked,
    unless one of them is a regular file of the same path. *)
Lemma unpackTarGz_loop_keeps targetDir p n rest tend : ∀ madeDir w w',
  unpackTarGz_loop targetDir madeDir rest tend w = (Ok tt, w') →
  fs w !! p = Some n →
  Forall (fun g => tar_Type g = Regular → tar_target targetDir g ≠ p) rest →
  fs w' !! p = Some n.
Proof.
  induction rest as [|g rest IH]; intros madeDir w w' Hrun Hp Hrest.
  { cbn [unpackTarGz_loop] in Hrun. destruct tend; by inversion Hrun; subst. }
  apply Forall_cons in Hrest as [Hg Hrest].
  destruct (tar_Type g) as [| |mode] eqn:Hty.
  - apply unpackTarGz_loop_Regular in Hrun
      as (_ & _ & _ & madeDir1 & w1 & perm & mtime & _ & Hkeep & Hrun); [|done].
    eapply IH; [exact Hrun| |done]. apply Hkeep; [|done]. intros ->. by apply Hg.
  - apply unpackTarGz_loop_Directory in Hrun as (_ & madeDir1 & w1 & Hkeep & Hrun); [|done].
    eapply IH; [exact Hrun| |done]. by apply Hkeep.
  - by apply unpackTarGz_loop_Irregular with (mode := mode) in Hrun as [e [=]].
Qed.

(** Round trip through the loop of [unpackTarGz]. *)
Lemma unpackTarGz_loop_delivers targetDir pre f rest tend : ∀ madeDir w w',
  unpackTarGz_loop targetDir madeDir (pre ++ f :: rest) tend w = (Ok tt, w') →
  tar_Type f = Regular →
  Forall (fun g => tar_Type g = Regular → tar_target targetDir g ≠ tar_target targetDir f)
         rest →
  tar_DataErr f = None ∧ tar_Size f = Z.of_nat (String.length (tar_Data f)) ∧
  ∃ perm mtime, fs w' !! tar_target targetDir f = Some (File (tar_Data f) perm mtime).
Proof.
  induction pre as [|g pre IH]; intros madeDir w w' Hrun Hty Hrest.
  - cbn [app] in Hrun. apply unpackTarGz_loop_Regular in Hrun
      as (_ & Herr & Hsz & madeDir1 & w1 & perm & mtime & Hf & _ & Hrun); [|done].
    split; [done|]. split; [done|]. exists perm, mtime.
    by eapply unpackTarGz_loop_keeps.
  - cbn [app] in Hrun. destruct (tar_Type g) as [| |mode] eqn:Hg.
    + apply unpackTarGz_loop_Regular in Hrun
        as (_ & _ & _ & madeDir1 & w1 & _ & _ & _ & _ & Hrun); [|done].
      by eapply IH.
    + apply unpackTarGz_loop_Directory in Hrun as (_ & madeDir1 & w1 & _ & Hrun); [|done].
      by eapply IH.
    + by apply unpackTarGz_loop_Irregular with (mode := mode) in Hrun as [e [=]].
Qed.

Lemma unpackTarGz_loop_wellformed targetDir entries tend : ∀ madeDir w w',
  unpackTarGz_loop targetDir madeDir entries tend w = (Ok tt, w') →
  tend = None ∧
  Forall (fun f => validRelPath (tar_Name f) = true ∧
                   (tar_Type f = Regular ∨ tar_Type f = Directory)) entries.
Proof.
  induction entries as [|f rest IH]; intros madeDir w w' Hrun.
  { cbn [unpackTarGz_loop] in Hrun. by destruct tend. }
  destruct (tar_Type f) as [| |mode] eqn:Hty.
  - apply unpackTarGz_loop_Regular in Hrun
      as (Hv & _ & _ & madeDir1 & w1 & _ & _ & _ & _ & Hrun); [|done].
    apply IH in Hrun as [-> Hrest]. split; [done|]. constructor; [|done]. auto.
  - apply unpackTarGz_loop_Directory in Hrun as (Hv & madeDir1 & w1 & _ & Hrun); [|done].
    apply IH in Hrun as [-> Hrest]. split; [done|]. constructor; [|done]. auto.
  - by apply unpackTarGz_loop_Irregular with (mode := mode) in Hrun as [e [=]].
Qed.

(** What [unpackTarGz] read when it returns [nil]. *)
Lemma unpackTarGz_Ok targetDir archiveFile w w' :
  unpackTarGz targetDir archiveFile w = (Ok tt, w') →
  ∃ raw tr, file_ReadAll archiveFile w = (Ok raw, w) ∧ gzip_tar_NewReader raw = inr tr ∧
            unpackTarGz_loop targetDir ∅ (tar_entries tr) (tar_end tr) w = (Ok tt, w').
Proof.
  unfold unpackTarGz. intros Hrun.
  apply bind_inv in Hrun as [([] & w1 & Hopen & Hrun)|(e & _ & [=])].
  apply os_Open_silent in Hopen as ->.
  apply bind_inv in Hrun as [(raw & w1 & Hread & Hrun)|(e & _ & [=])].
  pose proof (file_ReadAll_silent _ _ _ _ Hread) as ->.
  destruct (gzip_tar_NewReader raw) as [err|tr] eqn:Htr; [done|]. by exists raw, tr.
Qed.

(** X16.  Round trip through [unpackTarGz]: when it returns [nil], every
    regular record of the stream has delivered as many bytes as its header
    announces, without a read error, and the file at its target path holds
    exactly these bytes, unless a later regular record has the same target
    path.  Nothing is said of the modification time: an error of
    [os.Chtimes] is logged and the unpacking goes on. *)
Theorem unpackTarGz_delivers (targetDir archiveFile : string) (w w' : World) :
  unpackTarGz targetDir archiveFile w = (Ok tt, w') →
  ∃ raw tr,
    file_ReadAll archiveFile w = (Ok raw, w) ∧ gzip_tar_NewReader raw = inr tr ∧
    ∀ pre f rest,
      tar_entries tr = pre ++ f :: rest → tar_Type f = Regular →
      Forall (fun g => tar_Type g = Regular →
                       tar_target targetDir g ≠ tar_target targetDir f) rest →
      tar_DataErr f = None ∧ tar_Size f = Z.of_nat (String.length (tar_Data f)) ∧
      ∃ perm mtime, fs w' !! tar_target targetDir f = Some (File (tar_Data f) perm mtime).
Proof.
  intros Hrun. apply unpackTarGz_Ok in Hrun as (raw & tr & Hread & Htr & Hrun).
  exists raw, tr. split; [done|]. split; [done|]. intros pre f rest Hsplit Hty Hrest.
  rewrite Hsplit in Hrun. by eapply unpackTarGz_loop_delivers.
Qed.

(** X17.  [unpackTarGz] returns [nil] only for a stream that ends with
    [io.EOF] and in which every record has a name [validRelPath] accepts
    and is a regular file or a directory. *)
Theorem unpackTarGz_accepts (targetDir archiveFile : string) (w w' : World) :
  unpackTarGz targetDir archiveFile w = (Ok tt, w') →
  ∃ raw tr,
    file_ReadAll archiveFile w = (Ok raw, w) ∧ gzip_tar_NewReader raw = inr tr ∧
    tar_end tr = None ∧
    Forall (fun f => validRelPath (tar_Name f) = true ∧
                     (tar_Type f = Regular ∨ tar_Type f = Directory)) (tar_entries tr).
Proof.
  intros Hrun. apply unpackTarGz_Ok in Hrun as (raw & tr & Hread & Htr & Hrun).
  exists raw, tr. split; [done|]. split; [done|].
  by apply unpackTarGz_loop_wellformed in Hrun.
Qed.

(** X18.  A record with a name [validRelPath] rejects, or of a type other
    than regular file and directory, ends the unpacking with an error: the
    records after it and the end of the stream play no part in what
    [unpackTarGz] does or returns. *)
Theorem unpackTarGz_loop_stops (targetDir : string) (pre : list tar_entry) (f : tar_entry)
    (rest rest' : list tar_entry) (tend tend' : option error) :
  validRelPath (tar_Name f) = false ∨ (∃ mode, tar_Type f = Irregular mode) →
  ∀ (madeDir : gmap string bool) (w : World),
    unpackTarGz_loop targetDir madeDir (pre ++ f :: rest) tend w
    = unpackTarGz_loop targetDir madeDir (pre ++ f :: rest') tend' w ∧
    ∃ e, fst (unpackTarGz_loop targetDir madeDir (pre ++ f :: rest) tend w) = Err e.
Proof.
  intros Hbad. induction pre as [|g pre IH]; intros madeDir w.
  { cbn [app unpackTarGz_loop]. destruct Hbad as [->|[mode Hty]]; cbn [negb].
    - split; [done|]. by eexists.
    - destruct (negb _); [split; [done|by eexists]|]. cbv zeta. rewrite Hty.
      split; [done|]. by eexists. }
  cbn [app unpackTarGz_loop].
  destruct (negb (validRelPath (tar_Name g))); [split; [done|by eexists]|].
  cbv zeta. destruct (tar_Type g); [| |split; [done|by eexists]].
  - unfold mbind, M_bind, bind, try.
    repeat (case_match; try (split; [done|by eexists]); simplify_eq/=); apply IH.
  - unfold mbind, M_bind, bind.
    repeat (case_match; try (split; [done|by eexists]); simplify_eq/=); apply IH.
Qed.

(** One member of a zip archive, unpacked without error. *)
Lemma unpackZip_loop_member targetDir f rest w w' :
  zip_IsDir f = false →
  unpackZip_loop targetDir (f :: rest) w = (Ok tt, w') →
  ∃ data w1 perm mtime,
    zip_Open f = inr (data, None) ∧
    fs w1 !! zip_target targetDir f = Some (File data perm mtime) ∧
    (∀ q n, q ≠ zip_target targetDir f → fs w !! q = Some n → fs w1 !! q = Some n) ∧
    unpackZip_loop targetDir rest w1 = (Ok tt, w').
Proof.
  intros Hdir. cbn [unpackZip_loop]. cbv zeta. fold (zip_target targetDir f).
  rewrite Hdir. destruct (zip_Open f) as [err|[data rerr]]; [done|]. intros Hrun.
  apply bind_inv in Hrun as [([] & w1 & Hmk & Hrun)|(e & _ & [=])].
  apply bind_inv in Hrun as [([] & w2 & Hopen & Hrun)|(e & _ & [=])].
  apply os_OpenFile_Ok in Hopen as (Hden & perm & mtime & ->).
  apply bind_inv in Hrun as [([n err] & w3 & Hcp & Hrun)|(e & _ & [=])].
  destruct err as [e|].
  { apply bind_inv in Hrun as [([] & w4 & _ & [=])|(? & _ & [=])]. }
  eapply io_Copy_fresh in Hcp as (-> & Hn & Hw3); [|cbn; apply lookup_insert_eq].
  subst n w3.
  apply bind_inv in Hrun as [([] & w4 & Hcl & Hrun)|(e & _ & [=])].
  inversion Hcl; subst w4. clear Hcl.
  eexists data, _, perm, mtime. split; [done|]. split; [|split; [|exact Hrun]].
  - cbn. apply lookup_insert_eq.
  - intros q n Hq Hn. cbn. rewrite !lookup_insert_ne by done.
    by eapply os_MkdirAll_keeps.
Qed.

Lemma unpackZip_loop_dir targetDir f rest w w' :
  zip_IsDir f = true →
  unpackZip_loop targetDir (f :: rest) w = (Ok tt, w') →
  ∃ w1, (∀ q n, fs w !! q = Some n → fs w1 !! q = Some n) ∧
        unpackZip_loop targetDir rest w1 = (Ok tt, w').
Proof.
  intros Hdir. cbn [unpackZip_loop]. cbv zeta. rewrite Hdir. intros Hrun.
  apply bind_inv in Hrun as [([] & w1 & Hmk & Hrun)|(e & _ & [=])].
  exists w1. split; [|done]. by eapply os_MkdirAll_keeps.
Qed.

Lemma unpackZip_loop_keeps targetDir p n rest : ∀ w w',
  unpackZip_loop targetDir rest w = (Ok tt, w') →
  fs w !! p = Some n →
  Forall (fun g => zip_IsDir g = false → zip_target targetDir g ≠ p) rest →
  fs w' !! p = Some n.
Proof.
  induction rest as [|g rest IH]; intros w w' Hrun Hp Hrest.
  { by inversion Hrun; subst. }
  apply Forall_cons in Hrest as [Hg Hrest].
  destruct (zip_IsDir g) eqn:Hdir.
  - apply unpackZip_loop_dir in Hrun as (w1 & Hkeep & Hrun); [|done].
    eapply IH; [exact Hrun| |done]. by apply Hkeep.
  - apply unpackZip_loop_member in Hrun
      as (data & w1 & perm & mtime & _ & _ & Hkeep & Hrun); [|done].
    eapply IH; [exact Hrun| |done]. apply Hkeep; [|done]. intros ->. by apply Hg.
Qed.

Lemma unpackZip_loop_delivers targetDir pre f rest : ∀ w w',
  unpackZip_loop targetDir (pre ++ f :: rest) w = (Ok tt, w') →
  zip_IsDir f = false →
  Forall (fun g => zip_IsDir g = false → zip_target targetDir g ≠ zip_target targetDir f)
         rest →
  ∃ data perm mtime,
    zip_Open f = inr (data, None) ∧
    fs w' !! zip_target targetDir f = Some (File data perm mtime).
Proof.
  induction pre as [|g pre IH]; intros w w' Hrun Hdir Hrest; cbn [app] in Hrun.
  - apply unpackZip_loop_member in Hrun
      as (data & w1 & perm & mtime & Hopen & Hf & _ & Hrun); [|done].
    exists data, perm, mtime. split; [done|]. by eapply unpackZip_loop_keeps.
  - destruct (zip_IsDir g) eqn:Hg.
    + apply unpackZip_loop_dir in Hrun as (w1 & _ & Hrun); [|done]. by eapply IH.
    + apply unpackZip_loop_member in Hrun
        as (? & w1 & ? & ? & _ & _ & _ & Hrun); [|done].
      by eapply IH.
Qed.

(** X19.  Round trip through [unpackZip]: when it returns [nil], every
    member that is not a directory could be opened and read to its end, and
    the file at its target path holds exactly the bytes read, unless a later
    member that is not a directory has the same target path. *)
Theorem unpackZip_delivers (targetDir archiveFile : string) (w w' : World) :
  unpackZip targetDir archiveFile w = (Ok tt, w') →
  ∃ raw files,
    file_ReadAll archiveFile w = (Ok raw, w) ∧ zip_OpenReader raw = inr files ∧
    ∀ pre f rest,
      files = pre ++ f :: rest → zip_IsDir f = false →
      Forall (fun g => zip_IsDir g = false →
                       zip_target targetDir g ≠ zip_target targetDir f) rest →
      ∃ data perm mtime,
        zip_Open f = inr (data, None) ∧
        fs w' !! zip_target targetDir f = Some (File data perm mtime).
Proof.
  unfold unpackZip. intros Hrun.
  apply bind_inv in Hrun as [([] & w1 & Hopen & Hrun)|(e & _ & [=])].
  apply os_Open_silent in Hopen as ->.
  apply bind_inv in Hrun as [(raw & w1 & Hread & Hrun)|(e & _ & [=])].
  pose proof (file_ReadAll_silent _ _ _ _ Hread) as ->.
  destruct (zip_OpenReader raw) as [err|files] eqn:Hzr; [done|].
  exists raw, files. split; [done|]. split; [done|].
  intros pre f rest -> Hdir Hrest. by eapply unpackZip_loop_delivers.
Qed.

End Delivery.

Lemma unpackTarGz_delivers_witness :
  ∃ raw tr,
    file_ReadAll release_file archive_home = (Ok raw, archive_home) ∧
    @gzip_tar_NewReader linux_amd64 raw = inr tr ∧
    ∀ pre f rest,
      tar_entries tr = pre ++ f :: rest → tar_Type f = Regular →
      Forall (fun g => tar_Type g = Regular →
                       tar_target sdk_dir g ≠ tar_target sdk_dir f) rest →
      tar_DataErr f = None ∧ tar_Size f = Z.of_nat (String.length (tar_Data f)) ∧
      ∃ perm mtime,
        fs (snd (@unpackTarGz linux_amd64 sdk_dir release_file archive_home))
          !! tar_target sdk_dir f = Some (File (tar_Data f) perm mtime).
Proof.
  apply (@unpackTarGz_delivers linux_amd64 sdk_dir release_file archive_home).
  vm_compute. reflexivity.
Defined.

Lemma unpackTarGz_accepts_witness :
  ∃ raw tr,
    file_ReadAll release_file archive_home = (Ok raw, archive_home) ∧
    @gzip_tar_NewReader linux_amd64 raw = inr tr ∧
    tar_end tr = None ∧
    Forall (fun f => validRelPath (tar_Name f) = true ∧
                     (tar_Type f = Regular ∨ tar_Type f = Directory)) (tar_entries tr).
Proof.
  apply (@unpackTarGz_accepts linux_amd64 sdk_dir release_file archive_home
           (snd (@unpackTarGz linux_amd64 sdk_dir release_file archive_home))).
  vm_compute. reflexivity.
Defined.

Lemma unpackTarGz_loop_stops_witness :
  @unpackTarGz_loop linux_amd64 sdk_dir ∅
    ([tar_dir "go/"] ++ tar_file "../evil.txt" "pwned" :: [tar_file "go/bin/go" "ELF"])
    None archive_home
  = @unpackTarGz_loop linux_amd64 sdk_dir ∅
      ([tar_dir "go/"] ++ tar_file "../evil.txt" "pwned" :: [])
      (Some (ErrorString "unexpected EOF")) archive_home ∧
  ∃ e, fst (@unpackTarGz_loop linux_amd64 sdk_dir ∅
              ([tar_dir "go/"] ++ tar_file "../evil.txt" "pwned"
                 :: [tar_file "go/bin/go" "ELF"])
              None archive_home) = Err e.
Proof.
  apply (@unpackTarGz_loop_stops linux_amd64 sdk_dir [tar_dir "go/"]
           (tar_file "../evil.txt" "pwned") [tar_file "go/bin/go" "ELF"] []
           None (Some (ErrorString "unexpected EOF"))).
  left. reflexivity.
Defined.

Lemma unpackZip_delivers_witness :
  ∃ raw files,
    file_ReadAll "/home/u/sdk/go1.20.8/go1.20.8.windows-amd64.zip" zip_home
    = (Ok raw, zip_home) ∧
    @zip_OpenReader windows_zip raw = inr files ∧
    ∀ pre f rest,
      files = pre ++ f :: rest → zip_IsDir f = false →
      Forall (fun g => zip_IsDir g = false →
                       zip_target sdk_dir g ≠ zip_target sdk_dir f) rest →
      ∃ data perm mtime,
        zip_Open f = inr (data, None) ∧
        fs (snd (@unpackZip windows_zip sdk_dir
                   "/home/u/sdk/go1.20.8/go1.20.8.windows-amd64.zip" zip_home))
          !! zip_target sdk_dir f = Some (File data perm mtime).
Proof.
  apply (@unpackZip_delivers windows_zip sdk_dir
           "/home/u/sdk/go1.20.8/go1.20.8.windows-amd64.zip" zip_home).
  vm_compute. reflexivity.
Defined.

(** ** Paths *)

Section Paths.
Import filepath.

Lemma split_nonempty s : split s ≠ [].
Proof.
  destruct s as [|c s]; cbn [split]; [done|].
  destruct (Ascii.eqb c Separator); [done|]. by destruct (split s).
Qed.

Lemma split_cons_sep s : split (String Separator s) = "" :: split s.
Proof. reflexivity. Qed.

(** The elements on both sides of a separator. *)
Lemma split_app_sep a b : split (a +:+ String Separator b) = split a ++ split b.
Proof.
  induction a as [|c a IH]; [reflexivity|].
  change (String c a +:+ String Separator b) with (String c (a +:+ String Separator b)).
  cbn [split]. rewrite IH. destruct (Ascii.eqb c Separator); [done|].
  pose proof (split_nonempty a). by destruct (split a).
Qed.

(** An element holds no separator. *)
Lemma split_element s : ∀ seg, seg ∈ split s → split seg = [seg].
Proof.
  induction s as [|c s IH]; intros seg Hin; cbn [split] in Hin.
  { apply list_elem_of_singleton in Hin as ->. reflexivity. }
  destruct (Ascii.eqb c Separator) eqn:Hc.
  { apply elem_of_cons in Hin as [->|Hin]; [reflexivity|by apply IH]. }
  pose proof (split_nonempty s). destruct (split s) as [|x r] eqn:Hs; [done|].
  apply elem_of_cons in Hin as [->|Hin].
  - cbn [split]. rewrite Hc. rewrite (IH x) by (by left). reflexivity.
  - apply IH. by right.
Qed.

Lemma split_Join els :
  els ≠ [] → Forall (fun e => split e = [e]) els → split (strings.Join els "/") = els.
Proof.
  induction els as [|e els IH]; [done|]. intros _ Hels.
  apply Forall_cons in Hels as [He Hels].
  destruct els as [|e2 els]; [exact He|].
  change (strings.Join (e :: e2 :: els) "/")
    with (e +:+ String Separator (strings.Join (e2 :: els) "/")).
  rewrite split_app_sep, He, IH by done. reflexivity.
Qed.

Lemma clean_step_plain rooted stack seg :
  plain seg → clean_step rooted stack seg = seg :: stack.
Proof.
  intros (H1 & H2 & H3 & _). unfold clean_step.
  apply String.eqb_neq in H1, H2, H3. by rewrite H1, H2, H3.
Qed.

Lemma fold_clean_plain rooted els : ∀ stack,
  Forall plain els → fold_left (clean_step rooted) els stack = rev els ++ stack.
Proof.
  induction els as [|e els IH]; intros stack Hels; [done|].
  apply Forall_cons in Hels as [He Hels]. cbn [fold_left rev].
  rewrite clean_step_plain, IH by done. by rewrite <- app_assoc.
Qed.

(** Elements other than ".." are kept or skipped, none removes another. *)
Lemma fold_clean_forward rooted segs : ∀ stack,
  Forall (fun seg => seg ≠ "..") segs →
  ∃ more, fold_left (clean_step rooted) segs stack = rev more ++ stack.
Proof.
  induction segs as [|seg segs IH]; intros stack Hsegs; [by exists []|].
  apply Forall_cons in Hsegs as [Hseg Hsegs]. cbn [fold_left].
  unfold clean_step at 2. apply String.eqb_neq in Hseg. rewrite Hseg.
  destruct (_ || _).
  - by apply IH.
  - destruct (IH (seg :: stack) Hsegs) as [more ->]. exists (seg :: more).
    cbn [rev]. by rewrite <- app_assoc.
Qed.

Lemma fold_clean_rooted_plain segs : ∀ stack,
  Forall plain stack → Forall (fun seg => split seg = [seg]) segs →
  Forall plain (fold_left (clean_step true) segs stack).
Proof.
  induction segs as [|seg segs IH]; intros stack Hstack Hsegs; [done|].
  apply Forall_cons in Hsegs as [Hseg Hsegs]. cbn [fold_left]. apply IH; [|done].
  unfold clean_step.
  destruct (String.eqb_spec seg "") as [|H1]; [done|].
  destruct (String.eqb_spec seg ".") as [|H2]; [done|]. cbn [orb].
  destruct (String.eqb_spec seg "..") as [->|H3].
  - destruct stack as [|top below]; [done|].
    apply Forall_cons in Hstack as [(_ & _ & Htop & _) Hbelow].
    apply String.eqb_neq in Htop. by rewrite Htop.
  - by constructor.
Qed.

Lemma cleaned_plain p : strings.HasPrefix p "/" = true → Forall plain (cleaned p).
Proof.
  intros Hp. unfold cleaned. rewrite Hp. apply Forall_rev.
  apply fold_clean_rooted_plain; [done|]. apply Forall_forall. apply split_element.
Qed.

Lemma prefix_empty s : String.prefix "" s = true.
Proof. by destruct s. Qed.

Lemma prefix_cons a s1 b s2 :
  String.prefix (String a s1) (String b s2)
  = if ascii_dec a b then String.prefix s1 s2 else false.
Proof. reflexivity. Qed.

Lemma render_rooted els : strings.HasPrefix (render els) "/" = true.
Proof.
  unfold render, strings.HasPrefix.
  change ("/" +:+ strings.Join els "/") with (String Separator (strings.Join els "/")).
  cbn. by destruct (strings.Join els "/").
Qed.

Lemma Clean_rooted p : strings.HasPrefix p "/" = true → Clean p = render (cleaned p).
Proof. intros Hp. unfold Clean, cleaned. by rewrite Hp. Qed.

Lemma split_render els : els ≠ [] → Forall plain els → split (render els) = "" :: els.
Proof.
  intros Hne Hels. unfold render.
  change ("/" +:+ strings.Join els "/") with (String Separator (strings.Join els "/")).
  rewrite split_cons_sep, split_Join; [done..|].
  eapply Forall_impl; [exact Hels|]. by intros e (_ & _ & _ & He).
Qed.

Lemma cleaned_render els : Forall plain els → cleaned (render els) = els.
Proof.
  intros Hels. unfold cleaned. rewrite render_rooted.
  destruct els as [|e els]; [reflexivity|].
  rewrite split_render by done.
  change ("" :: e :: els) with ([""] ++ e :: els). rewrite fold_left_app.
  change (fold_left (clean_step true) [""] []) with (@nil string).
  rewrite fold_clean_plain by done. by rewrite app_nil_r, rev_involutive.
Qed.

Lemma HasPrefix_app_sep a b :
  a ≠ "" → strings.HasPrefix (a +:+ String Separator b) "/" = strings.HasPrefix a "/".
Proof.
  intros Ha. destruct a as [|c a]; [done|]. unfold strings.HasPrefix.
  change (String c a +:+ String Separator b) with (String c (a +:+ String Separator b)).
  change "/" with (String Separator ""). rewrite !prefix_cons.
  destruct (ascii_dec _ _); [|done]. by rewrite !prefix_empty.
Qed.

Lemma Join_pair dir rel :
  dir ≠ "" → Join [dir; rel] = Clean (dir +:+ String Separator rel).
Proof.
  intros Hd. cbn [Join]. apply String.eqb_neq in Hd. by rewrite Hd.
Qed.

(** Joining below a directory names a path in it when no element of the
    relative part is "..". *)
Lemma Join_within dir rel :
  strings.HasPrefix dir "/" = true →
  Forall (fun seg => seg ≠ "..") (split rel) →
  ∃ more, Join [dir; rel] = render (cleaned dir ++ more) ∧
          Forall plain (cleaned dir ++ more).
Proof.
  intros Hd Hrel.
  assert (dir ≠ "") as Hne by (by intros ->).
  assert (strings.HasPrefix (dir +:+ String Separator rel) "/" = true) as Hr.
  { by rewrite HasPrefix_app_sep. }
  rewrite Join_pair, (Clean_rooted _ Hr) by done.
  pose proof (cleaned_plain _ Hr) as Hplain.
  assert (cleaned dir = rev (fold_left (clean_step true) (split dir) [])) as Hdir.
  { unfold cleaned. by rewrite Hd. }
  assert (∃ more, cleaned (dir +:+ String Separator rel) = cleaned dir ++ more)
    as [more Hmore].
  { unfold cleaned at 1. rewrite Hr, split_app_sep, fold_left_app.
    destruct (fold_clean_forward true (split rel)
                (fold_left (clean_step true) (split dir) []) Hrel) as [more ->].
    exists more. by rewrite rev_app_distr, rev_involutive, Hdir. }
  exists more. rewrite <- Hmore. by split.
Qed.

(** Where "../" does not occur, no element but the last is "..". *)
Lemma index_None_cons sub c s :
  String.index 0 sub (String c s) = None →
  String.prefix sub (String c s) = false ∧ String.index 0 sub s = None.
Proof.
  cbn [String.index]. destruct (String.prefix sub (String c s)); [done|].
  by destruct (String.index 0 sub s).
Qed.

Lemma split_head_dot s r :
  split s = "." :: r → r ≠ [] → String.prefix "./" s = true.
Proof.
  destruct s as [|c1 s1]; [done|]. cbn [split].
  destruct (Ascii.eqb_spec c1 Separator) as [->|Hc1]; [done|].
  pose proof (split_nonempty s1). destruct (split s1) as [|x1 r1] eqn:Hs1; [done|].
  intros [= -> -> ->] Hr. destruct s1 as [|c2 s2]; [by inversion Hs1; subst|].
  cbn [split] in Hs1. destruct (Ascii.eqb_spec c2 Separator) as [->|Hc2].
  - change "./" with (String "."%char (String Separator "")). rewrite !prefix_cons.
    destruct (ascii_dec _ _); [|done]. destruct (ascii_dec _ _); [|done].
    apply prefix_empty.
  - pose proof (split_nonempty s2). by destruct (split s2).
Qed.

Lemma no_dotdot_inner s :
  String.index 0 "../" s = None → Forall (fun seg => seg ≠ "..") (removelast (split s)).
Proof.
  induction s as [|c s IH]; intros Hidx; [constructor|].
  apply index_None_cons in Hidx as [Hpre Hidx]. specialize (IH Hidx).
  pose proof (split_nonempty s) as Hne. cbn [split].
  destruct (Ascii.eqb_spec c Separator) as [->|Hc].
  { destruct (split s) as [|x r]; [done|]. cbn [removelast] in *. by constructor. }
  destruct (split s) as [|x r] eqn:Hs; [done|].
  destruct r as [|y r]; [constructor|].
  change (removelast (String c x :: y :: r)) with (String c x :: removelast (y :: r)).
  change (removelast (x :: y :: r)) with (x :: removelast (y :: r)) in IH.
  apply Forall_cons in IH as [_ IH]. constructor; [|done].
  intros [= -> ->]. apply split_head_dot in Hs; [|done].
  revert Hpre. change "../" with (String "."%char "./"). rewrite prefix_cons.
  destruct (ascii_dec _ _); [|done]. by rewrite Hs.
Qed.

Lemma Contains_false s sub :
  strings.Contains s sub = false → String.index 0 sub s = None.
Proof.
  unfold strings.Contains, strings.Index. destruct (String.index 0 sub s); [|done].
  intros Hle. apply Z.leb_gt in Hle. lia.
Qed.

Lemma validRelPath_inner name :
  validRelPath name = true →
  Forall (fun seg => seg ≠ "..") (removelast (split name)).
Proof.
  unfold validRelPath. intros Hv. apply no_dotdot_inner, Contains_false.
  destruct (strings.Contains name "../"); [|done].
  by rewrite !orb_true_r in Hv.
Qed.

Lemma removelast_last {A} (l : list A) x : last l = Some x → l = removelast l ++ [x].
Proof.
  induction l as [|a l IH]; [done|]. destruct l as [|b l].
  - by intros [= ->].
  - intros Hl. change (removelast (a :: b :: l)) with (a :: removelast (b :: l)).
    cbn [app]. f_equal. by apply IH.
Qed.

Lemma no_dotdot_all l :
  Forall (fun seg : string => seg ≠ "..") (removelast l) → last l ≠ Some ".." →
  Forall (fun seg => seg ≠ "..") l.
Proof.
  intros Hinner Hlast. destruct (last l) as [x|] eqn:Hl.
  - rewrite (removelast_last l x Hl). apply Forall_app. split; [done|].
    constructor; [|done]. by intros ->.
  - apply last_None in Hl as ->. constructor.
Qed.

Lemma substring_all s : substring 0 (String.length s) s = s.
Proof. induction s as [|c s IH]; [done|]. cbn. by rewrite IH. Qed.

(** What [TrimPrefix] leaves of a name that begins with "go/". *)
Lemma TrimPrefix_go name :
  strings.HasPrefix name "go/" = true →
  name = "go" +:+ String Separator (strings.TrimPrefix name "go/").
Proof.
  intros Hp. unfold strings.TrimPrefix. rewrite Hp. unfold strings.HasPrefix in Hp.
  destruct name as [|c1 [|c2 [|c3 rest]]]; try done.
  { revert Hp. change "go/" with (String "g"%char (String "o"%char "/")).
    rewrite prefix_cons. by destruct (ascii_dec _ _). }
  { revert Hp. change "go/" with (String "g"%char (String "o"%char "/")).
    rewrite !prefix_cons. by repeat destruct (ascii_dec _ _). }
  revert Hp.
  change "go/" with (String "g"%char (String "o"%char (String Separator ""))).
  rewrite !prefix_cons.
  destruct (ascii_dec _ c1) as [<-|]; [|done].
  destruct (ascii_dec _ c2) as [<-|]; [|done].
  destruct (ascii_dec _ c3) as [<-|]; [|done]. intros _.
  cbn [String.length]. rewrite !Nat.sub_succ, Nat.sub_0_r. cbn [substring].
  by rewrite substring_all.
Qed.

Lemma TrimPrefix_go_split name :
  Forall (fun seg => seg ≠ "..") (removelast (split name)) →
  last (split name) ≠ Some ".." →
  Forall (fun seg => seg ≠ "..") (split (strings.TrimPrefix name "go/")).
Proof.
  intros Hinner Hlast. pose proof (no_dotdot_all _ Hinner Hlast) as Hall.
  destruct (strings.HasPrefix name "go/") eqn:Hp.
  - rewrite (TrimPrefix_go name Hp), split_app_sep in Hall.
    by apply Forall_app in Hall as [_ Hall].
  - unfold strings.TrimPrefix. by rewrite Hp.
Qed.

Lemma within_render dir els more :
  strings.HasPrefix dir "/" = true → els = cleaned dir ++ more → Forall plain els →
  within dir (render els).
Proof.
  intros Hd -> Hplain. split; [done|]. split; [apply render_rooted|].
  rewrite cleaned_render by done. by exists more.
Qed.

(** X20.  A name [validRelPath] accepts, and whose last element is not
    "..", is unpacked inside the target directory: below an absolute
    [targetDir], the path [unpackTarGz] builds from the name is [targetDir]
    or lies under it. *)
Theorem tar_target_within (targetDir : string) (f : tar_entry) :
  strings.HasPrefix targetDir "/" = true →
  validRelPath (tar_Name f) = true →
  last (split (tar_Name f)) ≠ Some ".." →
  within targetDir (tar_target targetDir f).
Proof.
  intros Hd Hv Hlast. unfold tar_target, FromSlash.
  destruct (Join_within targetDir (strings.TrimPrefix (tar_Name f) "go/") Hd)
    as (more & -> & Hplain).
  { apply TrimPrefix_go_split; [by apply validRelPath_inner|done]. }
  by eapply within_render.
Qed.

Lemma Forall_prefix {A} (P : A -> Prop) (l1 l2 : list A) :
  l1 `prefix_of` l2 → Forall P l2 → Forall P l1.
Proof. intros [k ->] Hl. by apply Forall_app in Hl as [Hl _]. Qed.

Lemma removelast_prefix {A} (l : list A) : removelast l `prefix_of` l.
Proof.
  destruct (last l) as [x|] eqn:Hl.
  - exists [x]. by apply removelast_last.
  - apply last_None in Hl as ->. by exists [].
Qed.

(** [filepath.Dir] of a cleaned absolute path drops its last element. *)
Lemma Dir_render els : Forall plain els → Dir (render els) = render (removelast els).
Proof.
  intros Hels. destruct els as [|e els]; [reflexivity|].
  pose proof (Forall_prefix _ _ _ (removelast_prefix (e :: els)) Hels) as Hinit.
  unfold Dir. rewrite split_render by done.
  change (removelast ("" :: e :: els)) with ("" :: removelast (e :: els)).
  set (l := ("" :: removelast (e :: els)) ++ [""]).
  assert (split (strings.Join l "/") = l) as Hsplit.
  { apply split_Join; [done|]. unfold l. apply Forall_app. split; [|by repeat constructor].
    constructor; [done|]. eapply Forall_impl; [exact Hinit|]. by intros x (_ & _ & _ & Hx). }
  assert (strings.HasPrefix (strings.Join l "/") "/" = true) as Hr.
  { unfold l. destruct (removelast (e :: els)) as [|x r]; [reflexivity|].
    change (strings.Join (("" :: x :: r) ++ [""]) "/")
      with (String Separator (strings.Join ((x :: r) ++ [""]) "/")).
    unfold strings.HasPrefix. change "/" with (String Separator "").
    rewrite prefix_cons. destruct (ascii_dec _ _); [apply prefix_empty|done]. }
  rewrite (Clean_rooted _ Hr). f_equal. unfold cleaned. rewrite Hr, Hsplit. unfold l.
  change (("" :: removelast (e :: els)) ++ [""])
    with ([""] ++ removelast (e :: els) ++ [""]).
  rewrite !fold_left_app.
  change (fold_left (clean_step true) [""] []) with (@nil string).
  rewrite (fold_clean_plain true (removelast (e :: els))) by done.
  rewrite app_nil_r. cbn [fold_left].
  change (clean_step true ?st "") with st. by rewrite rev_involutive.
Qed.

(** The directories above a cleaned absolute path, as [os.MkdirAll] walks
    them. *)
Lemma lineage_render fuel : ∀ els q,
  Forall plain els → q ∈ lineage fuel (render els) →
  ∃ els', els' `prefix_of` els ∧ Forall plain els' ∧ q = render els'.
Proof.
  induction fuel as [|fuel IH]; intros els q Hels Hin; cbn [lineage] in Hin.
  { by apply elem_of_nil in Hin. }
  destruct (_ || _); [by apply elem_of_nil in Hin|].
  apply elem_of_cons in Hin as [->|Hin]; [by exists els|].
  rewrite Dir_render in Hin by done.
  apply IH in Hin as (els' & Hpre & Hplain & ->).
  2:{ by apply (Forall_prefix _ _ _ (removelast_prefix els)). }
  exists els'. split; [|done]. etrans; [exact Hpre|apply removelast_prefix].
Qed.

(** A directory [os.MkdirAll] may make on the way to a path in [dir] lies
    in [dir] or above it. *)
Lemma made_by_confined dir els more q :
  strings.HasPrefix dir "/" = true →
  els `prefix_of` cleaned dir ++ more → Forall plain els →
  q ∈ made_by (render els) → confined dir (OsMkdir q).
Proof.
  intros Hd Hpre Hplain Hin p [= <-]. unfold made_by in Hin.
  apply lineage_render in Hin as (els' & Hpre' & Hplain' & ->); [|done].
  assert (els' `prefix_of` cleaned dir ++ more) as Hpre2 by (by etrans).
  destruct (prefix_weak_total _ _ _ (prefix_app_r (cleaned dir) (cleaned dir) more
                                       (reflexivity _)) Hpre2) as [Hle|Hle].
  - left. destruct Hle as [k ->]. by eapply within_render.
  - right. split; [done|]. split; [apply render_rooted|]. split; [done|].
    by rewrite cleaned_render.
Qed.

Lemma confined_within dir ev p :
  touched ev = Some p → within dir p → confined dir ev.
Proof. intros Hp Hw q Hq. rewrite Hp in Hq. inversion Hq; subst. by left. Qed.

Lemma confined_quiet dir ev : touched ev = None → confined dir ev.
Proof. intros Hev p Hp. by rewrite Hev in Hp. Qed.

(** What unpacking to a path in [dir] may emit. *)
Lemma target_confined dir rel :
  strings.HasPrefix dir "/" = true →
  Forall (fun seg => seg ≠ "..") (split rel) →
  (∀ q, q ∈ made_by (Join [dir; rel]) → confined dir (OsMkdir q)) ∧
  (∀ q, q ∈ made_by (Dir (Join [dir; rel])) → confined dir (OsMkdir q)) ∧
  within dir (Join [dir; rel]).
Proof.
  intros Hd Hrel. destruct (Join_within dir rel Hd Hrel) as (more & -> & Hplain).
  split; [|split].
  - intros q. by apply made_by_confined with more.
  - intros q. rewrite Dir_render by done.
    apply made_by_confined with more; [done|apply removelast_prefix|].
    by apply (Forall_prefix _ _ _ (removelast_prefix _)).
  - by eapply within_render.
Qed.

End Paths.

Lemma tar_target_within_witness :
  within sdk_dir (tar_target sdk_dir (tar_file "go/./bin//go" "ELF")).
Proof.
  apply (tar_target_within sdk_dir (tar_file "go/./bin//go" "ELF")).
  - reflexivity.
  - reflexivity.
  - vm_compute. discriminate.
Defined.

(** ** The unpackers stay in the target directory *)

Section Confinement.
Context `{Host}.

Lemma unpackTarGz_loop_confined targetDir entries tend madeDir :
  strings.HasPrefix targetDir "/" = true →
  Forall (fun f => last (filepath.split (tar_Name f)) ≠ Some "..") entries →
  emits (confined targetDir) (unpackTarGz_loop targetDir madeDir entries tend).
Proof.
  intros Hd Hlast. apply unpackTarGz_loop_emits.
  { intros e. by apply confined_quiet. }
  eapply Forall_impl; [exact Hlast|]. intros f Hf Hv. cbv beta in Hf.
  destruct (target_confined targetDir
              (filepath.FromSlash (strings.TrimPrefix (tar_Name f) "go/")) Hd)
    as (Hmk & Hmkdir & Hw).
  { apply TrimPrefix_go_split; [by apply validRelPath_inner|done]. }
  fold (tar_target targetDir f) in Hmk, Hmkdir, Hw.
  destruct (tar_Type f); [|done..].
  split; [done|]. repeat split; try by eapply confined_within.
  by apply confined_quiet.
Qed.


Lemma TrimPrefix_go_all name :
  Forall (fun seg => seg ≠ "..") (filepath.split name) →
  Forall (fun seg => seg ≠ "..") (filepath.split (strings.TrimPrefix name "go/")).
Proof.
  intros Hall. destruct (strings.HasPrefix name "go/") eqn:Hp.
  - rewrite (TrimPrefix_go name Hp), split_app_sep in Hall.
    by apply Forall_app in Hall as [_ Hall].
  - unfold strings.TrimPrefix. by rewrite Hp.
Qed.

Lemma unpackZip_loop_confined targetDir files :
  strings.HasPrefix targetDir "/" = true →
  Forall (fun f => Forall (fun seg => seg ≠ "..") (filepath.split (zip_Name f))) files →
  emits (confined targetDir) (unpackZip_loop targetDir files).
Proof.
  intros Hd Hnames. apply unpackZip_loop_emits.
  eapply Forall_impl; [exact Hnames|]. intros f Hf. cbv beta in Hf.
  destruct (target_confined targetDir (strings.TrimPrefix (zip_Name f) "go/") Hd)
    as (Hmk & Hmkdir & Hw); [by apply TrimPrefix_go_all|].
  fold (zip_target targetDir f) in Hmk, Hmkdir, Hw.
  destruct (zip_IsDir f); [done|].
  split; [done|]. repeat split; try by eapply confined_within.
  by apply confined_quiet.
Qed.


End Confinement.



(** ** The unpacker [install] picks *)

Section Dispatch.
Import filepath.

Lemma append_cons c (a b : string) : String c a +:+ b = String c (a +:+ b).
Proof. reflexivity. Qed.

Lemma append_assoc (a b c : string) : (a +:+ b) +:+ c = a +:+ (b +:+ c).
Proof. induction a as [|x a IH]; [done|]. by rewrite !append_cons, IH. Qed.

Lemma length_append (a b : string) :
  String.length (a +:+ b) = String.length a + String.length b.
Proof. induction a as [|x a IH]; [done|]. rewrite append_cons. cbn. by rewrite IH. Qed.

Lemma substring_append_r (a b : string) n :
  substring (String.length a) n (a +:+ b) = substring 0 n b.
Proof. induction a as [|x a IH]; [done|]. rewrite append_cons. exact IH. Qed.

Lemma HasSuffix_append a suf : strings.HasSuffix (a +:+ suf) suf = true.
Proof.
  unfold strings.HasSuffix. rewrite length_append.
  replace (String.length a + String.length suf - String.length suf)
    with (String.length a) by lia.
  rewrite substring_append_r, substring_all, String.eqb_refl.
  apply andb_true_iff. split; [|done]. apply Nat.leb_le. lia.
Qed.

Lemma HasSuffix_targz_zip a : strings.HasSuffix (a +:+ ".tar.gz") ".zip" = false.
Proof.
  unfold strings.HasSuffix.
  change ".tar.gz" with (".ta" +:+ "r.gz"). rewrite <- append_assoc, length_append.
  change (String.length "r.gz") with 4. change (String.length ".zip") with 4.
  replace (String.length (a +:+ ".ta") + 4 - 4) with (String.length (a +:+ ".ta")) by lia.
  rewrite substring_append_r. apply andb_false_iff. by right.
Qed.

(** The last element of a path that ends in a suffix without separator. *)
Lemma split_append_last s ext :
  split ext = [ext] →
  ∃ init l, split s = init ++ [l] ∧ split (s +:+ ext) = init ++ [l +:+ ext].
Proof.
  intros Hext. induction s as [|c s (init & l & Hs & Hse)].
  { exists [], "". split; [done|]. change ("" +:+ ext) with ext. by rewrite Hext. }
  change (String c s +:+ ext) with (String c (s +:+ ext)). cbn [split].
  rewrite Hs, Hse. destruct (Ascii.eqb c Separator).
  - by exists ("" :: init), l.
  - destruct init as [|x init]; cbn [app].
    + by exists [], (String c l).
    + by exists (String c x :: init), l.
Qed.

Lemma drop_trailing_empty_keep init l :
  l ≠ "" → drop_trailing_empty (init ++ [l]) = init ++ [l].
Proof.
  intros Hl. induction init as [|x init IH]; cbn [app drop_trailing_empty].
  - apply String.eqb_neq in Hl. by rewrite Hl.
  - rewrite IH. by destruct init.
Qed.

Lemma append_nonempty (a b : string) : b ≠ "" → a +:+ b ≠ "".
Proof. intros Hb. by destruct a. Qed.

Lemma Base_append s ext :
  split ext = [ext] → ext ≠ "" → ∃ l, split l = [l] ∧ Base (s +:+ ext) = l +:+ ext.
Proof.
  intros Hext Hne. destruct (split_append_last s ext Hext) as (init & l & Hs & Hse).
  exists l. split.
  { apply (split_element s). rewrite Hs. apply elem_of_app. right. by left. }
  unfold Base. pose proof (append_nonempty s ext Hne) as Hnz.
  apply String.eqb_neq in Hnz. rewrite Hnz, Hse.
  rewrite drop_trailing_empty_keep by (by apply append_nonempty).
  by rewrite last_snoc.
Qed.

Lemma split_append_plain (a b : string) :
  split a = [a] → split b = [b] → split (a +:+ b) = [a +:+ b].
Proof.
  intros Ha Hb. destruct (split_append_last a b Hb) as (init & l & Hs & Hse).
  rewrite Ha in Hs. destruct init as [|x init].
  - inversion Hs; subst. exact Hse.
  - inversion Hs as [[Hx Hinit]]. by destruct init.
Qed.

Lemma Join_snoc els b : ∃ z, strings.Join (els ++ [b]) "/" = z +:+ b.
Proof.
  induction els as [|e els [z IH]]; [by exists ""|].
  destruct els as [|e2 els].
  - exists (e +:+ "/"). cbn [app strings.Join]. by rewrite append_assoc.
  - exists (e +:+ "/" +:+ z).
    change (strings.Join ((e :: e2 :: els) ++ [b]) "/")
      with (e +:+ "/" +:+ strings.Join ((e2 :: els) ++ [b]) "/").
    rewrite IH. by rewrite !append_assoc.
Qed.

(** Cleaning keeps a last element that is plain. *)
Lemma Clean_last p init b :
  split p = init ++ [b] → plain b → ∃ z, Clean p = z +:+ b.
Proof.
  intros Hp Hb. unfold Clean. rewrite Hp, fold_left_app. cbn [fold_left].
  rewrite clean_step_plain by done. cbn [rev].
  destruct (Join_snoc (rev (fold_left (clean_step (strings.HasPrefix p "/")) init [])) b)
    as [z ->].
  destruct (strings.HasPrefix p "/").
  - exists ("/" +:+ z). rewrite <- append_assoc.
    assert (("/" +:+ z) +:+ b ≠ "") as Hnz by done.
    apply String.eqb_neq in Hnz. by rewrite Hnz.
  - exists z. destruct Hb as (Hb & _).
    pose proof (append_nonempty z b Hb) as Hnz.
    apply String.eqb_neq in Hnz. by rewrite Hnz.
Qed.

Lemma Join_last dir b : plain b → ∃ z, Join [dir; b] = z +:+ b.
Proof.
  intros Hb. pose proof Hb as (Hne & _ & _ & Hsplit). cbn [Join].
  apply String.eqb_neq in Hne. rewrite Hne.
  destruct (String.eqb_spec dir "") as [->|Hd].
  - apply (Clean_last _ []); [|done]. exact Hsplit.
  - apply (Clean_last _ (split dir)); [|done].
    change (strings.Join [dir; b] "/") with (dir +:+ String Separator b).
    by rewrite split_app_sep, Hsplit.
Qed.

Lemma plain_suffixed l ext :
  split l = [l] → split ext = [ext] → (3 ≤ String.length ext)%nat → plain (l +:+ ext).
Proof.
  intros Hl Hext Hlen.
  assert (3 ≤ String.length (l +:+ ext))%nat as Hlong by (rewrite length_append; lia).
  repeat split; try (intros Heq; rewrite Heq in Hlong; cbn in Hlong; lia).
  by apply split_append_plain.
Qed.

End Dispatch.

(** The archive [install] names ends in the suffix of its format. *)
Lemma archive_suffix `{Host} (targetDir version : string) :
  ∃ z, filepath.Join [targetDir; filepath.Base (versionArchiveURL version)]
       = z +:+ (if String.eqb GOOS "windows" then ".zip" else ".tar.gz").
Proof.
  assert (∀ ext, filepath.split ext = [ext] → (3 ≤ String.length ext)%nat →
            ∀ s, ∃ z, filepath.Join [targetDir; filepath.Base (s +:+ ext)] = z +:+ ext)
    as Hends.
  { intros ext Hext Hlen s.
    destruct (Base_append s ext Hext) as (l & Hl & ->).
    { intros ->. cbn in Hlen. lia. }
    destruct (Join_last targetDir (l +:+ ext)) as [z ->].
    { by apply plain_suffixed. }
    exists (z +:+ l). by rewrite append_assoc. }
  unfold versionArchiveURL, getOS. cbv zeta.
  destruct (String.eqb GOOS "windows"); rewrite <- !append_assoc; apply Hends;
    first [reflexivity|cbn; lia].
Qed.

Lemma unpackArchive_dispatch `{Host} (targetDir version : string) (w : World) :
  let archiveFile := filepath.Join [targetDir; filepath.Base (versionArchiveURL version)] in
  unpackArchive targetDir archiveFile w
  = if String.eqb GOOS "windows" then unpackZip targetDir archiveFile w
    else unpackTarGz targetDir archiveFile w.
Proof.
  intros archiveFile. unfold unpackArchive.
  destruct (archive_suffix targetDir version) as [z Hz]. fold archiveFile in Hz.
  rewrite Hz. destruct (String.eqb GOOS "windows").
  - by rewrite HasSuffix_append.
  - by rewrite HasSuffix_targz_zip, HasSuffix_append.
Qed.

(** X23.  [install] always finds an unpacker for the archive it names:
    the path it builds from the address of the release ends in ".zip" on
    windows and in ".tar.gz" elsewhere, so that [unpackArchive] runs
    [unpackZip] on windows and [unpackTarGz] elsewhere, and its own error
    "unsupported archive file" cannot occur. *)
Theorem install_unpacker `{Host} (targetDir version : string) (w : World) :
  let archiveFile := filepath.Join [targetDir; filepath.Base (versionArchiveURL version)] in
  (∃ z, archiveFile = z +:+ (if String.eqb GOOS "windows" then ".zip" else ".tar.gz")) ∧
  unpackArchive targetDir archiveFile w
  = if String.eqb GOOS "windows" then unpackZip targetDir archiveFile w
    else unpackTarGz targetDir archiveFile w.
Proof.
  intros archiveFile. split; [apply archive_suffix|apply unpackArchive_dispatch].
Qed.

(** ** From the digest to the files on disk *)

Section Steady.
Context `{Host}.

Lemma same_host_refl w : same_host w w.
Proof. by repeat split. Qed.

Lemma same_host_trans w1 w2 w3 : same_host w1 w2 → same_host w2 w3 → same_host w1 w3.
Proof.
  intros (D1 & M1 & H1 & G1) (D2 & M2 & H2 & G2).
  repeat split; congruence.
Qed.

Lemma steady_silent {A} (m : M A) : silent m → steady m.
Proof. intros Hs w r w' Hrun. apply Hs in Hrun as ->. apply same_host_refl. Qed.

Lemma steady_ret {A} (a : A) : steady (mret a).
Proof. intros w r w' [= <- <-]. apply same_host_refl. Qed.

Lemma steady_fail {A} (e : error) : steady (@fail A e).
Proof. intros w r w' [= <- <-]. apply same_host_refl. Qed.

Lemma steady_bind {A B} (m : M A) (k : A -> M B) :
  steady m → (∀ a, steady (k a)) → steady (m ≫= k).
Proof.
  intros Hm Hk w r w' Hrun. apply bind_inv in Hrun as [(a & w1 & H1 & H2)|(e & H1 & ->)].
  - eapply same_host_trans; [by eapply Hm|by eapply Hk].
  - by eapply Hm.
Qed.

Lemma steady_try {A} (m : M A) : steady m → steady (try m).
Proof. intros Hm w r w' Hrun. apply try_inv in Hrun as (r0 & -> & H1). by eapply Hm. Qed.

Lemma steady_wrap {A} format args (m : M A) : steady m → steady (wrap format args m).
Proof.
  intros Hm w r w' Hrun.
  apply wrap_inv in Hrun as [(a & H1 & ->)|(e & H1 & ->)]; by eapply Hm.
Qed.

Lemma steady_emit ev : steady (emit ev).
Proof. intros w r w' [= <- <-]. by repeat split. Qed.

Lemma steady_update_fs f ev : steady (update_fs f ev).
Proof. intros w r w' [= <- <-]. by repeat split. Qed.

Lemma os_Mkdir_steady p perm : steady (os_Mkdir p perm).
Proof.
  intros w r w'. unfold os_Mkdir. destruct (is_denied w p).
  { intros [= <- <-]. apply same_host_refl. }
  destruct (lookup_node w p).
  { intros [= <- <-]. apply same_host_refl. }
  revert w r w'.
  change (steady (check_parent "mkdir" p ;; update_fs (insert p (Dir perm)) (OsMkdir p))).
  apply steady_bind; [apply steady_silent, check_parent_silent|]. intros _.
  apply steady_update_fs.
Qed.

Lemma mkdirAll_steady chain perm : steady (mkdirAll chain perm).
Proof.
  induction chain as [|p parents IH]; cbn [mkdirAll]; [apply steady_ret|].
  apply steady_bind; [apply steady_try, steady_silent, os_Stat_silent|]. intros [dir|e].
  - destruct (fi_IsDir dir); [apply steady_ret|apply steady_fail].
  - apply steady_bind; [exact IH|]. intros _.
    apply steady_bind; [apply steady_try, os_Mkdir_steady|].
    intros [?|err]; [apply steady_ret|].
    apply steady_bind; [apply steady_try, steady_silent, os_Stat_silent|].
    intros [dir1|?]; [|apply steady_fail].
    destruct (fi_IsDir dir1); [apply steady_ret|apply steady_fail].
Qed.

Lemma os_OpenFile_steady p perm : steady (os_OpenFile p perm).
Proof.
  intros w r w'. unfold os_OpenFile. destruct (is_denied w p).
  { intros [= <- <-]. apply same_host_refl. }
  revert w r w'. change (steady (check_parent "open" p ;; open_trunc p perm)).
  apply steady_bind; [apply steady_silent, check_parent_silent|]. intros _.
  intros w r w'. unfold open_trunc, update_fs.
  destruct (lookup_node w p) as [[]|]; intros [= <- <-]; by repeat split.
Qed.

Lemma io_Copy_steady dst data rerr : steady (io_Copy dst data rerr).
Proof.
  intros w r w'. unfold io_Copy, file_Write.
  destruct (fs w !! dst) as [[d pm mt|]|]; [|by intros [= <- <-]; repeat split..].
  destruct (_ <=? _)%nat; intros [= <- <-]; by repeat split.
Qed.

Lemma os_Remove_steady p : steady (os_Remove p).
Proof.
  intros w r w'. unfold os_Remove, update_fs. destruct (is_denied w p).
  { intros [= <- <-]. apply same_host_refl. }
  destruct (fs w !! p) as [[]|]; [| |by intros [= <- <-]; repeat split].
  - intros [= <- <-]. by repeat split.
  - destruct (has_child _ _); intros [= <- <-]; by repeat split.
Qed.

Lemma http_Head_steady url : steady (http_Head url).
Proof.
  intros w r w'. unfold http_Head. destruct (net_Head w url); intros [= <- <-];
    by repeat split.
Qed.

Lemma http_Get_steady url : steady (http_Get url).
Proof.
  intros w r w'. unfold http_Get. destruct (net_Get w url); intros [= <- <-];
    by repeat split.
Qed.

Lemma copyFromURL_steady dstFile srcURL : steady (copyFromURL dstFile srcURL).
Proof.
  assert (steady (copyFromURL_body dstFile srcURL)) as Hbody.
  { unfold copyFromURL_body. apply steady_bind; [apply http_Get_steady|]. intros res.
    destruct (negb _); [apply steady_fail|].
    apply steady_bind; [apply io_Copy_steady|]. intros [n err].
    destruct err; [apply steady_fail|]. destruct (_ && _); [apply steady_fail|].
    apply steady_bind; [apply steady_emit|]. intros _. apply steady_emit. }
  intros w r w' Hrun. unfold copyFromURL in Hrun.
  destruct (os_Create dstFile w) as [[[]|e] w1] eqn:Hc; apply os_OpenFile_steady in Hc.
  2:{ by inversion Hrun; subst. }
  destruct (copyFromURL_body dstFile srcURL w1) as [[[]|e] w2] eqn:Hb; apply Hbody in Hb.
  { inversion Hrun; subst. by eapply same_host_trans. }
  destruct (os_Close dstFile w2) as [r3 w3] eqn:Hcl. apply steady_emit in Hcl.
  destruct (os_Remove dstFile w3) as [r4 w4] eqn:Hrm. apply os_Remove_steady in Hrm.
  inversion Hrun; subst.
  eapply same_host_trans; [exact Hc|]. eapply same_host_trans; [exact Hb|].
  by eapply same_host_trans.
Qed.

Lemma install_fetch_steady goURL archiveFile res :
  steady (install_fetch goURL archiveFile res).
Proof.
  unfold install_fetch.
  apply steady_bind; [apply steady_try, steady_silent, os_Stat_silent|]. intros st.
  cbv zeta. destruct (match st with Ok _ => _ | Err _ => _ end); [|apply steady_ret].
  apply steady_bind.
  { destruct st as [|err]; [apply steady_ret|].
    destruct (negb _); [apply steady_fail|apply steady_ret]. }
  intros _. apply steady_bind; [apply steady_wrap, copyFromURL_steady|]. intros _.
  apply steady_bind; [apply steady_silent, os_Stat_silent|]. intros fi.
  destruct (negb _); [apply steady_fail|apply steady_ret].
Qed.

End Steady.

Section EndToEnd.
Context `{Host}.

Lemma slurpURLToString_Ok url w body w' :
  slurpURLToString url w = (Ok body, w') →
  ∃ res, net_Get w url = inr res ∧ StatusCode res = 200%Z ∧ BodyErr res = None ∧
         body = Body res ∧ w' = add_event w (HttpGet url).
Proof.
  unfold slurpURLToString. intros Hrun.
  apply bind_inv in Hrun as [(res & w1 & Hget & Hrun)|(e & _ & [=])].
  unfold http_Get in Hget. destruct (net_Get w url) as [err|res0]; [done|].
  inversion Hget; subst res0 w1. exists res. split; [done|].
  destruct (StatusCode res =? 200)%Z eqn:Hst; cbn [negb] in Hrun; [|done].
  destruct (BodyErr res); [done|]. inversion Hrun; subst.
  by apply Z.eqb_eq in Hst.
Qed.

Lemma verifySHA256_Ok file wantHex w w' :
  verifySHA256 file wantHex w = (Ok tt, w') →
  w' = w ∧ ∃ data, file_ReadAll file w = (Ok data, w) ∧
                   sha256.hex (sha256.Sum256 data) = wantHex.
Proof.
  intros Hrun. pose proof (verifySHA256_silent _ _ _ _ _ Hrun) as ->. split; [done|].
  unfold verifySHA256 in Hrun.
  apply bind_inv in Hrun as [([] & w1 & Hopen & Hrun)|(e & _ & [=])].
  apply os_Open_silent in Hopen as ->.
  apply bind_inv in Hrun as [(data & w1 & Hread & Hrun)|(e & _ & [=])].
  pose proof (file_ReadAll_silent _ _ _ _ Hread) as ->.
  exists data. split; [done|].
  destruct (String.eqb_spec (sha256.hex (sha256.Sum256 data)) wantHex); [done|].
  cbn [negb] in Hrun. done.
Qed.

Lemma file_ReadAll_add_event p w ev :
  file_ReadAll p (add_event w ev) = (fst (file_ReadAll p w), add_event w ev).
Proof. unfold file_ReadAll, lookup_node. cbn. repeat case_match; reflexivity. Qed.

(** X24.  What a run of [install] that unpacks a tar archive has achieved
    when it returns [nil]: the archive it unpacked has the SHA-256 digest
    the server states in the [.sha256] file, and every regular record of it
    is on disk with its bytes, unless a later regular record has the same
    path or the path is that of the marker. *)
Theorem install_installs (targetDir version : string) (w w' : World) :
  GOOS ≠ "windows" →
  (∀ fi, os_Stat (filepath.Join [targetDir; unpackedOkay]) w ≠ (Ok fi, w)) →
  install targetDir version w = (Ok tt, w') →
  ∃ res raw tr,
    net_Get w (versionArchiveURL version +:+ ".sha256") = inr res ∧
    sha256.hex (sha256.Sum256 raw) = strings.TrimSpace (Body res) ∧
    gzip_tar_NewReader raw = inr tr ∧
    ∀ pre f rest,
      tar_entries tr = pre ++ f :: rest → tar_Type f = Regular →
      tar_target targetDir f ≠ filepath.Join [targetDir; unpackedOkay] →
      Forall (fun g => tar_Type g = Regular →
                       tar_target targetDir g ≠ tar_target targetDir f) rest →
      ∃ perm mtime, fs w' !! tar_target targetDir f = Some (File (tar_Data f) perm mtime).
Proof.
  intros Hos Hno Hrun. unfold install in Hrun.
  set (goURL := versionArchiveURL version) in *.
  set (archiveFile := filepath.Join [targetDir; filepath.Base goURL]) in *.
  apply bind_inv in Hrun as [(st & w1 & Htry & Hrun)|(e & _ & [=])].
  apply try_inv in Htry as (r0 & [= ->] & Hst).
  pose proof (os_Stat_silent _ _ _ _ Hst) as ->.
  destruct r0 as [fi|e0]; [by destruct (Hno fi)|].
  apply bind_inv in Hrun as [([] & w2 & Hmk & Hrun)|(e & _ & [=])].
  apply mkdirAll_steady in Hmk as S1.
  apply bind_inv in Hrun as [(res0 & w3 & Hhead & Hrun)|(e & _ & [=])].
  apply http_Head_steady in Hhead as S2.
  destruct (StatusCode res0 =? 404)%Z; [done|].
  destruct (negb (StatusCode res0 =? 200)%Z); [done|].
  apply bind_inv in Hrun as [([] & w4 & Hfetch & Hrun)|(e & _ & [=])].
  apply install_fetch_steady in Hfetch as S3.
  pose proof (same_host_trans _ _ _ (same_host_trans _ _ _ S1 S2) S3) as (_ & _ & _ & Hnet).
  unfold install_verify_unpack in Hrun.
  apply bind_inv in Hrun as [(wantSHA & w5 & Hslurp & Hrun)|(e & _ & [=])].
  apply slurpURLToString_Ok in Hslurp as (res & Hget & _ & _ & -> & ->).
  rewrite Hnet in Hget.
  apply bind_inv in Hrun as [([] & w6 & Hver & Hrun)|(e & _ & [=])].
  apply wrap_inv in Hver as [([] & Hver & _)|(e' & _ & [=])].
  apply verifySHA256_Ok in Hver as (-> & data & Hread & Hdigest).
  apply bind_inv in Hrun as [([] & w7 & Hlog & Hrun)|(e & _ & [=])].
  inversion Hlog; subst w7. clear Hlog.
  apply bind_inv in Hrun as [([] & w8 & Hun & Hrun)|(e & _ & [=])].
  apply wrap_inv in Hun as [([] & Hun & _)|(e' & _ & [=])].
  pose proof (unpackArchive_dispatch targetDir version) as Hdis. cbv zeta in Hdis.
  fold goURL in Hdis. fold archiveFile in Hdis. rewrite Hdis in Hun. clear Hdis.
  apply String.eqb_neq in Hos. rewrite Hos in Hun.
  apply unpackTarGz_Ok in Hun as (raw & tr & Hread' & Htr & Hloop).
  rewrite file_ReadAll_add_event, Hread in Hread'. inversion Hread'; subst raw.
  apply bind_inv in Hrun as [([] & w9 & Hwf & Hrun)|(e & _ & [=])].
  inversion Hrun; subst w'. clear Hrun.
  exists res, data, tr. split; [done|]. split; [done|]. split; [done|].
  intros pre f rest Hsplit Hty Hmarker Hrest. rewrite Hsplit in Hloop.
  destruct (unpackTarGz_loop_delivers _ _ _ _ _ _ _ _ Hloop Hty Hrest)
    as (_ & _ & perm & mtime & Hf).
  exists perm, mtime. cbn [fs add_event]. rewrite <- Hf.
  eapply emits_untouched; [|exact Hwf].
  apply os_WriteFile_emits; cbn [touched]; congruence.
Qed.

End EndToEnd.

Lemma install_installs_witness :
  ∃ res raw tr,
    net_Get fresh_home (@versionArchiveURL linux_amd64 "go1.20.8" +:+ ".sha256") = inr res ∧
    sha256.hex (sha256.Sum256 raw) = strings.TrimSpace (Body res) ∧
    @gzip_tar_NewReader linux_amd64 raw = inr tr ∧
    ∀ pre f rest,
      tar_entries tr = pre ++ f :: rest → tar_Type f = Regular →
      tar_target sdk_dir f ≠ filepath.Join [sdk_dir; unpackedOkay] →
      Forall (fun g => tar_Type g = Regular →
                       tar_target sdk_dir g ≠ tar_target sdk_dir f) rest →
      ∃ perm mtime,
        fs (snd (@install linux_amd64 sdk_dir "go1.20.8" fresh_home))
          !! tar_target sdk_dir f = Some (File (tar_Data f) perm mtime).
Proof.
  apply (@install_installs linux_amd64 sdk_dir "go1.20.8" fresh_home).
  - vm_compute. discriminate.
  - intros fi. vm_compute. discriminate.
  - vm_compute. reflexivity.
Defined.

(** ** [install] stays in the target directory *)

Section InstallConfined.
Context `{Host}.

Lemma copyFromURL_emits (P : event -> Prop) dstFile srcURL :
  P (OsOpenFile dstFile) → P (HttpGet srcURL) → P (OsWrite dstFile) →
  (∀ n total, P (Progress n total)) → P (OsClose dstFile) → P (OsRemove dstFile) →
  emits P (copyFromURL dstFile srcURL).
Proof.
  intros Ho Hg Hw Hp Hc Hr.
  assert (emits P (copyFromURL_body dstFile srcURL)) as Hbody.
  { unfold copyFromURL_body. apply emits_bind; [by apply http_Get_emits|]. intros res.
    destruct (negb _); [apply emits_fail|].
    apply emits_bind; [by apply io_Copy_emits|]. intros [n err].
    destruct err; [apply emits_fail|]. destruct (_ && _); [apply emits_fail|].
    apply emits_bind; [by apply emits_emit|]. intros _. by apply os_Close_emits. }
  intros w r w' Hrun. unfold copyFromURL in Hrun.
  destruct (os_Create dstFile w) as [[[]|e] w1] eqn:Hcr;
    apply (os_OpenFile_emits P _ _ Ho) in Hcr as (evs1 & E1 & F1 & R1).
  2:{ inversion Hrun; subst. eauto. }
  destruct (copyFromURL_body dstFile srcURL w1) as [[[]|e] w2] eqn:Hb;
    apply Hbody in Hb as (evs2 & E2 & F2 & R2).
  { inversion Hrun; subst. exists (evs1 ++ evs2).
    split; [by rewrite E2, E1, app_assoc|]. split; [by apply Forall_app|].
    by apply frame_app with w1. }
  destruct (os_Close dstFile w2) as [r3 w3] eqn:Hcl.
  apply (os_Close_emits P _ Hc) in Hcl as (evs3 & E3 & F3 & R3).
  destruct (os_Remove dstFile w3) as [r4 w4] eqn:Hrm.
  apply (os_Remove_emits P _ Hr) in Hrm as (evs4 & E4 & F4 & R4).
  inversion Hrun; subst. exists (evs1 ++ evs2 ++ evs3 ++ evs4).
  split; [by rewrite E4, E3, E2, E1, !app_assoc|]. split; [by rewrite !Forall_app|].
  apply frame_app with w1; [done|]. apply frame_app with w2; [done|].
  by apply frame_app with w3.
Qed.


End InstallConfined.


(** The condition on the last element is needed: [validRelPath] accepts
    "go/..", which names the directory above the target. *)
Example tar_target_dotdot :
  validRelPath "go/.." = true ∧ tar_target sdk_dir (tar_dir "go/..") = "/home/u/sdk".
Proof. split; reflexivity. Qed.
